(** * epub-saver: a shallow embedding of the document and resource assembly

    The TypeScript class [EpubSaver] (with its helper class [Volume]) is
    embedded as pure functions over an explicit state record.  Mutation of
    [this] becomes state passing; a rejected promise or thrown exception is
    [None].

    Conventions of the embedding:
    - a JavaScript string is a byte string (its UTF-8 form), and the case
      conversions act on the ASCII letters;
    - an index ([idx]) is an integer, a counter a natural number, and both
      are interpolated in decimal;
    - a [Uint8Array] is a list of bytes;
    - the [Map] that is iterated ([resources]) is an association list in
      insertion order, the [Map]s that are only queried are finite maps;
    - a template literal is the list of its literal chunks and interpolated
      values, and the document is its rendering;
    - the network answers a URL the same way each time it is asked, and the
      fetches of one fragment complete in document order;
    - [Math.random] is a sequence of rational numbers, read one by one. *)

From Stdlib Require Import ZArith QArith Qround Ascii String List Permutation Sorted.
From Stdlib.Strings Require Import Byte.
From stdpp Require Import base option list gmap strings pretty.

Open Scope Z_scope.

(** ** JavaScript strings *)

Module JsString.

(** The quotation mark and the line feed, which the templates use. *)
Definition dq : string := String "034"%char EmptyString.
Definition nl : string := String "010"%char EmptyString.

Definition concat (l : list string) : string := foldr String.append EmptyString l.

(** [Array.prototype.join]. *)
Fixpoint join (sep : string) (l : list string) : string :=
  match l with
  | [] => EmptyString
  | [x] => x
  | x :: l' => x +:+ sep +:+ join sep l'
  end.

(** [String.prototype.startsWith] and [endsWith]. *)
Fixpoint startsWith (s p : string) : bool :=
  match p, s with
  | EmptyString, _ => true
  | String a p', String b s' => Ascii.eqb a b && startsWith s' p'
  | String _ _, EmptyString => false
  end.

Fixpoint drop (n : nat) (s : string) : string :=
  match n, s with
  | S n', String _ s' => drop n' s'
  | _, _ => s
  end.

Definition endsWith (s p : string) : bool :=
  (String.length p <=? String.length s)%nat
  && String.eqb (drop (String.length s - String.length p) s) p.

(** [s.split(sep)] for a separator that is one character out of a class:
    the result is never empty, and [n] separators give [n + 1] fields. *)
Fixpoint split (sep : ascii → bool) (s : string) : list string :=
  match s with
  | EmptyString => [EmptyString]
  | String c s' =>
      if sep c then EmptyString :: split sep s'
      else match split sep s' with
           | [] => [String c EmptyString]
           | f :: fs => String c f :: fs
           end
  end.

(** [arr[0]] and [arr.pop()] on the result of a split. *)
Definition first (l : list string) : string := List.hd EmptyString l.
Definition pop (l : list string) : string := List.last l EmptyString.

Definition is_upper (c : ascii) : bool :=
  let n := nat_of_ascii c in (65 <=? n)%nat && (n <=? 90)%nat.
Definition is_lower (c : ascii) : bool :=
  let n := nat_of_ascii c in (97 <=? n)%nat && (n <=? 122)%nat.
Definition is_digit (c : ascii) : bool :=
  let n := nat_of_ascii c in (48 <=? n)%nat && (n <=? 57)%nat.

Definition lower_char (c : ascii) : ascii :=
  if is_upper c then ascii_of_nat (nat_of_ascii c + 32) else c.

(** [String.prototype.toLowerCase], on the ASCII letters. *)
Fixpoint toLowerCase (s : string) : string :=
  match s with
  | EmptyString => EmptyString
  | String c s' => String (lower_char c) (toLowerCase s')
  end.

(** [s.replace(/[class]/g, f)]: every character of the class is replaced
    by the string [f] gives for it. *)
Fixpoint replaceChars (cls : ascii → bool) (f : ascii → string) (s : string) : string :=
  match s with
  | EmptyString => EmptyString
  | String c s' =>
      (if cls c then f c else String c EmptyString) +:+ replaceChars cls f s'
  end.

(** The position of the first occurrence of [p] in [s], comparing
    characters with [eqc]. *)
Fixpoint startsWith_by (eqc : ascii → ascii → bool) (s p : string) : bool :=
  match p, s with
  | EmptyString, _ => true
  | String a p', String b s' => eqc a b && startsWith_by eqc s' p'
  | String _ _, EmptyString => false
  end.

Fixpoint indexOf_by (eqc : ascii → ascii → bool) (p s : string) : option nat :=
  if startsWith_by eqc s p then Some 0%nat
  else match s with
       | EmptyString => None
       | String _ s' => S <$> indexOf_by eqc p s'
       end.

Definition includes (s p : string) : bool :=
  bool_decide (is_Some (indexOf_by Ascii.eqb p s)).

Fixpoint take (n : nat) (s : string) : string :=
  match n, s with
  | S n', String c s' => String c (take n' s')
  | _, _ => EmptyString
  end.

(** JavaScript truthiness of a string and the [a || b] idiom on strings. *)
Definition truthy (s : string) : bool := negb (String.eqb s EmptyString).
Definition or_else (a b : string) : string := if truthy a then a else b.

End JsString.

(** ** An insertion-ordered [Map] with string keys

    [Map.prototype.set] on a key that is present replaces the value and keeps
    the key's position; on a fresh key it appends.  [forEach] visits the
    entries in list order. *)

Module JsMap.
Section map.
Context {V : Type}.

Definition t : Type := list (string * V).

Definition empty : t := [].

Fixpoint get (m : t) (k : string) : option V :=
  match m with
  | [] => None
  | (k', v) :: m' => if String.eqb k' k then Some v else get m' k
  end.

Definition has (m : t) (k : string) : bool :=
  match get m k with Some _ => true | None => false end.

Fixpoint set (m : t) (k : string) (v : V) : t :=
  match m with
  | [] => [(k, v)]
  | (k', v') :: m' =>
      if String.eqb k' k then (k, v) :: m' else (k', v') :: set m' k v
  end.

Definition keys (m : t) : list string := map fst m.

End map.
Arguments t : clear implicits.
End JsMap.

Import JsString.

(** ** The data model *)

(** A [Uint8Array]. *)
Definition bytes : Type := list byte.

(** [new TextEncoder().encode(s)]: strings are kept in their UTF-8 form. *)
Definition encode (s : string) : bytes := list_byte_of_string s.

(** The object literal [{ idx, title, filename }] pushed by [addChapter]. *)
Record Chapter := {
  chap_idx : Z;
  chap_title : string;
  chap_filename : string;
}.

(** The fields of [class Volume]; [vol_ref] is the identity of the object,
    by which a handle returned from [addVolume] finds it again after the
    array of volumes was sorted in place. *)
Record Volume := {
  vol_ref : nat;
  vol_title : string;
  vol_idx : Z;
  vol_chapters : list Chapter;
  vol_containerFile : string;
}.

(** An element of [cssList]. *)
Record StyleSheet := {
  css_idx : Z;
  css_filename : string;
  css_mapname : string;
}.

Record Counters := {
  cnt_image : nat;
  cnt_css : nat;
  cnt_other : nat;
}.

(** A value of the [info] bag: [setInfo] accepts a string or a byte array. *)
Inductive InfoValue :=
| VStr (s : string)
| VBytes (b : bytes).

(** The fields of [class EpubSaver]. *)
Record EpubSaver := {
  resources : JsMap.t bytes;
  volumes : list Volume;
  cssMap : gmap string Z;
  info : gmap string InfoValue;
  uuid : string;
  resourceCounters : Counters;
  resourceUrls : gmap string string;
  cssList : list StyleSheet;
}.

(** The constructor; [uuid] is the result of [createUuid ()]. *)
Definition new_EpubSaver (uuid : string) : EpubSaver := {|
  resources := JsMap.empty;
  volumes := [];
  cssMap := ∅;
  info := ∅;
  uuid := uuid;
  resourceCounters := {| cnt_image := 0; cnt_css := 0; cnt_other := 0 |};
  resourceUrls := ∅;
  cssList := [];
|}.

Definition with_resources (e : EpubSaver) (r : JsMap.t bytes) : EpubSaver :=
  {| resources := r; volumes := volumes e; cssMap := cssMap e; info := info e;
     uuid := uuid e; resourceCounters := resourceCounters e;
     resourceUrls := resourceUrls e; cssList := cssList e |}.

(** ** The resource table *)

(** [_addResource(path, content)]: first writer wins. *)
Definition _addResource (e : EpubSaver) (path : string) (content : bytes) : EpubSaver :=
  if negb (JsMap.has (resources e) path)
  then with_resources e (JsMap.set (resources e) path content)
  else e.

(** A sequence of registrations, in call order. *)
Definition register_all (e : EpubSaver) (regs : list (string * bytes)) : EpubSaver :=
  foldl (λ e r, _addResource e r.1 r.2) e regs.

(** The first registration of [path] in a sequence. *)
Definition first_registration (regs : list (string * bytes)) (path : string) : option bytes :=
  snd <$> List.find (λ r, String.eqb r.1 path) regs.

(** ** Generated documents as instantiated templates

    A template literal is a sequence of literal chunks and interpolated
    values.  Each document is kept in that form: an attribute (its name and
    its value, written [name="value"]), an interpolated value in text
    position, an interpolated piece of markup, or literal template text.
    The document the program produces is the rendering. *)

Inductive Piece :=
| Lit (s : string)
| Attr (name value : string)
| Text (s : string)
| Html (s : string).

Definition render_piece (p : Piece) : string :=
  match p with
  | Lit s => s
  | Attr n v => n +:+ "=" +:+ dq +:+ v +:+ dq
  | Text s => s
  | Html s => s
  end.

Definition render (d : list Piece) : string := concat (map render_piece d).

(** The values of the attributes called [name], in document order. *)
Definition attr_values (name : string) (d : list Piece) : list string :=
  flat_map (λ p, match p with
                 | Attr n v => if String.eqb n name then [v] else []
                 | _ => []
                 end) d.

(** The interpolated values in text position, in document order. *)
Definition text_values (d : list Piece) : list string :=
  flat_map (λ p, match p with Text s => [s] | _ => [] end) d.

(** [parts.join(sep)] on rendered fragments. *)
Fixpoint join_pieces (sep : string) (l : list (list Piece)) : list Piece :=
  match l with
  | [] => []
  | [x] => x
  | x :: l' => x ++ Lit sep :: join_pieces sep l'
  end.

Definition xml_decl : list Piece :=
  [Lit "<?xml "; Attr "version" "1.0"; Lit " "; Attr "encoding" "UTF-8"; Lit "?>"].

Definition xhtml_ns : string := "http://www.w3.org/1999/xhtml".

(** ** The collaborators

    The network, the DOM parser and serializer, the location of the page and
    the regular-expression engine run on the style sheets are outside the
    program.  [fetch] gives [None] when the promise rejects. *)

(** What the program reads of a response: [response.ok],
    [response.status], the [Content-Type] header and the body. *)
Record Response := {
  resp_ok : bool;
  resp_status : nat;
  resp_contentType : option string;
  resp_body : bytes;
}.

(** The parsed fragment, as far as the program looks at it: the image
    elements with their [src] attribute, and the markup between them. *)
Inductive Node :=
| NMarkup (s : string)
| NImg (src : option string).

Record World := {
  fetch : string → option Response;
  (** [window.location.href.startsWith('https://')] *)
  secureContext : bool;
  (** [new DOMParser().parseFromString(content, 'text/html')] *)
  parseFromString : string → list Node;
  (** [new XMLSerializer().serializeToString(doc.documentElement)
        .replace(/^<div>|<\/div>$/g, '')] *)
  serializeToString : list Node → string;
  (** the successive first groups [match[1]] that the loop over
      [urlRegex.exec(css)] sees, for the global expression that matches a
      [url(...)] token *)
  cssUrlCaptures : string → list string;
  (** [acc.replace(new RegExp(escaped, 'g'), path)], for [escaped] the
      pattern that matches [url] literally: the arguments are [url], [path]
      and [acc] *)
  replaceAllLiteral : string → string → string → string;
}.

(** ** [class Volume] *)

Definition MIME_MAP : JsMap.t string :=
  [ ("image/jpeg", "jpg");
    ("image/png", "png");
    ("image/gif", "gif");
    ("image/webp", "webp");
    ("image/svg+xml", "svg");
    ("image/avif", "avif");
    ("application/octet-stream", "bin") ].

Definition is_char (a : ascii) (c : ascii) : bool := Ascii.eqb c a.
Definition is_hash_or_query (c : ascii) : bool :=
  Ascii.eqb c "#"%char || Ascii.eqb c "?"%char.

(** [mimeType.split('/').pop()] *)
Definition mime_subtype (mimeType : string) : string :=
  pop (split (is_char "/"%char) mimeType).

(** [url.split(/[#?]/)[0].split('.').pop()] *)
Definition url_extension (url : string) : string :=
  pop (split (is_char "."%char) (first (split is_hash_or_query url))).

Definition getExtension (mimeType url : string) : string :=
  let fromMime :=
    or_else (default EmptyString (JsMap.get MIME_MAP mimeType)) (mime_subtype mimeType) in
  let fromUrl := url_extension url in
  toLowerCase (or_else (or_else fromMime fromUrl) "bin").

Definition is_reserved (c : ascii) : bool :=
  Ascii.eqb c "<"%char || Ascii.eqb c ">"%char || Ascii.eqb c "&"%char
  || Ascii.eqb c "'"%char || Ascii.eqb c "034"%char.

Definition entity (c : ascii) : string :=
  if Ascii.eqb c "<"%char then "&lt;"
  else if Ascii.eqb c ">"%char then "&gt;"
  else if Ascii.eqb c "&"%char then "&amp;"
  else if Ascii.eqb c "'"%char then "&apos;"
  else if Ascii.eqb c "034"%char then "&quot;"
  else EmptyString.

Definition escapeXml (str : string) : string := replaceChars is_reserved entity str.

Definition eq_nocase (a b : ascii) : bool := Ascii.eqb (lower_char a) (lower_char b).

(** [html.match(/<tag>([\s\S]*?)<\/tag>/i)], the first group: the leftmost
    opening tag that has a closing tag after it, up to the first such
    closing tag. *)
Definition match_region (opening closing html : string) : option string :=
  i ← indexOf_by eq_nocase opening html;
  let rest := drop (i + String.length opening) html in
  j ← indexOf_by eq_nocase closing rest;
  Some (take j rest).

Definition extractContent (html : string) : string :=
  match match_region "<article>" "</article>" html with
  | Some inner => inner
  | None =>
      match match_region "<body>" "</body>" html with
      | Some inner => inner
      | None => html
      end
  end.

Definition wrapContent (content title contentType : string) (insertTitle : bool) : string :=
  if String.eqb contentType "text" then
    "<pre>" +:+ (if insertTitle then "<h1>" +:+ title +:+ "</h1>" else EmptyString)
    +:+ content +:+ "</pre>"
  else if String.eqb contentType "html" && insertTitle then
    "<h1>" +:+ title +:+ "</h1>" +:+ content
  else content.

(** The placeholder document a [Volume] registers when it is constructed. *)
Definition volume_container_doc (title : string) : list Piece :=
  xml_decl ++
  [ Lit (nl +:+ "<!DOCTYPE html>" +:+ nl +:+ "<html "); Attr "xmlns" xhtml_ns;
    Lit (">" +:+ nl +:+ "<head>" +:+ nl +:+ "<title>"); Text title;
    Lit ("</title>" +:+ nl +:+ "</head>" +:+ nl +:+ "<body>" +:+ nl +:+ "<h1>");
    Text title;
    Lit ("</h1>" +:+ nl +:+ "</body>" +:+ nl +:+ "</html>") ].

Definition containerFile_of (idx : Z) : string := "volume_" +:+ pretty idx +:+ ".xhtml".

(** [new Volume(epub, title, idx)]: the object and the state of [epub]
    after the constructor has registered the container document. *)
Definition new_Volume (e : EpubSaver) (ref : nat) (title : string) (idx : Z)
  : Volume * EpubSaver :=
  let v := {| vol_ref := ref; vol_title := title; vol_idx := idx;
              vol_chapters := []; vol_containerFile := containerFile_of idx |} in
  (v, _addResource e (vol_containerFile v) (encode (render (volume_container_doc title)))).

(** Field updates of the [EpubSaver] object. *)
Definition with_resourceUrls (e : EpubSaver) (u : gmap string string) : EpubSaver :=
  {| resources := resources e; volumes := volumes e; cssMap := cssMap e; info := info e;
     uuid := uuid e; resourceCounters := resourceCounters e;
     resourceUrls := u; cssList := cssList e |}.

Definition with_resourceCounters (e : EpubSaver) (c : Counters) : EpubSaver :=
  {| resources := resources e; volumes := volumes e; cssMap := cssMap e; info := info e;
     uuid := uuid e; resourceCounters := c;
     resourceUrls := resourceUrls e; cssList := cssList e |}.

Definition with_volumes (e : EpubSaver) (vs : list Volume) : EpubSaver :=
  {| resources := resources e; volumes := vs; cssMap := cssMap e; info := info e;
     uuid := uuid e; resourceCounters := resourceCounters e;
     resourceUrls := resourceUrls e; cssList := cssList e |}.

Definition with_info (e : EpubSaver) (i : gmap string InfoValue) : EpubSaver :=
  {| resources := resources e; volumes := volumes e; cssMap := cssMap e; info := i;
     uuid := uuid e; resourceCounters := resourceCounters e;
     resourceUrls := resourceUrls e; cssList := cssList e |}.

Definition with_css (e : EpubSaver) (l : list StyleSheet) (m : gmap string Z) : EpubSaver :=
  {| resources := resources e; volumes := volumes e; cssMap := m; info := info e;
     uuid := uuid e; resourceCounters := resourceCounters e;
     resourceUrls := resourceUrls e; cssList := l |}.

(** [this.epub.resourceCounters.image++] and its siblings. *)
Definition bump_image (e : EpubSaver) : EpubSaver :=
  let c := resourceCounters e in
  with_resourceCounters e
    {| cnt_image := S (cnt_image c); cnt_css := cnt_css c; cnt_other := cnt_other c |}.

Definition bump_css (e : EpubSaver) : EpubSaver :=
  let c := resourceCounters e in
  with_resourceCounters e
    {| cnt_image := cnt_image c; cnt_css := S (cnt_css c); cnt_other := cnt_other c |}.

Definition bump_other (e : EpubSaver) : EpubSaver :=
  let c := resourceCounters e in
  with_resourceCounters e
    {| cnt_image := cnt_image c; cnt_css := cnt_css c; cnt_other := S (cnt_other c) |}.

(** *** Images *)

(** A staged resource: the URL fetched, the local path, the bytes. *)
Definition Staged : Type := string * string * bytes.

(** The mixed-content upgrade: [url.replace('http://', 'https://')] on a URL
    that starts with [http://], on a page that was loaded over HTTPS. *)
Definition upgrade_url (w : World) (url : string) : string :=
  if startsWith url "http://" && secureContext w
  then "https://" +:+ drop 7 url
  else url.

(** What the callback of [processImages] does to one image element. *)
Inductive ImgOutcome :=
| Untouched
| Removed
| Stored (url filename : string) (data : bytes).

Definition image_filename (counter : nat) (ext : string) : string :=
  "images/img" +:+ pretty counter +:+ "." +:+ ext.

(** [const [mimeType] = (response.headers.get('Content-Type')
    || 'application/octet-stream').split(';')] *)
Definition declared_mime (response : Response) : string :=
  let contentType :=
    or_else (default EmptyString (resp_contentType response))
            "application/octet-stream" in
  first (split (is_char ";"%char) contentType).

Definition process_image (w : World) (e : EpubSaver) (src : option string) : ImgOutcome :=
  match src with
  | None => Untouched
  | Some url =>
      if negb (truthy url) || bool_decide (is_Some (resourceUrls e !! url)) then Untouched
      else if negb (startsWith url "http") then Removed
      else
        let url := upgrade_url w url in
        match fetch w url with
        | None => Removed
        | Some response =>
            if negb (resp_ok response) then Removed
            else
              let mimeType := declared_mime response in
              let ext := getExtension mimeType url in
              Stored url (image_filename (cnt_image (resourceCounters e)) ext)
                     (resp_body response)
        end
  end.

(** The image elements are visited in document order, and the fetches are
    taken to complete in that order: the counter is read and incremented
    when a fetch has completed, the URL index is not written before all of
    them have. *)
Fixpoint processImages_dom (w : World) (e : EpubSaver) (doc : list Node)
  : list Node * list Staged * EpubSaver :=
  match doc with
  | [] => ([], [], e)
  | NMarkup s :: rest =>
      let '(d, rs, e') := processImages_dom w e rest in (NMarkup s :: d, rs, e')
  | NImg src :: rest =>
      match process_image w e src with
      | Untouched =>
          let '(d, rs, e') := processImages_dom w e rest in (NImg src :: d, rs, e')
      | Removed => processImages_dom w e rest
      | Stored url filename data =>
          let '(d, rs, e') := processImages_dom w (bump_image e) rest in
          (NImg (Some filename) :: d, (url, filename, data) :: rs, e')
      end
  end.

Definition processImages (w : World) (e : EpubSaver) (content : string)
  : string * list Staged * EpubSaver :=
  let '(d, rs, e') := processImages_dom w e (parseFromString w content) in
  (serializeToString w d, rs, e').

Definition registerResources (e : EpubSaver) (rs : list Staged) : EpubSaver :=
  foldl (λ e r, let '(url, path, data) := r in
                _addResource (with_resourceUrls e (<[url := path]> (resourceUrls e))) path data)
        e rs.

(** *** The chapter document *)

(** [this.epub.cssList.find(c => c.idx === idx)] *)
Definition find_css (e : EpubSaver) (idx : Z) : option StyleSheet :=
  List.find (λ c, css_idx c =? idx) (cssList e).

(** The array [cssLinks] of [buildXhtml], pushed to in this order. *)
Definition cssLinks (e : EpubSaver) (useGlobalCSS : bool) (cssList : list Z)
  : list StyleSheet :=
  let links0 :=
    if useGlobalCSS then
      match find_css e 0 with Some globalCSS => [globalCSS] | None => [] end
    else [] in
  foldl (λ links idx, match find_css e idx with
                      | Some css => links ++ [css]
                      | None => links
                      end) links0 cssList.

Definition link_element (c : StyleSheet) : list Piece :=
  [Lit "<link "; Attr "href" (css_filename c); Lit " "; Attr "rel" "stylesheet"; Lit "/>"].

Definition buildXhtml (e : EpubSaver) (content1 title : string) (useGlobalCSS : bool)
    (cssList : list Z) : list Piece :=
  xml_decl ++
  [ Lit (nl +:+ "<!DOCTYPE html>" +:+ nl +:+ "<html "); Attr "xmlns" xhtml_ns;
    Lit (">" +:+ nl +:+ "<head>" +:+ nl +:+ "<meta "); Attr "name" "viewport"; Lit " ";
    Attr "content" "width=device-width, height=device-height, initial-scale=1.0";
    Lit ("/>" +:+ nl +:+ "<title>"); Text (escapeXml title);
    Lit ("</title>" +:+ nl) ] ++
  join_pieces (nl +:+ "  ") (map link_element (cssLinks e useGlobalCSS cssList)) ++
  [ Lit (nl +:+ "</head>" +:+ nl +:+ "<body>" +:+ nl); Html (extractContent content1);
    Lit (nl +:+ "</body>" +:+ nl +:+ "</html>") ].

Definition chapter_filename (vidx idx : Z) : string :=
  "chapter_" +:+ pretty vidx +:+ "_" +:+ pretty idx +:+ ".xhtml".

(** [this.chapters.push(c)] on the volume object [ref]. *)
Definition push_chapter (ref : nat) (c : Chapter) (vs : list Volume) : list Volume :=
  map (λ v, if Nat.eqb (vol_ref v) ref
            then {| vol_ref := vol_ref v; vol_title := vol_title v; vol_idx := vol_idx v;
                    vol_chapters := vol_chapters v ++ [c];
                    vol_containerFile := vol_containerFile v |}
            else v) vs.

Definition find_volume (e : EpubSaver) (ref : nat) : option Volume :=
  List.find (λ v, Nat.eqb (vol_ref v) ref) (volumes e).

(** The chapter document [addChapter] builds, and the state after the
    staged resources were registered. *)
Definition chapter_xhtml (w : World) (e : EpubSaver) (content title contentType : string)
    (insertTitle useGlobalCSS : bool) (cssList : list Z) : list Piece * EpubSaver :=
  let chapD := extractContent content in
  let processed := wrapContent chapD title contentType insertTitle in
  let '(finalContent, rs, e1) := processImages w e processed in
  let e2 := registerResources e1 rs in
  (buildXhtml e2 finalContent title useGlobalCSS cssList, e2).

(** [volume.addChapter(idx, content, title, contentType, insertTitle,
    useGlobalCSS, cssList)] on the volume object [ref]; [None] when [ref] is
    not a volume of this document. *)
Definition addChapter (w : World) (e : EpubSaver) (ref : nat) (idx : Z)
    (content title contentType : string) (insertTitle useGlobalCSS : bool)
    (cssList : list Z) : option EpubSaver :=
  this ← find_volume e ref;
  let '(xhtml, e2) :=
    chapter_xhtml w e content title contentType insertTitle useGlobalCSS cssList in
  let filename := chapter_filename (vol_idx this) idx in
  let e3 := _addResource e2 filename (encode (render xhtml)) in
  Some (with_volumes e3
          (push_chapter ref
             {| chap_idx := idx; chap_title := title; chap_filename := filename |}
             (volumes e3))).

(** ** [class EpubSaver] *)

(** [setInfo(tag, value)]: a cover given as a string is a URL and is fetched
    (without a look at the status); a failed fetch rejects. *)
Definition setInfo (w : World) (e : EpubSaver) (tag : string) (value : InfoValue)
  : option EpubSaver :=
  if String.eqb tag "cover" then
    match value with
    | VStr url =>
        response ← fetch w url;
        Some (with_info e (<["cover" := VBytes (resp_body response)]> (info e)))
    | VBytes b => Some (with_info e (<["cover" := VBytes b]> (info e)))
    end
  else Some (with_info e (<[tag := value]> (info e))).

(** [addVolume(title, idx)]: the new object gets the next identity. *)
Definition addVolume (e : EpubSaver) (title : string) (idx : Z) : Volume * EpubSaver :=
  let '(volume, e1) := new_Volume e (length (volumes e)) title idx in
  (volume, with_volumes e1 (volumes e1 ++ [volume])).

(** One round of the [while] loop of [processCSSUrls]. *)
Definition css_resource_ext (url : string) : string :=
  or_else (first (split is_hash_or_query (pop (split (is_char "."%char) url)))) "bin".

Definition fetch_css_url (w : World) (e : EpubSaver) (url : string) : EpubSaver :=
  if bool_decide (is_Some (resourceUrls e !! url)) then e
  else
    match fetch w url with
    | None => e
    | Some response =>
        let filename :=
          "resources/res" +:+ pretty (cnt_other (resourceCounters e)) +:+ "."
          +:+ css_resource_ext url in
        let e1 := _addResource (bump_other e) filename (resp_body response) in
        with_resourceUrls e1 (<[url := filename]> (resourceUrls e1))
    end.

Fixpoint css_replacements (w : World) (e : EpubSaver) (urls : list string)
  : list (string * string) * EpubSaver :=
  match urls with
  | [] => ([], e)
  | url :: rest =>
      let e1 := fetch_css_url w e url in
      let r := (url, or_else (default EmptyString (resourceUrls e1 !! url)) url) in
      let '(rs, e2) := css_replacements w e1 rest in
      (r :: rs, e2)
  end.

Definition processCSSUrls (w : World) (e : EpubSaver) (css : string) : string * EpubSaver :=
  let '(replacements, e1) := css_replacements w e (cssUrlCaptures w css) in
  (foldl (λ acc r, replaceAllLiteral w r.1 r.2 acc) css replacements, e1).

(** [addCSS(idx, content, filename, mapname)]; a content that is a URL is
    fetched first, and a failed fetch rejects. *)
Definition addCSS (w : World) (e : EpubSaver) (idx : Z) (content filename mapname : string)
  : option EpubSaver :=
  cssContent ←
    (if startsWith content "http://" || startsWith content "https://"
     then response ← fetch w content; Some (string_of_list_byte (resp_body response))
     else Some content);
  let '(cssContent, e1) := processCSSUrls w e cssContent in
  let '(filename, e2) :=
    if truthy filename then (filename, e1)
    else ("Styles/style" +:+ pretty (cnt_css (resourceCounters e1)) +:+ ".css", bump_css e1) in
  let e3 := _addResource e2 filename (encode cssContent) in
  Some (with_css e3
          (cssList e3 ++ [{| css_idx := idx; css_filename := filename;
                             css_mapname := mapname |}])
          (if truthy mapname then <[mapname := idx]> (cssMap e3) else cssMap e3)).

(** [createCSSMap(map)], on the entries of [map] in their enumeration
    order. *)
Fixpoint createCSSMap_loop (w : World) (e : EpubSaver) (maxIdx : Z)
    (entries : list (string * string)) : option EpubSaver :=
  match entries with
  | [] => Some e
  | (mapname, content) :: rest =>
      let idx := maxIdx + 1 in
      e1 ← addCSS w e idx content mapname mapname;
      createCSSMap_loop w e1 idx rest
  end.

Definition createCSSMap (w : World) (e : EpubSaver) (entries : list (string * string))
  : option EpubSaver :=
  createCSSMap_loop w e (foldr Z.max 0 (map css_idx (cssList e))) entries.

(** *** Sorting by the explicit index

    [arr.sort((a, b) => a.idx - b.idx)]: ascending, stable, in place. *)
Section sort.
Context {A : Type} (key : A → Z).

Fixpoint insert_by (x : A) (l : list A) : list A :=
  match l with
  | [] => [x]
  | y :: l' => if key x <=? key y then x :: l else y :: insert_by x l'
  end.

Definition sort_by (l : list A) : list A := foldr insert_by [] l.

(** The order the sort establishes. *)
Definition key_le (a b : A) : Prop := key a ≤ key b.

End sort.

Definition sort_chapters (v : Volume) : Volume :=
  {| vol_ref := vol_ref v; vol_title := vol_title v; vol_idx := vol_idx v;
     vol_chapters := sort_by chap_idx (vol_chapters v);
     vol_containerFile := vol_containerFile v |}.

(** The array of volumes after a generator has sorted it and the chapters
    of each volume. *)
Definition sort_catalog (vs : list Volume) : list Volume :=
  map sort_chapters (sort_by vol_idx vs).

(** *** The [info] bag *)

Definition info_truthy (v : InfoValue) : bool :=
  match v with VStr s => truthy s | VBytes _ => true end.

(** The string a template interpolates for a value. *)
Definition info_string (v : InfoValue) : string :=
  match v with
  | VStr s => s
  | VBytes b => join "," (map (λ x, pretty (Byte.to_N x)) b)
  end.

(** [this.info[tag] || dflt], interpolated. *)
Definition info_or (e : EpubSaver) (tag dflt : string) : string :=
  match info e !! tag with
  | Some v => if info_truthy v then info_string v else dflt
  | None => dflt
  end.

(** [this.info.cover], when it is truthy. *)
Definition info_cover (e : EpubSaver) : option bytes :=
  match info e !! "cover" with
  | Some (VBytes b) => Some b
  | Some (VStr s) => if truthy s then Some (encode s) else None
  | None => None
  end.

(** *** The navigation-map document, [toc.ncx] *)

(** [vol.chapters[0]?.filename], interpolated or used as an operand of
    [||]. *)
Definition first_chapter_filename (v : Volume) : option string :=
  chap_filename <$> head (vol_chapters v).

(** [vol.containerFile || vol.chapters[0]?.filename], interpolated. *)
Definition ncx_volume_src (v : Volume) : string :=
  if truthy (vol_containerFile v) then vol_containerFile v
  else default "undefined" (first_chapter_filename v).

Definition ncx_chapterPoint (playOrder : nat) (chap : Chapter) : list Piece :=
  [ Lit (nl +:+ "    <navPoint "); Attr "id" ("navpoint-" +:+ pretty playOrder); Lit " ";
    Attr "playOrder" (pretty playOrder);
    Lit (">" +:+ nl +:+ "      <navLabel><text>"); Text (chap_title chap);
    Lit ("</text></navLabel>" +:+ nl +:+ "      <content "); Attr "src" (chap_filename chap);
    Lit ("/>" +:+ nl +:+ "    </navPoint>") ].

Fixpoint ncx_chapterPoints (playOrder : nat) (chaps : list Chapter) : list Piece * nat :=
  match chaps with
  | [] => ([], playOrder)
  | chap :: rest =>
      let '(ps, playOrder') := ncx_chapterPoints (S playOrder) rest in
      (ncx_chapterPoint playOrder chap ++ ps, playOrder')
  end.

Definition ncx_volumePoint (playOrder : nat) (vol : Volume) : list Piece :=
  [ Lit (nl +:+ "<navPoint "); Attr "id" ("navpoint-" +:+ pretty playOrder); Lit " ";
    Attr "playOrder" (pretty playOrder);
    Lit (">" +:+ nl +:+ "  <navLabel><text>"); Text (vol_title vol);
    Lit ("</text></navLabel>" +:+ nl +:+ "  <content "); Attr "src" (ncx_volume_src vol);
    Lit "/>" ].

(** The callback of [forEach] over the sorted volumes: the volume point is
    built before the chapters of the volume are sorted. *)
Fixpoint ncx_navPoints (playOrder : nat) (vols : list Volume) : list Piece * nat :=
  match vols with
  | [] => ([], playOrder)
  | vol :: rest =>
      let volumePoint := ncx_volumePoint playOrder vol in
      let '(chapterPoints, playOrder1) :=
        ncx_chapterPoints (S playOrder) (sort_by chap_idx (vol_chapters vol)) in
      let '(ps, playOrder2) := ncx_navPoints playOrder1 rest in
      (volumePoint ++ chapterPoints ++ Lit "</navPoint>" :: ps, playOrder2)
  end.

Definition ncx_meta (name content : string) : list Piece :=
  [Lit "<meta "; Attr "name" name; Lit " "; Attr "content" content; Lit ("/>" +:+ nl)].

Definition generateNcx (e : EpubSaver) : list Piece * EpubSaver :=
  let navPoints := (ncx_navPoints 1 (sort_by vol_idx (volumes e))).1 in
  (xml_decl ++
   [ Lit (nl +:+ "<!DOCTYPE ncx PUBLIC " +:+ dq +:+ "-//NISO//DTD ncx 2005-1//EN" +:+ dq
          +:+ " " +:+ dq +:+ "http://www.daisy.org/z3986/2005/ncx-2005-1.dtd" +:+ dq
          +:+ ">" +:+ nl +:+ "<ncx ");
     Attr "xmlns" "http://www.daisy.org/z3986/2005/ncx/"; Lit " ";
     Attr "version" "2005-1"; Lit (">" +:+ nl +:+ "<head>" +:+ nl) ] ++
   ncx_meta "dtb:uid" ("urn:uuid:" +:+ uuid e) ++
   ncx_meta "dtb:depth" "2" ++
   ncx_meta "dtb:totalPageCount" "0" ++
   ncx_meta "dtb:maxPageNumber" "0" ++
   [ Lit ("</head>" +:+ nl +:+ "<docTitle>" +:+ nl +:+ "<text>");
     Text (info_or e "bookname" "Untitled");
     Lit ("</text>" +:+ nl +:+ "</docTitle>" +:+ nl +:+ "<navMap>" +:+ nl) ] ++
   navPoints ++
   [ Lit (nl +:+ "</navMap>" +:+ nl +:+ "</ncx>") ],
   with_volumes e (sort_catalog (volumes e))).

(** *** The package document, [content.opf] *)

Definition cover_xhtml : list Piece :=
  xml_decl ++
  [ Lit (nl +:+ "<!DOCTYPE html>" +:+ nl +:+ "<html "); Attr "xmlns" xhtml_ns;
    Lit (">" +:+ nl +:+ "<head>" +:+ nl +:+ "<meta "); Attr "name" "viewport"; Lit " ";
    Attr "content"
      "width=device-width, height=device-height, initial-scale=1.0, minimum-scale=1.0";
    Lit ("/>" +:+ nl +:+ "<title>Cover</title>" +:+ nl +:+ "</head>" +:+ nl +:+ "<body>"
         +:+ nl +:+ "<div ");
    Attr "style" "text-align: center; padding: 0pt; margin: 0pt;";
    Lit (">" +:+ nl +:+ "<img "); Attr "src" "images/cover.jpg"; Lit " ";
    Attr "alt" "Cover Image"; Lit " "; Attr "style" "height: 100%; max-width: 100%;";
    Lit ("/>" +:+ nl +:+ "</div>" +:+ nl +:+ "</body>" +:+ nl +:+ "</html>") ].

(** [path.replace(/[^a-z0-9]/gi, '-')] *)
Definition sanitize_id (path : string) : string :=
  replaceChars (λ c, negb (is_lower c || is_upper c || is_digit c)) (λ _, "-") path.

Definition media_type (path : string) : string :=
  if endsWith path ".xhtml" then "application/xhtml+xml"
  else if endsWith path ".css" then "text/css"
  else if endsWith path ".jpg" || endsWith path ".jpeg" then "image/jpeg"
  else if endsWith path ".png" then "image/png"
  else "application/octet-stream".

Definition manifest_item (id href type : string) (properties : option string)
  : list Piece :=
  [ Lit "<item "; Attr "id" id; Lit " "; Attr "href" href; Lit " ";
    Attr "media-type" type ] ++
  match properties with
  | Some p => [Lit " "; Attr "properties" p]
  | None => []
  end ++ [Lit "/>"].

Definition opf_metadata (now : string) (e : EpubSaver) : list (list Piece) :=
  [ [ Lit "<dc:identifier "; Attr "id" "BookId"; Lit ">urn:uuid:"; Text (uuid e);
      Lit "</dc:identifier>" ];
    [ Lit "<dc:title>"; Text (info_or e "bookname" "Untitled"); Lit "</dc:title>" ];
    [ Lit "<dc:creator>"; Text (info_or e "author" "Unknown"); Lit "</dc:creator>" ];
    [ Lit "<dc:description>"; Text (info_or e "introduction" EmptyString);
      Lit "</dc:description>" ];
    [ Lit "<dc:language>zh-CN</dc:language>" ];
    [ Lit "<meta "; Attr "property" "dcterms:modified"; Lit ">"; Text now;
      Lit "Z</meta>" ] ] ++
  match info_cover e with
  | Some _ =>
      [ [ Lit "<meta "; Attr "name" "cover"; Lit " "; Attr "content" "cover-image";
          Lit "/>" ];
        [ Lit "<meta "; Attr "property" "rendition:layout";
          Lit ">pre-paginated</meta>" ] ]
  | None => []
  end.

(** The two registrations [generateOpf] makes when a cover is set. *)
Definition register_cover (e : EpubSaver) : EpubSaver :=
  match info_cover e with
  | Some cover =>
      _addResource (_addResource e "images/cover.jpg" cover)
                   "cover.xhtml" (encode (render cover_xhtml))
  | None => e
  end.

Definition opf_manifest (e : EpubSaver) : list (list Piece) :=
  [ manifest_item "nav" "nav.xhtml" "application/xhtml+xml" (Some "nav");
    manifest_item "ncx" "toc.ncx" "application/x-dtbncx+xml" None ] ++
  match info_cover e with
  | Some _ =>
      [ manifest_item "cover-image" "images/cover.jpg" "image/jpeg" (Some "cover-image");
        manifest_item "cover" "cover.xhtml" "application/xhtml+xml" None ]
  | None => []
  end ++
  map (λ r, manifest_item (sanitize_id r.1) r.1 (media_type r.1) None) (resources e).

Definition itemref (idref : string) : list Piece :=
  [Lit "<itemref "; Attr "idref" idref; Lit "/>"].

Definition opf_spine (e : EpubSaver) : list (list Piece) :=
  match info_cover e with Some _ => [itemref "cover"] | None => [] end ++
  flat_map (λ v, map (λ c, itemref (sanitize_id (chap_filename c)))
                     (sort_by chap_idx (vol_chapters v)))
           (sort_by vol_idx (volumes e)).

Definition opf_guide (e : EpubSaver) : list Piece :=
  match info_cover e with
  | Some _ =>
      [ Lit "<reference "; Attr "href" "cover.xhtml"; Lit " "; Attr "type" "cover";
        Lit " "; Attr "title" "Cover"; Lit "/>" ]
  | None => []
  end.

(** [now] is the formatted [Moment(Date.now()).utc()]. *)
Definition generateOpf (now : string) (e : EpubSaver) : list Piece * EpubSaver :=
  let e1 := register_cover e in
  let sep := nl +:+ "    " in
  (xml_decl ++
   [ Lit (nl +:+ "<package "); Attr "xmlns" "http://www.idpf.org/2007/opf"; Lit " ";
     Attr "unique-identifier" "BookId"; Lit " "; Attr "version" "3.0";
     Lit (">" +:+ nl +:+ "<metadata ");
     Attr "xmlns:dc" "http://purl.org/dc/elements/1.1/"; Lit (">" +:+ nl) ] ++
   join_pieces sep (opf_metadata now e) ++
   [ Lit (nl +:+ "</metadata>" +:+ nl +:+ "<manifest>" +:+ nl) ] ++
   join_pieces sep (opf_manifest e1) ++
   [ Lit (nl +:+ "</manifest>" +:+ nl +:+ "<spine "); Attr "toc" "ncx"; Lit (">" +:+ nl) ] ++
   join_pieces sep (opf_spine e1) ++
   [ Lit (nl +:+ "</spine>" +:+ nl +:+ "<guide>" +:+ nl) ] ++
   opf_guide e1 ++
   [ Lit (nl +:+ "</guide>" +:+ nl +:+ "</package>") ],
   with_volumes e1 (sort_catalog (volumes e1))).

(** *** The navigation document, [nav.xhtml] *)

(** [v.chapters[0]?.filename || ''], read before the chapters are sorted. *)
Definition nav_volume_href (v : Volume) : string :=
  or_else (default EmptyString (first_chapter_filename v)) EmptyString.

Definition nav_chapter (c : Chapter) : list Piece :=
  [ Lit (nl +:+ "      <li><a "); Attr "href" (chap_filename c); Lit ">";
    Text (chap_title c); Lit ("</a></li>" +:+ nl +:+ "    ") ].

Definition nav_volume (v : Volume) : list Piece :=
  [ Lit (nl +:+ "<li>" +:+ nl +:+ "  <a "); Attr "href" (nav_volume_href v); Lit ">";
    Text (vol_title v); Lit ("</a>" +:+ nl +:+ "  <ol>" +:+ nl +:+ "    ") ] ++
  flat_map nav_chapter (sort_by chap_idx (vol_chapters v)) ++
  [ Lit (nl +:+ "  </ol>" +:+ nl +:+ "</li>" +:+ nl) ].

Definition generateNav (e : EpubSaver) : list Piece * EpubSaver :=
  let items := flat_map nav_volume (sort_by vol_idx (volumes e)) in
  (xml_decl ++
   [ Lit (nl +:+ "<html "); Attr "xmlns" xhtml_ns; Lit " ";
     Attr "xmlns:epub" "http://www.idpf.org/2007/ops";
     Lit (">" +:+ nl +:+ "<head>" +:+ nl +:+ "<title>Table of Contents</title>" +:+ nl
          +:+ "</head>" +:+ nl +:+ "<body>" +:+ nl +:+ "<nav ");
     Attr "epub:type" "toc";
     Lit (">" +:+ nl +:+ "<h1>Table of Contents</h1>" +:+ nl +:+ "<ol>" +:+ nl) ] ++
   items ++
   [ Lit (nl +:+ "</ol>" +:+ nl +:+ "</nav>" +:+ nl +:+ "</body>" +:+ nl +:+ "</html>") ],
   with_volumes e (sort_catalog (volumes e))).

(** *** The archive *)

Inductive Compression := STORE | DEFLATE.

(** What [zip.file(name, data, options)] hands to the archiving library. *)
Record ZipFile := {
  zf_data : bytes;
  zf_compression : option Compression;
}.

(** The files of the [JsZip] object, by name and in the order [save] adds
    them, and the options of [generateAsync].  The directory entries the
    library makes for [folder] are its own and are not part of this. *)
Record Archive := {
  arc_files : JsMap.t ZipFile;
  arc_compression : Compression;
}.

(** [zip.file(name, data)] and [zip.file(name, data, { compression })]. *)
Definition zip_file (zip : JsMap.t ZipFile) (name : string) (data : bytes)
    (compression : option Compression) : JsMap.t ZipFile :=
  JsMap.set zip name {| zf_data := data; zf_compression := compression |}.

(** The method the library uses for a file: its own, or else the one given
    to [generateAsync]. *)
Definition effective_compression (a : Archive) (f : ZipFile) : Compression :=
  default (arc_compression a) (zf_compression f).

Definition container_xml : list Piece :=
  [ Lit "<?xml "; Attr "version" "1.0"; Lit ("?>" +:+ nl +:+ "<container ");
    Attr "version" "1.0"; Lit " ";
    Attr "xmlns" "urn:oasis:names:tc:opendocument:xmlns:container";
    Lit (">" +:+ nl +:+ "<rootfiles>" +:+ nl +:+ "<rootfile ");
    Attr "full-path" "OEBPS/content.opf"; Lit " ";
    Attr "media-type" "application/oebps-package+xml";
    Lit ("/>" +:+ nl +:+ "</rootfiles>" +:+ nl +:+ "</container>") ].

Definition MIMETYPE : string := "application/epub+zip".

(** The first file of the archive. *)
Definition mimetype_entry : string * ZipFile :=
  ("mimetype", {| zf_data := encode MIMETYPE; zf_compression := Some STORE |}).

(** The files that follow the first one carry no method of their own. *)
Definition plain_file (f : string * ZipFile) : Prop :=
  f.1 ≠ "mimetype" ∧ zf_compression f.2 = None.

(** The three documents [save] generates, in the order it generates them,
    and the state they leave. *)
Record Generated := {
  gen_opf : list Piece;
  gen_ncx : list Piece;
  gen_nav : list Piece;
  gen_state : EpubSaver;
}.

Definition generate (now : string) (e : EpubSaver) : Generated :=
  let '(opf, e1) := generateOpf now e in
  let '(ncxContent, e2) := generateNcx e1 in
  let '(nav, e3) := generateNav e2 in
  {| gen_opf := opf; gen_ncx := ncxContent; gen_nav := nav; gen_state := e3 |}.

Definition save (now : string) (e : EpubSaver) : Archive * EpubSaver :=
  let zip := zip_file JsMap.empty "mimetype" (encode MIMETYPE) (Some STORE) in
  let zip := zip_file zip "META-INF/container.xml" (encode (render container_xml)) None in
  let g := generate now e in
  let zip := zip_file zip "OEBPS/content.opf" (encode (render (gen_opf g))) None in
  let zip := zip_file zip "OEBPS/toc.ncx" (encode (render (gen_ncx g))) None in
  let zip :=
    foldl (λ zip r, zip_file zip ("OEBPS/" +:+ r.1) r.2 None) zip
          (resources (gen_state g)) in
  let zip := zip_file zip "OEBPS/nav.xhtml" (encode (render (gen_nav g))) None in
  ({| arc_files := zip; arc_compression := DEFLATE |}, gen_state g).

(** ** The documents a caller can build *)

Inductive Call :=
| CallSetInfo (tag : string) (value : InfoValue)
| CallAddVolume (title : string) (idx : Z)
| CallAddChapter (ref : nat) (idx : Z) (content title contentType : string)
    (insertTitle useGlobalCSS : bool) (cssList : list Z)
| CallAddCSS (idx : Z) (content filename mapname : string)
| CallCreateCSSMap (entries : list (string * string))
| CallSave (now : string).

(** The state after a call that returns; [None] for a call that throws. *)
Definition call (w : World) (e : EpubSaver) (c : Call) : option EpubSaver :=
  match c with
  | CallSetInfo tag value => setInfo w e tag value
  | CallAddVolume title idx => Some (addVolume e title idx).2
  | CallAddChapter ref idx content title contentType insertTitle useGlobalCSS cssList =>
      addChapter w e ref idx content title contentType insertTitle useGlobalCSS cssList
  | CallAddCSS idx content filename mapname => addCSS w e idx content filename mapname
  | CallCreateCSSMap entries => createCSSMap w e entries
  | CallSave now => Some (save now e).2
  end.

Inductive reachable (w : World) : EpubSaver → Prop :=
| reachable_new uuid : reachable w (new_EpubSaver uuid)
| reachable_call e c e' : reachable w e → call w e c = Some e' → reachable w e'.

(** A run of calls, from first to last; [None] when one of them throws. *)
Fixpoint run (w : World) (e : EpubSaver) (calls : list Call) : option EpubSaver :=
  match calls with
  | [] => Some e
  | c :: rest => e' ← call w e c; run w e' rest
  end.

(** ** Reference definitions, in the words of the specification *)


(** The files and the titles a document lists, for volumes in a given
    order: each volume, then its chapters. *)
Definition catalog_files (link : Volume → string) (vs : list Volume) : list string :=
  flat_map (λ v, link v :: map chap_filename (vol_chapters v)) vs.

Definition catalog_titles (vs : list Volume) : list string :=
  flat_map (λ v, vol_title v :: map chap_title (vol_chapters v)) vs.

Definition spine_ids (vs : list Volume) : list string :=
  flat_map (λ v, map (λ c, sanitize_id (chap_filename c)) (vol_chapters v)) vs.

Definition cover_idref (e : EpubSaver) : list string :=
  match info_cover e with Some _ => ["cover"] | None => [] end.



(** An absolute HTTP URL. *)
Definition absolute_http (url : string) : bool :=
  startsWith url "http://" || startsWith url "https://".

(** The fetch of [url] rejects or answers with a status that is not a
    success. *)
Definition fetch_fails (w : World) (url : string) : Prop :=
  match fetch w url with
  | Some response => resp_ok response = false
  | None => True
  end.

(** An image element is dropped: the fragment is processed as if the
    element were not in it. *)
Definition image_dropped (w : World) (e : EpubSaver) (pre : list Node) (url : string)
    (post : list Node) : Prop :=
  processImages_dom w e (pre ++ NImg (Some url) :: post)
  = processImages_dom w e (pre ++ post).

Definition removal_claim : Prop :=
  ∀ w e pre url post,
    absolute_http url = false ∨ fetch_fails w url →
    image_dropped w e pre url post.

(** What is staged was fetched with success, from a URL that starts with
    [http]. *)
Definition staged_from (w : World) (r : Staged) : Prop :=
  ∃ src response,
    r.1.1 = upgrade_url w src ∧ startsWith src "http" = true
    ∧ fetch w r.1.1 = Some response ∧ resp_ok response = true.

(** A path is a key of the resource table. *)
Definition stored (e : EpubSaver) (path : string) : Prop :=
  JsMap.has (resources e) path = true.

(** The [href], [src] and [idref] values of a document. *)
Definition doc_references (d : list Piece) : list string :=
  attr_values "href" d ++ attr_values "src" d ++ attr_values "idref" d.

Definition consistency_claim : Prop :=
  ∀ w e now,
    reachable w e →
    let g := generate now e in
    Forall (stored (gen_state g))
      (doc_references (gen_opf g) ++ doc_references (gen_ncx g)
       ++ doc_references (gen_nav g)).

(** The files of the catalog are in the resource table. *)
Definition volume_stored (e : EpubSaver) (v : Volume) : Prop :=
  truthy (vol_containerFile v) = true
  ∧ stored e (vol_containerFile v)
  ∧ Forall (λ c, stored e (chap_filename c)) (vol_chapters v).

Definition catalog_stored (e : EpubSaver) : Prop :=
  Forall (volume_stored e) (volumes e).

(** The table of [e'] holds the paths of [e], and the catalog is the
    same. *)
Definition grows (e e' : EpubSaver) : Prop :=
  (∀ p, stored e p → stored e' p) ∧ volumes e' = volumes e.


(** The claim on the cover, as the specification words it: whenever a cover
    is set, [save] leaves the cover bytes under [images/cover.jpg] and
    declares the item with the media type [image/jpeg]. *)
Definition cover_claim : Prop :=
  ∀ w e now cover,
    reachable w e →
    info_cover e = Some cover →
    JsMap.get (resources (save now e).2) "images/cover.jpg" = Some cover
    ∧ ∃ pre post,
        gen_opf (generate now e)
        = pre ++ manifest_item "cover-image" "images/cover.jpg" "image/jpeg"
                   (Some "cover-image") ++ post.

(** ** Reference definitions for further properties *)

(** The characters of a string. *)
Definition chars (s : string) : list ascii := list_ascii_of_string s.

(** A reader of the five entities [escapeXml] writes, to state that the
    escaping loses nothing. *)
Fixpoint unescapeXml_aux (fuel : nat) (s : string) : string :=
  match fuel with
  | O => EmptyString
  | S fuel' =>
      if startsWith s "&lt;" then String "<" (unescapeXml_aux fuel' (drop 4 s))
      else if startsWith s "&gt;" then String ">" (unescapeXml_aux fuel' (drop 4 s))
      else if startsWith s "&amp;" then String "&" (unescapeXml_aux fuel' (drop 5 s))
      else if startsWith s "&apos;" then String "'" (unescapeXml_aux fuel' (drop 6 s))
      else if startsWith s "&quot;" then String "034" (unescapeXml_aux fuel' (drop 6 s))
      else match s with
           | EmptyString => EmptyString
           | String c r => String c (unescapeXml_aux fuel' r)
           end
  end.

Definition unescapeXml (s : string) : string := unescapeXml_aux (String.length s) s.

(** Equal up to the case of the ASCII letters. *)
Definition same_nocase (a b : string) : Prop := toLowerCase a = toLowerCase b.

(** An ASCII letter or digit. *)
Definition is_alnum (c : ascii) : bool := is_lower c || is_upper c || is_digit c.

(** The state after [n] images were stored: the image counter has advanced
    by [n], and nothing else has changed. *)
Definition advance_images (e : EpubSaver) (n : nat) : EpubSaver :=
  let c := resourceCounters e in
  with_resourceCounters e
    {| cnt_image := cnt_image c + n; cnt_css := cnt_css c; cnt_other := cnt_other c |}.

(** An image element that [processImages] passes over: it has no [src], an
    empty one, or one that is in the URL index. *)
Definition passed_over (e : EpubSaver) (n : Node) : Prop :=
  match n with
  | NMarkup _ => True
  | NImg None => True
  | NImg (Some url) => truthy url = false ∨ is_Some (resourceUrls e !! url)
  end.

(** The path of a staged resource, and its URL. *)
Definition staged_path (r : Staged) : string := r.1.2.
Definition staged_url (r : Staged) : string := r.1.1.

(** The table of [e'] is the table of [e] after some registrations. *)
Definition registers (e e' : EpubSaver) : Prop :=
  ∃ regs, resources e' = resources (register_all e regs).

(** Every path the URL index gives is a key of the resource table. *)
Definition index_backed (e : EpubSaver) : Prop :=
  ∀ url path, resourceUrls e !! url = Some path → stored e path.

(** The identities of the volume objects are the numbers below their
    count, each once. *)
Definition refs_ok (e : EpubSaver) : Prop :=
  map vol_ref (volumes e) ≡ₚ seq 0 (length (volumes e)).

(** The same volume object, whatever chapters it has by now. *)
Definition same_volume (v v' : Volume) : Prop :=
  vol_ref v' = vol_ref v ∧ vol_idx v' = vol_idx v ∧ vol_title v' = vol_title v
  ∧ vol_containerFile v' = vol_containerFile v.

(** Every volume object of [e] is a volume object of [e']. *)
Definition keeps_volumes (e e' : EpubSaver) : Prop :=
  ∀ v, In v (volumes e) → ∃ v', In v' (volumes e') ∧ same_volume v v'.

(** The volume object [v] after a chapter was pushed to it. *)
Definition with_chapter (v : Volume) (c : Chapter) : Volume :=
  {| vol_ref := vol_ref v; vol_title := vol_title v; vol_idx := vol_idx v;
     vol_chapters := vol_chapters v ++ [c]; vol_containerFile := vol_containerFile v |}.

(** The name [addCSS] stores a style sheet under. *)
Definition css_name (e : EpubSaver) (filename : string) : string :=
  if truthy filename then filename
  else "Styles/style" +:+ pretty (cnt_css (resourceCounters e)) +:+ ".css".

(** The style sheets, their names and the style counter are those of [e]. *)
Definition same_styles (e e' : EpubSaver) : Prop :=
  cssList e' = cssList e ∧ cssMap e' = cssMap e
  ∧ cnt_css (resourceCounters e') = cnt_css (resourceCounters e).

(** The largest index of a style sheet, or 0:
    [Math.max(...this.cssList.map(c => c.idx), 0)]. *)
Definition max_css_idx (e : EpubSaver) : Z := foldr Z.max 0 (map css_idx (cssList e)).

(** ** The identifier of a new document: [createUuid]

    [Math.random] is a sequence of numbers; the call for the [i]-th letter
    of the template that is an [x] or a [y] reads the [i]-th of them. *)

(** [n | 0] for a number [n]: the integer part, brought into 32 bits. *)
Definition to_int32 (n : Q) : Z :=
  let t := if Qle_bool 0 n then Qfloor n else Qceiling n in
  (t + 2 ^ 31) mod 2 ^ 32 - 2 ^ 31.

Definition hex_digit (d : Z) : ascii :=
  if d <? 10 then ascii_of_nat (Z.to_nat (48 + d))
  else ascii_of_nat (Z.to_nat (87 + d)).

Fixpoint hex_go (fuel : nat) (n : Z) (acc : string) : string :=
  match fuel with
  | O => acc
  | S fuel' =>
      if n =? 0 then acc
      else hex_go fuel' (n / 16) (String (hex_digit (n mod 16)) acc)
  end.

(** [v.toString(16)] for an integer [v]. *)
Definition toString16 (v : Z) : string :=
  if v =? 0 then "0"
  else if v <? 0 then "-" +:+ hex_go (Z.to_nat (- v)) (- v) EmptyString
  else hex_go (Z.to_nat v) v EmptyString.

Definition UUID_TEMPLATE : string := "xxxxxxxx-xxxx-4xxx-yxxx-xxxxxxxxxxxx".

(** [template.replace(/[xy]/g, c => ...)], the callback drawing one number
    for each letter it replaces. *)
Fixpoint replace_xy (template : string) (random : nat → Q) (i : nat) : string :=
  match template with
  | EmptyString => EmptyString
  | String c rest =>
      if Ascii.eqb c "x" || Ascii.eqb c "y" then
        let r := to_int32 (random i * 16) in
        let v := if Ascii.eqb c "x" then r else Z.lor (Z.land r 3) 8 in
        toString16 v +:+ replace_xy rest random (S i)
      else String c (replace_xy rest random i)
  end.

Definition createUuid (random : nat → Q) : string := replace_xy UUID_TEMPLATE random 0.

(** A lower-case hexadecimal digit. *)
Definition is_hex (c : ascii) : bool :=
  is_digit c || (Ascii.leb "a" c && Ascii.leb c "f").

(** [n] characters that satisfy [p], then the rest. *)
Fixpoint block (n : nat) (p : ascii → bool) (rest : string → bool) (s : string) : bool :=
  match n with
  | O => rest s
  | S n' => match s with
            | String c s' => p c && block n' p rest s'
            | EmptyString => false
            end
  end.

(** The textual form of a random (version 4) identifier of RFC 4122:
    [hhhhhhhh-hhhh-4hhh-vhhh-hhhhhhhhhhhh], with [h] a hexadecimal digit and
    [v] one of [8], [9], [a] and [b]. *)
Definition uuid_v4 (s : string) : bool :=
  block 8 is_hex (block 1 (is_char "-")
  (block 4 is_hex (block 1 (is_char "-")
  (block 1 (is_char "4") (block 3 is_hex (block 1 (is_char "-")
  (block 1 (λ c, Ascii.eqb c "8" || Ascii.eqb c "9" || Ascii.eqb c "a" || Ascii.eqb c "b")
  (block 3 is_hex (block 1 (is_char "-")
  (block 12 is_hex (λ s, String.eqb s EmptyString))))))))))) s.

(** ** A small world to run the program in

    Three URLs answer: an image, an image of a type the table does not
    list, and a page that is not found.  The fragments parsed in this world
    hold no image element. *)

Definition demo_fetch (url : string) : option Response :=
  if String.eqb url "http://host/a.png" then
    Some {| resp_ok := true; resp_status := 200;
            resp_contentType := Some "image/png"; resp_body := [x89; x50] |}
  else if String.eqb url "http://host/pic.png" then
    Some {| resp_ok := true; resp_status := 200;
            resp_contentType := Some "image/bmp"; resp_body := [x42; x4d] |}
  else if String.eqb url "http://host/gone.png" then
    Some {| resp_ok := false; resp_status := 404;
            resp_contentType := Some "text/html"; resp_body := [] |}
  else None.

Definition demo_serialize (d : list Node) : string :=
  concat (map (λ n, match n with
                    | NMarkup s => s
                    | NImg None => "<img/>"
                    | NImg (Some u) => "<img src=" +:+ dq +:+ u +:+ dq +:+ "/>"
                    end) d).

Definition demo_world : World := {|
  fetch := demo_fetch;
  secureContext := false;
  parseFromString := λ s, [NMarkup s];
  serializeToString := demo_serialize;
  cssUrlCaptures := λ _, [];
  replaceAllLiteral := λ _ _ s, s;
|}.

Definition demo_uuid : string := "00000000-0000-4000-8000-000000000000".

(** A fragment with the same image twice. *)
Definition same_image_twice : list Node :=
  [ NImg (Some "http://host/a.png"); NMarkup "<br/>"; NImg (Some "http://host/a.png") ].

(** A book of two volumes, added out of order, one of them without a
    chapter, with titles that hold reserved characters. *)
Definition demo_calls : list Call :=
  [ CallSetInfo "bookname" (VStr "Tom & Jerry");
    CallAddVolume "A & B" 2;
    CallAddVolume "Empty" 1;
    CallAddChapter 0 2 "<p>two</p>" "1 < 2" "html" true true [];
    CallAddChapter 0 1 "<p>one</p>" "One" "html" true true [] ].

Definition demo_book : EpubSaver :=
  default (new_EpubSaver demo_uuid) (run demo_world (new_EpubSaver demo_uuid) demo_calls).

Definition demo_now : string := "2024-01-01T00:00:00".

(** A document with the style sheets of index 0 and 2. *)
Definition demo_styles : EpubSaver :=
  default (new_EpubSaver demo_uuid)
    (run demo_world (new_EpubSaver demo_uuid)
       [ CallAddCSS 0 "body { margin: 0 }" EmptyString EmptyString;
         CallAddCSS 2 "p { text-indent: 2em }" "extra.css" "extra" ]).

(** A document with a cover given as bytes. *)
Definition demo_cover_book : EpubSaver :=
  default (new_EpubSaver demo_uuid)
    (setInfo demo_world (new_EpubSaver demo_uuid) "cover" (VBytes [xff; xd8; xff])).

(** ** A second world, with images in the fragments

    Every fragment parsed in this world begins with one image element.
    Besides the URLs of the first world, an image answers over HTTPS, and a
    font answers under a URL without a dot. *)

Definition demo_fetch2 (url : string) : option Response :=
  if String.eqb url "fonts/a" then
    Some {| resp_ok := true; resp_status := 200;
            resp_contentType := Some "font/woff2"; resp_body := [x77; x4f] |}
  else if String.eqb url "https://host/a.png" then
    Some {| resp_ok := true; resp_status := 200;
            resp_contentType := Some "image/png"; resp_body := [x89; x50] |}
  else demo_fetch url.

Definition demo_image_world : World := {|
  fetch := demo_fetch2;
  secureContext := false;
  parseFromString := λ s, [NImg (Some "http://host/a.png"); NMarkup s];
  serializeToString := demo_serialize;
  cssUrlCaptures := λ _, [];
  replaceAllLiteral := λ _ _ s, s;
|}.

(** The same world, seen from a page loaded over HTTPS. *)
Definition demo_secure_world : World := {|
  fetch := demo_fetch2;
  secureContext := true;
  parseFromString := parseFromString demo_image_world;
  serializeToString := demo_serialize;
  cssUrlCaptures := λ _, [];
  replaceAllLiteral := λ _ _ s, s;
|}.

(** A book with one chapter, whose fragment holds one image. *)
Definition demo_image_calls : list Call :=
  [ CallAddVolume "V" 1;
    CallAddChapter 0 1 "<p>x</p>" "T" "html" true true [] ].

Definition demo_image_book : EpubSaver :=
  default (new_EpubSaver demo_uuid)
    (run demo_image_world (new_EpubSaver demo_uuid) demo_image_calls).

(** Calls made after a volume was added: one more volume, with a smaller
    index, and [save], which sorts the two. *)
Definition demo_later_calls : list Call :=
  [ CallAddVolume "W" 0; CallSave demo_now ].

Definition demo_sorted_book : EpubSaver :=
  default (new_EpubSaver demo_uuid)
    (run demo_world (addVolume (new_EpubSaver demo_uuid) "V" 1).2 demo_later_calls).




(** A cover, a [save], and then another cover. *)
Definition demo_recover_calls : list Call :=
  [ CallSetInfo "cover" (VBytes [x01]);
    CallSave demo_now;
    CallSetInfo "cover" (VBytes [x02]) ].

Definition demo_recovered_book : EpubSaver :=
  default (new_EpubSaver demo_uuid)
    (run demo_world (new_EpubSaver demo_uuid) demo_recover_calls).

(** ** Properties of the insertion-ordered map *)

Module JsMapFacts.
Section facts.
Context {V : Type}.
Implicit Types (m : JsMap.t V) (k : string) (v : V).
Import JsMap.

Lemma has_keys m k : has m k = true ↔ In k (keys m).
Proof.
  unfold has. induction m as [|[k' v] m IH]; simpl.
  - split; [discriminate | tauto].
  - destruct (String.eqb_spec k' k) as [->|Hne].
    + tauto.
    + rewrite IH. split; [tauto | intros [?|?]; [congruence | done]].
Qed.

Lemma has_false_keys m k : has m k = false ↔ ¬ In k (keys m).
Proof.
  rewrite <- has_keys. destruct (has m k); [|by split].
  split; [done | intros H; by destruct H].
Qed.

Lemma get_set_eq m k v : get (set m k v) k = Some v.
Proof.
  induction m as [|[k' v'] m IH]; simpl.
  - by rewrite String.eqb_refl.
  - destruct (String.eqb_spec k' k) as [->|Hne]; simpl.
    + by rewrite String.eqb_refl.
    + by destruct (String.eqb_spec k' k).
Qed.

Lemma get_set_ne m k k' v : k ≠ k' → get (set m k v) k' = get m k'.
Proof.
  intros Hne. induction m as [|[k0 v0] m IH]; simpl.
  - by destruct (String.eqb_spec k k').
  - destruct (String.eqb_spec k0 k) as [->|Hne0]; simpl.
    + by destruct (String.eqb_spec k k').
    + by rewrite IH.
Qed.

Lemma set_fresh m k v : has m k = false → set m k v = m ++ [(k, v)].
Proof.
  unfold has. induction m as [|[k' v'] m IH]; simpl; [done|].
  destruct (String.eqb_spec k' k); [done|].
  intros H. by rewrite IH.
Qed.

Lemma keys_set_fresh m k v : has m k = false → keys (set m k v) = keys m ++ [k].
Proof. intros H. rewrite set_fresh by done. unfold keys. by rewrite map_app. Qed.

Lemma has_set_same m k v : has (set m k v) k = true.
Proof. unfold has. by rewrite get_set_eq. Qed.

Lemma has_set_mono m k v k' : has m k' = true → has (set m k v) k' = true.
Proof.
  unfold has. destruct (String.eqb_spec k k') as [->|Hne].
  - by rewrite get_set_eq.
  - by rewrite get_set_ne.
Qed.

Lemma Forall_set (P : string * V → Prop) m k v :
  Forall P m → P (k, v) → Forall P (set m k v).
Proof.
  intros Hm Hk. induction Hm as [|[k' v'] m Hx Hm IH]; simpl.
  - by constructor.
  - destruct (String.eqb k' k); by constructor.
Qed.

Lemma set_cons_ne m k0 v0 k v :
  k ≠ k0 → set ((k0, v0) :: m) k v = (k0, v0) :: set m k v.
Proof. intros Hne. simpl. by destruct (String.eqb_spec k0 k). Qed.

End facts.
End JsMapFacts.

(** ** Properties of the resource table *)

Lemma get_addResource e p b q :
  JsMap.get (resources (_addResource e p b)) q =
  match JsMap.get (resources e) q with
  | Some x => Some x
  | None => if String.eqb p q then Some b else None
  end.
Proof.
  unfold _addResource, JsMap.has.
  destruct (JsMap.get (resources e) p) as [x|] eqn:Hp; simpl.
  - destruct (JsMap.get (resources e) q) eqn:Hq; [done|].
    destruct (String.eqb_spec p q) as [->|]; [congruence | done].
  - destruct (String.eqb_spec p q) as [->|Hne].
    + by rewrite JsMapFacts.get_set_eq, Hp.
    + rewrite JsMapFacts.get_set_ne by done. by destruct (JsMap.get (resources e) q).
Qed.

Lemma has_addResource_same e p b : JsMap.has (resources (_addResource e p b)) p = true.
Proof.
  unfold JsMap.has. rewrite get_addResource, String.eqb_refl.
  by destruct (JsMap.get (resources e) p).
Qed.

Lemma has_addResource_mono e p b q :
  JsMap.has (resources e) q = true → JsMap.has (resources (_addResource e p b)) q = true.
Proof.
  unfold JsMap.has. rewrite get_addResource.
  by destruct (JsMap.get (resources e) q).
Qed.

Lemma addResource_present e p b :
  JsMap.has (resources e) p = true → _addResource e p b = e.
Proof. unfold _addResource. by intros ->. Qed.

Lemma addResource_twice e p b b' :
  _addResource (_addResource e p b) p b' = _addResource e p b.
Proof. apply addResource_present, has_addResource_same. Qed.

Lemma NoDup_keys_addResource e p b :
  NoDup (JsMap.keys (resources e)) → NoDup (JsMap.keys (resources (_addResource e p b))).
Proof.
  intros Hnd. unfold _addResource.
  destruct (JsMap.has (resources e) p) eqn:Hp; simpl; [done|].
  rewrite JsMapFacts.keys_set_fresh by done.
  apply NoDup_app. split_and!; [done | | apply NoDup_singleton].
  intros k Hk ->%list_elem_of_singleton.
  apply JsMapFacts.has_false_keys in Hp. apply Hp. by apply list_elem_of_In.
Qed.

Lemma register_all_app e r1 r2 :
  register_all e (r1 ++ r2) = register_all (register_all e r1) r2.
Proof. apply foldl_app. Qed.

Lemma get_register_all regs : ∀ e q,
  JsMap.get (resources (register_all e regs)) q =
  match JsMap.get (resources e) q with
  | Some x => Some x
  | None => first_registration regs q
  end.
Proof.
  induction regs as [|[p b] regs IH]; intros e q; simpl.
  - by destruct (JsMap.get (resources e) q).
  - rewrite IH, get_addResource. unfold first_registration. simpl.
    destruct (JsMap.get (resources e) q); [done|].
    by destruct (String.eqb p q).
Qed.

Lemma NoDup_keys_register_all regs : ∀ e,
  NoDup (JsMap.keys (resources e)) →
  NoDup (JsMap.keys (resources (register_all e regs))).
Proof.
  induction regs as [|[p b] regs IH]; intros e Hnd; simpl; [done|].
  by apply IH, NoDup_keys_addResource.
Qed.

Lemma has_register_all_mono regs : ∀ e q,
  JsMap.has (resources e) q = true →
  JsMap.has (resources (register_all e regs)) q = true.
Proof.
  induction regs as [|[p b] regs IH]; intros e q H; simpl; [done|].
  by apply IH, has_addResource_mono.
Qed.

(** C2. Whatever the sequence of registrations on a new document, the
    resource table holds each path once, the bytes under a path are those of
    the first registration of that path, and a later registration of a path
    already registered changes nothing: neither when it directly follows,
    nor anywhere later in the sequence. *)
Theorem C2_first_registration_wins (uuid : string) (regs : list (string * bytes)) :
  let e := register_all (new_EpubSaver uuid) regs in
  NoDup (JsMap.keys (resources e))
  ∧ (∀ path, JsMap.get (resources e) path = first_registration regs path)
  ∧ (∀ path b, _addResource (_addResource e path b) path b = _addResource e path b
               ∧ ∀ b', _addResource (_addResource e path b) path b' = _addResource e path b)
  ∧ (∀ r1 path b r2 b' r3,
       register_all e (r1 ++ (path, b) :: r2 ++ (path, b') :: r3)
       = register_all e (r1 ++ (path, b) :: r2 ++ r3)).
Proof.
  intros e. split_and!.
  - apply NoDup_keys_register_all. simpl. constructor.
  - intros path. unfold e. by rewrite get_register_all.
  - intros path b. split; [|intros b']; apply addResource_twice.
  - intros r1 path b r2 b' r3.
    rewrite !register_all_app. simpl. rewrite !register_all_app. simpl.
    f_equal. apply addResource_present, has_register_all_mono, has_addResource_same.
Qed.

(** ** Properties of the templates *)

Lemma attr_values_app name d1 d2 :
  attr_values name (d1 ++ d2) = attr_values name d1 ++ attr_values name d2.
Proof. apply flat_map_app. Qed.

Lemma text_values_app d1 d2 : text_values (d1 ++ d2) = text_values d1 ++ text_values d2.
Proof. apply flat_map_app. Qed.

Lemma attr_values_join_pieces name sep (l : list (list Piece)) :
  attr_values name (join_pieces sep l) = flat_map (attr_values name) l.
Proof.
  induction l as [|x [|y l] IH]; simpl in *.
  - done.
  - by rewrite app_nil_r.
  - rewrite attr_values_app. simpl. by rewrite IH.
Qed.

(** ** The style-sheet links of a chapter *)









(** ** The extension of an image file *)


Lemma or_else_truthy a b : truthy a = true → or_else a b = a.
Proof. unfold or_else. by intros ->. Qed.






(** ** The archive *)

Lemma zip_file_after_mimetype rest name data :
  name ≠ "mimetype" →
  zip_file (mimetype_entry :: rest) name data None
  = mimetype_entry :: zip_file rest name data None.
Proof. intros Hne. unfold zip_file, mimetype_entry. by rewrite JsMapFacts.set_cons_ne. Qed.

Lemma plain_zip_file rest name data :
  name ≠ "mimetype" → Forall plain_file rest →
  Forall plain_file (zip_file rest name data None).
Proof. intros Hne Hrest. by apply JsMapFacts.Forall_set. Qed.

Lemma OEBPS_not_mimetype path : "OEBPS/" +:+ path ≠ "mimetype".
Proof. done. Qed.

Lemma zip_resources_after_mimetype (rs : JsMap.t bytes) : ∀ rest,
  foldl (λ zip r, zip_file zip ("OEBPS/" +:+ r.1) r.2 None) (mimetype_entry :: rest) rs
  = mimetype_entry :: foldl (λ zip r, zip_file zip ("OEBPS/" +:+ r.1) r.2 None) rest rs.
Proof.
  induction rs as [|r rs IH]; intros rest; simpl; [done|].
  rewrite zip_file_after_mimetype by apply OEBPS_not_mimetype. apply IH.
Qed.

Lemma plain_zip_resources (rs : JsMap.t bytes) : ∀ rest,
  Forall plain_file rest →
  Forall plain_file (foldl (λ zip r, zip_file zip ("OEBPS/" +:+ r.1) r.2 None) rest rs).
Proof.
  induction rs as [|r rs IH]; intros rest Hrest; simpl; [done|].
  apply IH, plain_zip_file; [apply OEBPS_not_mimetype | done].
Qed.

Lemma has_zip_resources_mono (rs : JsMap.t bytes) : ∀ rest name,
  JsMap.has rest name = true →
  JsMap.has (foldl (λ zip r, zip_file zip ("OEBPS/" +:+ r.1) r.2 None) rest rs) name = true.
Proof.
  induction rs as [|r rs IH]; intros rest name H; simpl; [done|].
  by apply IH, JsMapFacts.has_set_mono.
Qed.

Lemma has_zip_resources (rs : JsMap.t bytes) : ∀ rest,
  Forall (λ r, JsMap.has
                 (foldl (λ zip r, zip_file zip ("OEBPS/" +:+ r.1) r.2 None) rest rs)
                 ("OEBPS/" +:+ r.1) = true) rs.
Proof.
  induction rs as [|r rs IH]; intros rest; simpl; constructor.
  - apply has_zip_resources_mono, JsMapFacts.has_set_same.
  - apply IH.
Qed.

(** C9. Whatever the document, the files [save] hands to the archiving
    library start with [mimetype], which holds the fixed MIME-type string
    and is the only file given the method STORE; every other file, among
    them the container locator, the package document, the navigation map,
    each resource of the table and the navigation document, has no method
    of its own and so takes DEFLATE, the method given for the archive. *)
Theorem C9_mimetype_first_stored (now : string) (e : EpubSaver) :
  let a := (save now e).1 in
  ∃ rest,
    arc_files a
    = ("mimetype", {| zf_data := encode MIMETYPE; zf_compression := Some STORE |}) :: rest
    ∧ arc_compression a = DEFLATE
    ∧ Forall (λ f, f.1 ≠ "mimetype" ∧ zf_compression f.2 = None
                   ∧ effective_compression a f.2 = DEFLATE) rest
    ∧ Forall (λ name, JsMap.has rest name = true)
        ([ "META-INF/container.xml"; "OEBPS/content.opf"; "OEBPS/toc.ncx";
           "OEBPS/nav.xhtml" ]
         ++ map (λ r, "OEBPS/" +:+ r.1) (resources (save now e).2)).
Proof.
  unfold save. generalize (generate now e). intros g.
  cbv zeta. cbn [fst snd arc_files arc_compression].
  change (zip_file JsMap.empty "mimetype" (encode MIMETYPE) (Some STORE))
    with [mimetype_entry].
  rewrite !zip_file_after_mimetype by done.
  rewrite zip_resources_after_mimetype.
  rewrite zip_file_after_mimetype by done.
  eexists. split; [reflexivity|]. split; [done|]. split.
  - eapply Forall_impl.
    + apply plain_zip_file; [done|].
      apply plain_zip_resources.
      repeat (apply plain_zip_file; [done|]). constructor.
    + intros f [Hname Hc]. split_and!; [done..|].
      unfold effective_compression. by rewrite Hc.
  - rewrite Forall_app. split.
    { repeat constructor;
        first [ apply JsMapFacts.has_set_same
              | apply JsMapFacts.has_set_mono, has_zip_resources_mono;
                repeat first [ apply JsMapFacts.has_set_same
                             | apply JsMapFacts.has_set_mono ] ]. }
    rewrite Forall_map. eapply Forall_impl; [apply has_zip_resources|].
    intros r Hr. apply JsMapFacts.has_set_mono, Hr.
Qed.

(** ** The cover *)

Lemma join_pieces_In sep (x : list Piece) (l : list (list Piece)) :
  In x l → ∃ pre post, join_pieces sep l = pre ++ x ++ post.
Proof.
  induction l as [|y [|z l] IH]; simpl.
  - done.
  - intros [->|[]]. exists [], []. by rewrite app_nil_r.
  - intros [->|Hin].
    + by exists [], (Lit sep :: join_pieces sep (z :: l)).
    + destruct (IH Hin) as (pre & post & Heq).
      exists (y ++ Lit sep :: pre), post.
      simpl in Heq. rewrite Heq. by rewrite <- app_assoc.
Qed.

Lemma info_cover_with_resources e r : info_cover (with_resources e r) = info_cover e.
Proof. done. Qed.

Lemma info_cover_addResource e p b : info_cover (_addResource e p b) = info_cover e.
Proof. unfold _addResource. by destruct (negb _). Qed.

Lemma info_cover_register_cover e : info_cover (register_cover e) = info_cover e.
Proof.
  unfold register_cover. destruct (info_cover e) eqn:H; [|done].
  by rewrite !info_cover_addResource.
Qed.

Lemma setInfo_cover w e value :
  setInfo w e "cover" value
  = match value with
    | VStr url =>
        match fetch w url with
        | Some response =>
            Some (with_info e (<["cover" := VBytes (resp_body response)]> (info e)))
        | None => None
        end
    | VBytes b => Some (with_info e (<["cover" := VBytes b]> (info e)))
    end.
Proof. unfold setInfo. destruct value; [|done]. by destruct (fetch w s). Qed.

Lemma info_cover_set e b :
  info_cover (with_info e (<["cover" := VBytes b]> (info e))) = Some b.
Proof.
  unfold info_cover.
  change (info (with_info e (<["cover" := VBytes b]> (info e))))
    with (<["cover" := VBytes b]> (info e)).
  by rewrite lookup_insert_eq.
Qed.

Lemma manifest_cover_href_type e item :
  In item (opf_manifest e) →
  attr_values "href" item = ["images/cover.jpg"] →
  attr_values "media-type" item = ["image/jpeg"].
Proof.
  unfold opf_manifest. rewrite !in_app_iff. intros [Hfix|[Hcov|Hres]].
  - destruct Hfix as [<-|[<-|[]]]; discriminate.
  - destruct (info_cover e); [|done].
    destruct Hcov as [<-|[<-|[]]]; [done | discriminate].
  - apply in_map_iff in Hres as ([p b] & <- & _). simpl.
    by intros [= ->].
Qed.

(** A cover given as bytes is kept as given, a cover given as a URL is
    replaced by the body of the response, whatever its status and content
    type.  Whenever a cover is set, generating the package document
    registers the cover bytes under [images/cover.jpg] (so that the path is
    in the table, with the cover bytes unless the path was taken before),
    the manifest has the item [cover-image] with that path and the media
    type [image/jpeg], and every manifest item with that path has that
    media type. *)
Lemma cover_registered (w : World) (now : string) :
  (∀ e value e1,
     setInfo w e "cover" value = Some e1 →
     ∃ cover,
       info_cover e1 = Some cover
       ∧ match value with
         | VBytes b => cover = b
         | VStr url => ∃ response, fetch w url = Some response ∧ cover = resp_body response
         end)
  ∧ (∀ e cover,
       info_cover e = Some cover →
       let r := generateOpf now e in
       resources r.2
       = resources (_addResource (_addResource e "images/cover.jpg" cover)
                                 "cover.xhtml" (encode (render cover_xhtml)))
       ∧ JsMap.has (resources r.2) "images/cover.jpg" = true
       ∧ JsMap.get (resources r.2) "images/cover.jpg"
         = Some (default cover (JsMap.get (resources e) "images/cover.jpg"))
       ∧ (∃ pre post,
            r.1 = pre ++ manifest_item "cover-image" "images/cover.jpg" "image/jpeg"
                           (Some "cover-image") ++ post)
       ∧ (∀ item, In item (opf_manifest (register_cover e)) →
                  attr_values "href" item = ["images/cover.jpg"] →
                  attr_values "media-type" item = ["image/jpeg"])).
Proof.
  split.
  - intros e value e1. rewrite setInfo_cover.
    destruct value as [url|b].
    + destruct (fetch w url) as [response|] eqn:Hf; [|done].
      intros [= <-]. exists (resp_body response). split; [|by eauto].
      apply info_cover_set.
    + intros [= <-]. exists b. split; [|done].
      apply info_cover_set.
  - intros e cover Hc r.
    assert (Hreg : register_cover e
                   = _addResource (_addResource e "images/cover.jpg" cover)
                       "cover.xhtml" (encode (render cover_xhtml))).
    { unfold register_cover. by rewrite Hc. }
    assert (Hres : resources r.2 = resources (register_cover e)) by done.
    split_and!.
    + by rewrite Hres, Hreg.
    + rewrite Hres, Hreg. apply has_addResource_mono, has_addResource_same.
    + rewrite Hres, Hreg, !get_addResource. simpl.
      by destruct (JsMap.get (resources e) "images/cover.jpg").
    + assert (Hin : In (manifest_item "cover-image" "images/cover.jpg" "image/jpeg"
                          (Some "cover-image")) (opf_manifest (register_cover e))).
      { unfold opf_manifest. rewrite info_cover_register_cover, Hc.
        rewrite !in_app_iff. right. left. by left. }
      destruct (join_pieces_In (nl +:+ "    ") _ _ Hin) as (pre & post & Heq).
      unfold r, generateOpf. cbv zeta. cbn [fst]. rewrite Heq.
      match goal with
      | |- ∃ _ _, ?a ++ ?b ++ ?c ++ ?d ++ (pre ++ _ ++ post) ++ ?rest = _ =>
          exists (a ++ b ++ c ++ d ++ pre), (post ++ rest)
      end.
      by rewrite <- !app_assoc.
    + apply manifest_cover_href_type.
Qed.

(** ** Sorting by index *)

Section sort_facts.
Context {A : Type} (key : A → Z).

Lemma insert_by_Permutation x l : insert_by key x l ≡ₚ x :: l.
Proof.
  induction l as [|y l IH]; simpl; [done|].
  destruct (key x <=? key y); [done|].
  rewrite IH. apply perm_swap.
Qed.

Lemma sort_by_Permutation l : sort_by key l ≡ₚ l.
Proof.
  induction l as [|x l IH]; simpl; [done|].
  by rewrite insert_by_Permutation, IH.
Qed.

Lemma insert_by_StronglySorted x l :
  StronglySorted (key_le key) l → StronglySorted (key_le key) (insert_by key x l).
Proof.
  induction 1 as [|y l Hl IH Hy]; simpl.
  - by repeat constructor.
  - destruct (Z.leb_spec (key x) (key y)) as [Hle|Hgt].
    + constructor; [by constructor|].
      constructor; [done|].
      eapply Forall_impl; [exact Hy|]. unfold key_le. intros z Hz. lia.
    + constructor; [done|].
      rewrite insert_by_Permutation. constructor; [|done]. unfold key_le. lia.
Qed.

Lemma sort_by_StronglySorted l : StronglySorted (key_le key) (sort_by key l).
Proof.
  induction l as [|x l IH]; simpl; [constructor|].
  by apply insert_by_StronglySorted.
Qed.

Lemma sort_by_sorted l : StronglySorted (key_le key) l → sort_by key l = l.
Proof.
  induction 1 as [|x l Hl IH Hx]; simpl; [done|].
  rewrite IH. destruct Hx as [|y l Hxy _]; simpl; [done|].
  unfold key_le in Hxy. by destruct (Z.leb_spec (key x) (key y)); [|lia].
Qed.

Lemma sort_by_idemp l : sort_by key (sort_by key l) = sort_by key l.
Proof. apply sort_by_sorted, sort_by_StronglySorted. Qed.

Lemma insert_by_map (f : A → A) x l :
  (∀ a, key (f a) = key a) →
  insert_by key (f x) (map f l) = map f (insert_by key x l).
Proof.
  intros Hf. induction l as [|y l IH]; simpl; [done|].
  rewrite !Hf. destruct (key x <=? key y); simpl; [done|]. by rewrite IH.
Qed.

Lemma sort_by_map (f : A → A) l :
  (∀ a, key (f a) = key a) → sort_by key (map f l) = map f (sort_by key l).
Proof.
  intros Hf. induction l as [|x l IH]; simpl; [done|].
  by rewrite IH, insert_by_map.
Qed.

End sort_facts.

Lemma sort_chapters_idemp v : sort_chapters (sort_chapters v) = sort_chapters v.
Proof. unfold sort_chapters. simpl. by rewrite sort_by_idemp. Qed.

Lemma sort_catalog_sorted_volumes vs :
  sort_by vol_idx (sort_catalog vs) = sort_catalog vs.
Proof.
  unfold sort_catalog. rewrite sort_by_map by done. by rewrite sort_by_idemp.
Qed.

Lemma sort_catalog_idemp vs : sort_catalog (sort_catalog vs) = sort_catalog vs.
Proof.
  unfold sort_catalog at 1. rewrite sort_catalog_sorted_volumes.
  unfold sort_catalog. rewrite map_map.
  apply map_ext. intros v. apply sort_chapters_idemp.
Qed.

Lemma sort_catalog_chapters_sorted vs v :
  In v (sort_catalog vs) → sort_by chap_idx (vol_chapters v) = vol_chapters v.
Proof.
  unfold sort_catalog. rewrite in_map_iff. intros (v0 & <- & _).
  simpl. apply sort_by_idemp.
Qed.

Lemma sort_catalog_StronglySorted vs :
  StronglySorted (key_le vol_idx) (sort_catalog vs)
  ∧ Forall (λ v, StronglySorted (key_le chap_idx) (vol_chapters v)) (sort_catalog vs).
Proof.
  unfold sort_catalog. split.
  - generalize (sort_by_StronglySorted vol_idx vs).
    induction 1 as [|x l Hl IH Hx]; simpl; constructor; [done|].
    rewrite Forall_map. eapply Forall_impl; [exact Hx|]. done.
  - rewrite Forall_map. apply Forall_forall. intros v _. simpl.
    apply sort_by_StronglySorted.
Qed.

(** ** What the generated documents list *)

(** Evaluate [attr_values] and [text_values] on the literal parts of a
    template. *)
Lemma attr_values_cons name p d :
  attr_values name (p :: d) = attr_values name [p] ++ attr_values name d.
Proof. unfold attr_values. simpl. by rewrite app_nil_r. Qed.

Lemma text_values_cons p d : text_values (p :: d) = text_values [p] ++ text_values d.
Proof. unfold text_values. simpl. by rewrite app_nil_r. Qed.

Lemma attr_values_Lit name s : attr_values name [Lit s] = [].
Proof. done. Qed.

Lemma attr_values_Text name s : attr_values name [Text s] = [].
Proof. done. Qed.

Lemma attr_values_Html name s : attr_values name [Html s] = [].
Proof. done. Qed.

Lemma attr_values_Attr name n v :
  attr_values name [Attr n v] = if String.eqb n name then [v] else [].
Proof. unfold attr_values. simpl. by rewrite app_nil_r. Qed.

Lemma text_values_Lit s : text_values [Lit s] = [].
Proof. done. Qed.

Lemma text_values_Attr n v : text_values [Attr n v] = [].
Proof. done. Qed.

Lemma text_values_Html s : text_values [Html s] = [].
Proof. done. Qed.

Lemma text_values_Text s : text_values [Text s] = [s].
Proof. done. Qed.

Lemma attr_values_nil name : attr_values name [] = [].
Proof. done. Qed.

Lemma text_values_nil : text_values [] = [].
Proof. done. Qed.

Ltac template_values :=
  unfold xml_decl, ncx_meta;
  repeat first
    [ rewrite attr_values_app | rewrite text_values_app
    | rewrite attr_values_join_pieces
    | rewrite attr_values_nil | rewrite text_values_nil
    | rewrite attr_values_Lit | rewrite attr_values_Text | rewrite attr_values_Html
    | rewrite attr_values_Attr
    | rewrite text_values_Lit | rewrite text_values_Attr | rewrite text_values_Html
    | rewrite text_values_Text
    | match goal with
      | |- context [attr_values ?n (?p :: ?d)] =>
          lazymatch d with [] => fail | _ => rewrite (attr_values_cons n p d) end
      | |- context [text_values (?p :: ?d)] =>
          lazymatch d with [] => fail | _ => rewrite (text_values_cons p d) end
      end ];
  cbn [app String.eqb Ascii.eqb Bool.eqb andb fst snd].

Lemma text_values_join_pieces sep (l : list (list Piece)) :
  text_values (join_pieces sep l) = flat_map text_values l.
Proof.
  induction l as [|x [|y l] IH]; simpl in *.
  - done.
  - by rewrite app_nil_r.
  - rewrite text_values_app. simpl. by rewrite IH.
Qed.

(** The files and the titles a volume stands for in the navigation map and
    in the navigation document, once its chapters are sorted. *)
Lemma ncx_chapterPoints_src chaps : ∀ playOrder,
  attr_values "src" (ncx_chapterPoints playOrder chaps).1 = map chap_filename chaps.
Proof.
  induction chaps as [|c chaps IH]; intros playOrder; simpl; [done|].
  specialize (IH (S playOrder)).
  destruct (ncx_chapterPoints (S playOrder) chaps) as [ps po]. simpl in *.
  by rewrite IH.
Qed.

Lemma ncx_chapterPoints_text chaps : ∀ playOrder,
  text_values (ncx_chapterPoints playOrder chaps).1 = map chap_title chaps.
Proof.
  induction chaps as [|c chaps IH]; intros playOrder; simpl; [done|].
  specialize (IH (S playOrder)).
  destruct (ncx_chapterPoints (S playOrder) chaps) as [ps po]. simpl in *.
  by rewrite IH.
Qed.

Lemma ncx_navPoints_src vols : ∀ playOrder,
  attr_values "src" (ncx_navPoints playOrder vols).1
  = flat_map (λ v, ncx_volume_src v
                   :: map chap_filename (sort_by chap_idx (vol_chapters v))) vols.
Proof.
  induction vols as [|v vols IH]; intros playOrder; [done|].
  cbn [ncx_navPoints flat_map].
  pose proof (ncx_chapterPoints_src (sort_by chap_idx (vol_chapters v)) (S playOrder)) as Hc.
  destruct (ncx_chapterPoints _ _) as [cps po1]. simpl in Hc.
  specialize (IH po1). destruct (ncx_navPoints po1 vols) as [ps po2]. simpl in IH.
  cbn [fst]. unfold ncx_volumePoint. template_values.
  by rewrite Hc, IH.
Qed.

Lemma ncx_navPoints_text vols : ∀ playOrder,
  text_values (ncx_navPoints playOrder vols).1
  = flat_map (λ v, vol_title v
                   :: map chap_title (sort_by chap_idx (vol_chapters v))) vols.
Proof.
  induction vols as [|v vols IH]; intros playOrder; [done|].
  cbn [ncx_navPoints flat_map].
  pose proof (ncx_chapterPoints_text (sort_by chap_idx (vol_chapters v)) (S playOrder)) as Hc.
  destruct (ncx_chapterPoints _ _) as [cps po1]. simpl in Hc.
  specialize (IH po1). destruct (ncx_navPoints po1 vols) as [ps po2]. simpl in IH.
  cbn [fst]. unfold ncx_volumePoint. template_values.
  by rewrite Hc, IH.
Qed.

Lemma generateNcx_src e :
  attr_values "src" (generateNcx e).1
  = flat_map (λ v, ncx_volume_src v
                   :: map chap_filename (sort_by chap_idx (vol_chapters v)))
             (sort_by vol_idx (volumes e)).
Proof.
  unfold generateNcx. cbn [fst]. template_values.
  by rewrite ncx_navPoints_src, app_nil_r.
Qed.

Lemma generateNcx_text e :
  text_values (generateNcx e).1
  = info_or e "bookname" "Untitled"
    :: flat_map (λ v, vol_title v
                      :: map chap_title (sort_by chap_idx (vol_chapters v)))
                (sort_by vol_idx (volumes e)).
Proof.
  unfold generateNcx. cbn [fst]. template_values.
  by rewrite ncx_navPoints_text, app_nil_r.
Qed.

Lemma nav_chapters_href chaps :
  attr_values "href" (flat_map nav_chapter chaps) = map chap_filename chaps.
Proof. induction chaps as [|c chaps IH]; simpl; [done|]. by rewrite <- IH. Qed.

Lemma nav_chapters_text chaps :
  text_values (flat_map nav_chapter chaps) = map chap_title chaps.
Proof. induction chaps as [|c chaps IH]; simpl; [done|]. by rewrite <- IH. Qed.

Lemma nav_volumes_href vols :
  attr_values "href" (flat_map nav_volume vols)
  = flat_map (λ v, nav_volume_href v
                   :: map chap_filename (sort_by chap_idx (vol_chapters v))) vols.
Proof.
  induction vols as [|v vols IH]; [done|].
  cbn [flat_map]. rewrite attr_values_app, IH. unfold nav_volume. template_values.
  by rewrite nav_chapters_href, app_nil_r.
Qed.

Lemma nav_volumes_text vols :
  text_values (flat_map nav_volume vols)
  = flat_map (λ v, vol_title v
                   :: map chap_title (sort_by chap_idx (vol_chapters v))) vols.
Proof.
  induction vols as [|v vols IH]; [done|].
  cbn [flat_map]. rewrite text_values_app, IH. unfold nav_volume. template_values.
  by rewrite nav_chapters_text, app_nil_r.
Qed.

Lemma generateNav_href e :
  attr_values "href" (generateNav e).1
  = flat_map (λ v, nav_volume_href v
                   :: map chap_filename (sort_by chap_idx (vol_chapters v)))
             (sort_by vol_idx (volumes e)).
Proof.
  unfold generateNav. cbn [fst]. template_values.
  by rewrite nav_volumes_href, app_nil_r.
Qed.

Lemma generateNav_text e :
  text_values (generateNav e).1
  = flat_map (λ v, vol_title v
                   :: map chap_title (sort_by chap_idx (vol_chapters v)))
             (sort_by vol_idx (volumes e)).
Proof.
  unfold generateNav. cbn [fst]. template_values.
  by rewrite nav_volumes_text, app_nil_r.
Qed.

Lemma volumes_addResource e p b : volumes (_addResource e p b) = volumes e.
Proof. unfold _addResource. by destruct (negb _). Qed.

Lemma volumes_register_cover e : volumes (register_cover e) = volumes e.
Proof.
  unfold register_cover. destruct (info_cover e); [|done].
  by rewrite !volumes_addResource.
Qed.

Lemma opf_metadata_attrs name now e :
  name = "href" ∨ name = "idref" →
  flat_map (attr_values name) (opf_metadata now e) = [].
Proof.
  intros Hname. unfold opf_metadata. rewrite flat_map_app. cbn [flat_map].
  destruct Hname as [-> | ->]; destruct (info_cover e); cbn [flat_map];
    template_values; done.
Qed.

Lemma manifest_resources_href (rs : JsMap.t bytes) :
  flat_map (attr_values "href")
    (map (λ r, manifest_item (sanitize_id r.1) r.1 (media_type r.1) None) rs)
  = JsMap.keys rs.
Proof.
  induction rs as [|r rs IH]; [done|].
  cbn [map flat_map JsMap.keys]. rewrite IH. unfold manifest_item.
  template_values. done.
Qed.

Lemma manifest_resources_idref (rs : JsMap.t bytes) :
  flat_map (attr_values "idref")
    (map (λ r, manifest_item (sanitize_id r.1) r.1 (media_type r.1) None) rs)
  = [].
Proof.
  induction rs as [|r rs IH]; [done|].
  cbn [map flat_map]. rewrite IH. unfold manifest_item.
  template_values. done.
Qed.

Lemma spine_chapters_idref (cs : list Chapter) :
  flat_map (attr_values "idref") (map (λ c, itemref (sanitize_id (chap_filename c))) cs)
  = map (λ c, sanitize_id (chap_filename c)) cs.
Proof. induction cs as [|c cs IH]; [done|]. cbn [map flat_map]. by rewrite IH. Qed.

Lemma spine_chapters_href (cs : list Chapter) :
  flat_map (attr_values "href") (map (λ c, itemref (sanitize_id (chap_filename c))) cs)
  = [].
Proof. induction cs as [|c cs IH]; [done|]. cbn [map flat_map]. by rewrite IH. Qed.

Lemma spine_volumes_idref (vs : list Volume) :
  flat_map (attr_values "idref")
    (flat_map (λ v, map (λ c, itemref (sanitize_id (chap_filename c)))
                        (sort_by chap_idx (vol_chapters v))) vs)
  = flat_map (λ v, map (λ c, sanitize_id (chap_filename c))
                       (sort_by chap_idx (vol_chapters v))) vs.
Proof.
  induction vs as [|v vs IH]; [done|].
  cbn [flat_map]. by rewrite flat_map_app, IH, spine_chapters_idref.
Qed.

Lemma spine_volumes_href (vs : list Volume) :
  flat_map (attr_values "href")
    (flat_map (λ v, map (λ c, itemref (sanitize_id (chap_filename c)))
                        (sort_by chap_idx (vol_chapters v))) vs)
  = [].
Proof.
  induction vs as [|v vs IH]; [done|].
  cbn [flat_map]. by rewrite flat_map_app, IH, spine_chapters_href.
Qed.

(** The [idref] attributes of the package document: the cover page, then
    the chapters. *)
Lemma generateOpf_idref now e :
  attr_values "idref" (generateOpf now e).1
  = match info_cover e with Some _ => ["cover"] | None => [] end
    ++ flat_map (λ v, map (λ c, sanitize_id (chap_filename c))
                          (sort_by chap_idx (vol_chapters v)))
                (sort_by vol_idx (volumes e)).
Proof.
  unfold generateOpf. cbv zeta. cbn [fst]. template_values.
  rewrite opf_metadata_attrs by auto.
  unfold opf_manifest, opf_spine, opf_guide.
  rewrite info_cover_register_cover, volumes_register_cover.
  rewrite !flat_map_app, manifest_resources_idref, spine_volumes_idref.
  destruct (info_cover e); cbn [flat_map]; unfold manifest_item, itemref;
    template_values; by rewrite ?app_nil_r.
Qed.

(** The [href] attributes of the package document: the two fixed items,
    the cover items, one item per resource, the guide. *)
Lemma generateOpf_href now e :
  attr_values "href" (generateOpf now e).1
  = [ "nav.xhtml"; "toc.ncx" ]
    ++ match info_cover e with Some _ => ["images/cover.jpg"; "cover.xhtml"] | None => [] end
    ++ JsMap.keys (resources (register_cover e))
    ++ match info_cover e with Some _ => ["cover.xhtml"] | None => [] end.
Proof.
  unfold generateOpf. cbv zeta. cbn [fst]. template_values.
  rewrite opf_metadata_attrs by auto.
  unfold opf_manifest, opf_spine, opf_guide.
  rewrite info_cover_register_cover, volumes_register_cover.
  rewrite !flat_map_app, manifest_resources_href, spine_volumes_href.
  destruct (info_cover e); cbn [flat_map]; unfold manifest_item, itemref;
    template_values; by rewrite ?app_nil_r.
Qed.

(** ** The order of volumes and chapters *)

Lemma generate_eq now e :
  generate now e
  = let r1 := generateOpf now e in
    let r2 := generateNcx r1.2 in
    let r3 := generateNav r2.2 in
    {| gen_opf := r1.1; gen_ncx := r2.1; gen_nav := r3.1; gen_state := r3.2 |}.
Proof. done. Qed.

Lemma volumes_generateOpf now e :
  volumes (generateOpf now e).2 = sort_catalog (volumes e).
Proof. unfold generateOpf. cbv zeta. cbn [snd]. by rewrite volumes_register_cover. Qed.

Lemma flat_map_ext_In {X Y} (f g : X → list Y) (l : list X) :
  (∀ x, In x l → f x = g x) → flat_map f l = flat_map g l.
Proof.
  induction l as [|x l IH]; intros H; simpl; [done|].
  rewrite H by (by left). rewrite IH; [done|]. intros y Hy. apply H. by right.
Qed.

Lemma flat_map_sorted_catalog {B} (F : Volume → list Chapter → list B) vs :
  flat_map (λ v, F v (sort_by chap_idx (vol_chapters v)))
           (sort_by vol_idx (sort_catalog vs))
  = flat_map (λ v, F v (vol_chapters v)) (sort_catalog vs).
Proof.
  rewrite sort_catalog_sorted_volumes.
  apply flat_map_ext_In. intros v Hv.
  by rewrite (sort_catalog_chapters_sorted vs v Hv).
Qed.

Lemma flat_map_sort_catalog {B} (F : list Chapter → list B) vs :
  flat_map (λ v, F (sort_by chap_idx (vol_chapters v))) (sort_by vol_idx vs)
  = flat_map (λ v, F (vol_chapters v)) (sort_catalog vs).
Proof.
  unfold sort_catalog.
  induction (sort_by vol_idx vs) as [|v l IH]; simpl; [done|]. by rewrite IH.
Qed.

Lemma info_generateOpf now e : info (generateOpf now e).2 = info e.
Proof.
  unfold generateOpf. cbv zeta. cbn [snd].
  change (info (with_volumes (register_cover e) _)) with (info (register_cover e)).
  unfold register_cover. destruct (info_cover e); [|done].
  unfold _addResource. by repeat destruct (negb _).
Qed.

(** The documents of one [save] list the catalog as the first generator
    has sorted it. *)
Lemma generate_lists now e :
  let g := generate now e in
  let vs := sort_catalog (volumes e) in
  volumes (gen_state g) = vs
  ∧ attr_values "idref" (gen_opf g) = cover_idref e ++ spine_ids vs
  ∧ attr_values "src" (gen_ncx g) = catalog_files ncx_volume_src vs
  ∧ text_values (gen_ncx g) = info_or e "bookname" "Untitled" :: catalog_titles vs
  ∧ attr_values "href" (gen_nav g) = catalog_files nav_volume_href vs
  ∧ text_values (gen_nav g) = catalog_titles vs.
Proof.
  intros g vs.
  pose proof (volumes_generateOpf now e) as Hv1.
  assert (Hv2 : volumes (generateNcx (generateOpf now e).2).2 = sort_catalog (volumes e)).
  { unfold generateNcx at 1. cbn [snd]. unfold with_volumes. cbn [volumes].
    by rewrite Hv1, sort_catalog_idemp. }
  unfold g, vs. rewrite generate_eq. cbv zeta.
  cbn [gen_state gen_opf gen_ncx gen_nav].
  split_and!.
  - unfold generateNav at 1. cbn [snd]. unfold with_volumes. cbn [volumes].
    by rewrite Hv2, sort_catalog_idemp.
  - rewrite generateOpf_idref. f_equal.
    apply (flat_map_sort_catalog (map (λ c, sanitize_id (chap_filename c)))).
  - rewrite generateNcx_src, Hv1.
    apply (flat_map_sorted_catalog (λ v cs, ncx_volume_src v :: map chap_filename cs)).
  - rewrite generateNcx_text, Hv1. f_equal.
    + unfold info_or. by rewrite info_generateOpf.
    + apply (flat_map_sorted_catalog (λ v cs, vol_title v :: map chap_title cs)).
  - rewrite generateNav_href, Hv2.
    apply (flat_map_sorted_catalog (λ v cs, nav_volume_href v :: map chap_filename cs)).
  - rewrite generateNav_text, Hv2.
    apply (flat_map_sorted_catalog (λ v cs, vol_title v :: map chap_title cs)).
Qed.

(** C8. Whatever the order in which volumes and chapters were added, the
    three documents list the catalog in one arrangement, which holds the
    same volumes and, in each volume, the same chapters, with the volumes
    in ascending order of their index and the chapters of each volume in
    ascending order of theirs: the spine of the package document names the
    chapters in that order, the navigation map and the navigation document
    name each volume and then its chapters in that order, by file and by
    title. *)
Theorem C8_listed_by_index (now : string) (e : EpubSaver) :
  let g := generate now e in
  ∃ vs,
    StronglySorted (key_le vol_idx) vs
    ∧ Forall (λ v, StronglySorted (key_le chap_idx) (vol_chapters v)) vs
    ∧ (∃ vs0, vs0 ≡ₚ volumes e
              ∧ vs = map sort_chapters vs0
              ∧ Forall (λ v0, vol_chapters (sort_chapters v0) ≡ₚ vol_chapters v0) vs0)
    ∧ volumes (gen_state g) = vs
    ∧ attr_values "idref" (gen_opf g) = cover_idref e ++ spine_ids vs
    ∧ attr_values "src" (gen_ncx g) = catalog_files ncx_volume_src vs
    ∧ text_values (gen_ncx g) = info_or e "bookname" "Untitled" :: catalog_titles vs
    ∧ attr_values "href" (gen_nav g) = catalog_files nav_volume_href vs
    ∧ text_values (gen_nav g) = catalog_titles vs.
Proof.
  intros g. exists (sort_catalog (volumes e)).
  destruct (generate_lists now e) as (Hv & Hidref & Hsrc & Htext & Hhref & Htext').
  split_and!; try done.
  - apply sort_catalog_StronglySorted.
  - apply sort_catalog_StronglySorted.
  - exists (sort_by vol_idx (volumes e)). split_and!.
    + apply sort_by_Permutation.
    + done.
    + apply Forall_forall. intros v _. simpl. apply sort_by_Permutation.
Qed.

(** ** Images that cannot be fetched *)

Lemma resourceUrls_bump_image e : resourceUrls (bump_image e) = resourceUrls e.
Proof. done. Qed.

Lemma processImages_dom_resourceUrls w doc : ∀ e,
  resourceUrls (processImages_dom w e doc).2 = resourceUrls e.
Proof.
  induction doc as [|[s|src] doc IH]; intros e; simpl; [done| |].
  - specialize (IH e). by destruct (processImages_dom w e doc) as [[d rs] e'].
  - destruct (process_image w e src) as [| |u f b].
    + specialize (IH e). by destruct (processImages_dom w e doc) as [[d rs] e'].
    + apply IH.
    + specialize (IH (bump_image e)).
      by destruct (processImages_dom w (bump_image e) doc) as [[d rs] e'].
Qed.

(** The outcome for an image depends on the document only through the URL
    index and the image counter. *)
Lemma process_image_Removed w e url :
  truthy url = true → resourceUrls e !! url = None →
  startsWith url "http" = false ∨ fetch_fails w (upgrade_url w url) →
  process_image w e (Some url) = Removed.
Proof.
  intros Ht Hu Hfail. unfold process_image. rewrite Ht, Hu. simpl.
  destruct (startsWith url "http") eqn:Hs; simpl; [|done].
  destruct Hfail as [|Hfail]; [done|]. unfold fetch_fails in Hfail.
  destruct (fetch w (upgrade_url w url)) as [r|]; [|done]. by rewrite Hfail.
Qed.

Lemma processImages_dom_drop w pre url post : ∀ e,
  truthy url = true → resourceUrls e !! url = None →
  startsWith url "http" = false ∨ fetch_fails w (upgrade_url w url) →
  image_dropped w e pre url post.
Proof.
  unfold image_dropped.
  induction pre as [|[s|src] pre IH]; intros e Ht Hu Hfail;
    cbn [app processImages_dom].
  - by rewrite process_image_Removed.
  - by rewrite IH.
  - destruct (process_image w e src) as [| |u f b].
    + by rewrite IH.
    + by apply IH.
    + by rewrite IH.
Qed.

Lemma process_image_Stored w e src url filename data :
  process_image w e src = Stored url filename data →
  staged_from w (url, filename, data).
Proof.
  unfold process_image. destruct src as [src|]; [|done].
  destruct (negb (truthy src) || _); [done|].
  destruct (startsWith src "http") eqn:Hs; simpl; [|done].
  destruct (fetch w (upgrade_url w src)) as [response|] eqn:Hf; [|done].
  destruct (resp_ok response) eqn:Hok; simpl; [|done].
  intros [= <- <- <-]. by exists src, response.
Qed.

Lemma processImages_dom_staged w doc : ∀ e,
  Forall (staged_from w) (processImages_dom w e doc).1.2.
Proof.
  induction doc as [|[s|src] doc IH]; intros e; simpl; [done| |].
  - specialize (IH e). by destruct (processImages_dom w e doc) as [[d rs] e'].
  - destruct (process_image w e src) as [| |u f b] eqn:Hp.
    + specialize (IH e). by destruct (processImages_dom w e doc) as [[d rs] e'].
    + apply IH.
    + specialize (IH (bump_image e)).
      destruct (processImages_dom w (bump_image e) doc) as [[d rs] e']. simpl in *.
      constructor; [|done]. by eapply process_image_Stored.
Qed.

Lemma upgrade_url_http w src :
  startsWith src "http" = true → startsWith (upgrade_url w src) "http" = true.
Proof. intros H. unfold upgrade_url. by destruct (_ && _). Qed.

Lemma upgrade_url_secure w src :
  secureContext w = true → startsWith (upgrade_url w src) "http://" = false.
Proof.
  intros Hs. unfold upgrade_url. rewrite Hs, andb_true_r.
  by destruct (startsWith src "http://") eqn:H.
Qed.

Lemma staged_not_failed w r url :
  staged_from w r →
  startsWith url "http" = false ∨ fetch_fails w (upgrade_url w url) →
  r.1.1 ≠ url.
Proof.
  intros (src & response & Hup & Hsrc & Hf & Hok) [Hs|Hfail] Heq.
  - rewrite <- Heq, Hup, upgrade_url_http in Hs; done.
  - unfold fetch_fails, upgrade_url in Hfail.
    destruct (startsWith url "http://" && secureContext w) eqn:Hc.
    + apply andb_true_iff in Hc as [Hhttp Hsec].
      rewrite <- Heq, Hup, upgrade_url_secure in Hhttp; done.
    + rewrite <- Heq, Hf in Hfail. congruence.
Qed.

Lemma resourceUrls_addResource e p b : resourceUrls (_addResource e p b) = resourceUrls e.
Proof. unfold _addResource. by destruct (negb _). Qed.

Lemma registerResources_lookup_other url rs : ∀ e,
  Forall (λ r : Staged, r.1.1 ≠ url) rs →
  resourceUrls (registerResources e rs) !! url = resourceUrls e !! url.
Proof.
  induction rs as [|[[u p] b] rs IH]; intros e Hrs; [done|].
  apply Forall_cons in Hrs as [Hne Hrs]. simpl in Hne.
  unfold registerResources in *. cbn [foldl]. rewrite IH by done.
  rewrite resourceUrls_addResource.
  change (resourceUrls (with_resourceUrls e (<[u:=p]> (resourceUrls e))))
    with (<[u:=p]> (resourceUrls e)).
  by rewrite lookup_insert_ne.
Qed.

Lemma chapter_xhtml_eq w e content title contentType insertTitle useGlobalCSS cssList :
  chapter_xhtml w e content title contentType insertTitle useGlobalCSS cssList
  = let r := processImages_dom w e
               (parseFromString w
                  (wrapContent (extractContent content) title contentType insertTitle)) in
    (buildXhtml (registerResources r.2 r.1.2) (serializeToString w r.1.1) title
                useGlobalCSS cssList,
     registerResources r.2 r.1.2).
Proof.
  unfold chapter_xhtml, processImages. cbv zeta.
  by destruct (processImages_dom w e _) as [[d rs] e1].
Qed.

Lemma addChapter_is_Some w e ref idx content title contentType insertTitle
    useGlobalCSS cssList :
  is_Some (addChapter w e ref idx content title contentType insertTitle
             useGlobalCSS cssList)
  ↔ is_Some (find_volume e ref).
Proof.
  unfold addChapter. destruct (find_volume e ref) as [v|]; simpl.
  - destruct (chapter_xhtml _ _ _ _ _ _ _ _). split; by eauto.
  - done.
Qed.

(** C6, as the program has it. An image element whose [src] is not empty
    and not in the URL index, and either does not start with [http] or is
    fetched (after the upgrade to HTTPS, where that applies) without
    success, is dropped: the fragment is processed as if the element were
    not in it, so the other images are processed as they would be, nothing
    is staged for the URL, the URL index has no entry for it after the
    registration, the chapter document is built from the fragment without
    the element, and [addChapter] returns whenever its volume exists. *)
Theorem C6_failed_image_dropped (w : World) (e : EpubSaver) (pre : list Node)
    (url : string) (post : list Node) :
  truthy url = true →
  resourceUrls e !! url = None →
  startsWith url "http" = false ∨ fetch_fails w (upgrade_url w url) →
  image_dropped w e pre url post
  ∧ (let r := processImages_dom w e (pre ++ NImg (Some url) :: post) in
     Forall (λ s : Staged, s.1.1 ≠ url) r.1.2
     ∧ resourceUrls (registerResources r.2 r.1.2) !! url = None)
  ∧ (∀ ref idx content title contentType insertTitle useGlobalCSS cssList,
       parseFromString w
         (wrapContent (extractContent content) title contentType insertTitle)
       = pre ++ NImg (Some url) :: post →
       (let r := processImages_dom w e (pre ++ post) in
        chapter_xhtml w e content title contentType insertTitle useGlobalCSS cssList
        = (buildXhtml (registerResources r.2 r.1.2) (serializeToString w r.1.1) title
                      useGlobalCSS cssList,
           registerResources r.2 r.1.2))
       ∧ (is_Some (addChapter w e ref idx content title contentType insertTitle
                     useGlobalCSS cssList)
          ↔ is_Some (find_volume e ref))).
Proof.
  intros Ht Hu Hfail.
  pose proof (processImages_dom_drop w pre url post e Ht Hu Hfail) as Hdrop.
  split; [done|]. split; [cbv zeta; split|].
  - eapply Forall_impl; [apply processImages_dom_staged|].
    intros s Hs. by eapply staged_not_failed.
  - rewrite registerResources_lookup_other.
    + by rewrite processImages_dom_resourceUrls.
    + eapply Forall_impl; [apply processImages_dom_staged|].
      intros s Hs. by eapply staged_not_failed.
  - intros ref idx content title contentType insertTitle useGlobalCSS cssList Hparse.
    split; [|apply addChapter_is_Some].
    rewrite chapter_xhtml_eq, Hparse. cbv zeta. by rewrite Hdrop.
Qed.

Lemma C6_failed_image_dropped_witness :
  truthy "http://host/gone.png" = true
  ∧ fetch_fails demo_world (upgrade_url demo_world "http://host/gone.png")
  ∧ image_dropped demo_world (new_EpubSaver demo_uuid)
      [NMarkup "<p>"] "http://host/gone.png"
      [NImg (Some "http://host/a.png"); NMarkup "</p>"].
Proof.
  split; [reflexivity|]. split; [reflexivity|].
  apply (C6_failed_image_dropped demo_world (new_EpubSaver demo_uuid)
           [NMarkup "<p>"] "http://host/gone.png"
           [NImg (Some "http://host/a.png"); NMarkup "</p>"]).
  - reflexivity.
  - reflexivity.
  - right. reflexivity.
Defined.

(** C6, as it is worded, fails: an image element whose [src] is the empty
    string, which is not an absolute HTTP URL, stays in the fragment. *)
Lemma C6_removal_counterexample : ¬ removal_claim.
Proof.
  intros H.
  specialize (H demo_world (new_EpubSaver demo_uuid) [] EmptyString [] (or_introl eq_refl)).
  unfold image_dropped in H. simpl in H. discriminate.
Qed.

(** ** One URL in two image elements *)

(** C3, on the program. In one fragment that holds the same image twice,
    both elements are fetched and stored: two resources are registered, the
    two elements carry different paths, and the URL index keeps the second.
    In a later fragment the element is left as it is, with the external
    URL. *)
Theorem C3_same_url_stored_twice :
  let e0 := new_EpubSaver demo_uuid in
  let r := processImages_dom demo_world e0 same_image_twice in
  let e1 := registerResources r.2 r.1.2 in
  r.1.1 = [ NImg (Some "images/img0.png"); NMarkup "<br/>";
            NImg (Some "images/img1.png") ]
  ∧ JsMap.keys (resources e1) = [ "images/img0.png"; "images/img1.png" ]
  ∧ resourceUrls e1 !! "http://host/a.png" = Some "images/img1.png"
  ∧ (processImages_dom demo_world e1 [NImg (Some "http://host/a.png")]).1
    = ([NImg (Some "http://host/a.png")], []).
Proof. vm_compute. repeat split; reflexivity. Qed.

(** ** Titles in the generated documents *)

Lemma demo_book_run :
  run demo_world (new_EpubSaver demo_uuid) demo_calls = Some demo_book.
Proof. vm_compute. reflexivity. Qed.

(** C4, on the program. Of the documents that embed a title, the chapter
    document alone escapes it: the container document of a volume, the
    navigation map, the navigation document and the package document carry
    the title as it was given. *)
Theorem C4_titles_embedded_raw :
  let g := generate demo_now demo_book in
  escapeXml "A & B" = "A &amp; B"
  ∧ text_values (buildXhtml demo_book "<p>two</p>" "1 < 2" true []) = [ "1 &lt; 2" ]
  ∧ text_values (volume_container_doc "A & B") = [ "A & B"; "A & B" ]
  ∧ JsMap.get (resources demo_book) "volume_2.xhtml"
    = Some (encode (render (volume_container_doc "A & B")))
  ∧ text_values (gen_ncx g) = [ "Tom & Jerry"; "Empty"; "A & B"; "One"; "1 < 2" ]
  ∧ text_values (gen_nav g) = [ "Empty"; "A & B"; "One"; "1 < 2" ]
  ∧ In "Tom & Jerry" (text_values (gen_opf g))
  ∧ includes (render (gen_ncx g)) "<text>A & B</text>" = true.
Proof. vm_compute. repeat split; try reflexivity. tauto. Qed.

(** ** The catalog and the resource table *)

Lemma grows_refl e : grows e e.
Proof. by split. Qed.

Lemma grows_trans e1 e2 e3 : grows e1 e2 → grows e2 e3 → grows e1 e3.
Proof. intros [H1 V1] [H2 V2]. split; [auto | congruence]. Qed.

Lemma grows_same e e' :
  resources e' = resources e → volumes e' = volumes e → grows e e'.
Proof. intros Hr Hv. split; [|done]. unfold stored. by rewrite Hr. Qed.

Lemma grows_addResource e p b : grows e (_addResource e p b).
Proof.
  split.
  - intros q. apply has_addResource_mono.
  - apply volumes_addResource.
Qed.

Lemma grows_registerResources rs : ∀ e, grows e (registerResources e rs).
Proof.
  induction rs as [|[[u p] b] rs IH]; intros e; [apply grows_refl|].
  unfold registerResources in *. cbn [foldl].
  eapply grows_trans; [|apply IH].
  eapply grows_trans; [|apply grows_addResource]. by apply grows_same.
Qed.

Lemma grows_processImages_dom w doc : ∀ e, grows e (processImages_dom w e doc).2.
Proof.
  induction doc as [|[s|src] doc IH]; intros e; cbn [processImages_dom].
  - apply grows_refl.
  - specialize (IH e). by destruct (processImages_dom w e doc) as [[d rs] e'].
  - destruct (process_image w e src) as [| |u f b].
    + specialize (IH e). by destruct (processImages_dom w e doc) as [[d rs] e'].
    + apply IH.
    + specialize (IH (bump_image e)).
      destruct (processImages_dom w (bump_image e) doc) as [[d rs] e'].
      eapply grows_trans; [|exact IH]. by apply grows_same.
Qed.

Lemma grows_chapter_xhtml w e content title contentType insertTitle useGlobalCSS cssList :
  grows e (chapter_xhtml w e content title contentType insertTitle useGlobalCSS cssList).2.
Proof.
  rewrite chapter_xhtml_eq. cbv zeta. cbn [snd].
  eapply grows_trans; [apply grows_processImages_dom | apply grows_registerResources].
Qed.

Lemma grows_fetch_css_url w e url : grows e (fetch_css_url w e url).
Proof.
  unfold fetch_css_url. destruct (bool_decide _); [apply grows_refl|].
  destruct (fetch w url) as [response|]; [|apply grows_refl].
  eapply grows_trans; [|by apply grows_same].
  eapply grows_trans; [|apply grows_addResource]. by apply grows_same.
Qed.

Lemma grows_css_replacements w urls : ∀ e, grows e (css_replacements w e urls).2.
Proof.
  induction urls as [|url urls IH]; intros e; cbn [css_replacements].
  - apply grows_refl.
  - specialize (IH (fetch_css_url w e url)).
    destruct (css_replacements w (fetch_css_url w e url) urls) as [rs e2].
    eapply grows_trans; [apply grows_fetch_css_url | exact IH].
Qed.

Lemma grows_processCSSUrls w e css : grows e (processCSSUrls w e css).2.
Proof.
  unfold processCSSUrls.
  pose proof (grows_css_replacements w (cssUrlCaptures w css) e) as H.
  by destruct (css_replacements w e (cssUrlCaptures w css)) as [rs e1].
Qed.

Lemma grows_addCSS w e idx content filename mapname e' :
  addCSS w e idx content filename mapname = Some e' → grows e e'.
Proof.
  unfold addCSS.
  destruct (if startsWith content "http://" || startsWith content "https://"
            then _ else _) as [cssContent|]; [|done].
  cbn [mbind option_bind].
  pose proof (grows_processCSSUrls w e cssContent) as H1.
  destruct (processCSSUrls w e cssContent) as [css1 e1]. cbn [snd] in H1.
  destruct (truthy filename).
  - intros [= <-]. eapply grows_trans; [exact H1|].
    eapply grows_trans; [apply grows_addResource | by apply grows_same].
  - intros [= <-]. eapply grows_trans; [exact H1|].
    eapply grows_trans; [|by apply grows_same].
    eapply grows_trans; [|apply grows_addResource]. by apply grows_same.
Qed.

Lemma grows_createCSSMap_loop w entries : ∀ e maxIdx e',
  createCSSMap_loop w e maxIdx entries = Some e' → grows e e'.
Proof.
  induction entries as [|[mapname content] entries IH]; intros e maxIdx e';
    cbn [createCSSMap_loop].
  - intros [= <-]. apply grows_refl.
  - destruct (addCSS w e (maxIdx + 1) content mapname mapname) as [e1|] eqn:H1; [|done].
    cbn [mbind option_bind]. intros H2.
    eapply grows_trans; [by eapply grows_addCSS | by eapply IH].
Qed.

Lemma volume_stored_grows e e' v : grows e e' → volume_stored e v → volume_stored e' v.
Proof.
  intros [Hs _] (Ht & Hc & Hch). split_and!; [done | by apply Hs |].
  eapply Forall_impl; [exact Hch|]. intros c. apply Hs.
Qed.

Lemma catalog_stored_grows e e' : grows e e' → catalog_stored e → catalog_stored e'.
Proof.
  intros Hg Hc. unfold catalog_stored. rewrite (proj2 Hg).
  eapply Forall_impl; [exact Hc|]. intros v. by apply volume_stored_grows.
Qed.

Lemma stored_with_volumes e vs p : stored (with_volumes e vs) p ↔ stored e p.
Proof. done. Qed.

Lemma volume_stored_with_volumes e vs v :
  volume_stored (with_volumes e vs) v ↔ volume_stored e v.
Proof. done. Qed.

Lemma volume_stored_sort_chapters e v :
  volume_stored e v → volume_stored e (sort_chapters v).
Proof.
  intros (Ht & Hc & Hch). split_and!; [done..|]. simpl.
  apply Forall_forall. intros c Hin. rewrite Forall_forall in Hch. apply Hch.
  by rewrite <- (sort_by_Permutation chap_idx (vol_chapters v)).
Qed.

Lemma catalog_stored_sort e :
  catalog_stored e → catalog_stored (with_volumes e (sort_catalog (volumes e))).
Proof.
  unfold catalog_stored. intros Hc. cbn [volumes with_volumes].
  unfold sort_catalog. rewrite Forall_map.
  apply Forall_forall. intros v Hin.
  apply volume_stored_with_volumes, volume_stored_sort_chapters.
  rewrite Forall_forall in Hc. apply Hc.
  by rewrite <- (sort_by_Permutation vol_idx (volumes e)).
Qed.

Lemma grows_register_cover e : grows e (register_cover e).
Proof.
  unfold register_cover. destruct (info_cover e); [|apply grows_refl].
  eapply grows_trans; apply grows_addResource.
Qed.

Lemma catalog_stored_generate now e :
  catalog_stored e → catalog_stored (gen_state (generate now e)).
Proof.
  intros Hc. rewrite generate_eq. cbv zeta. cbn [gen_state].
  apply (catalog_stored_sort (generateNcx (generateOpf now e).2).2).
  apply (catalog_stored_sort (generateOpf now e).2).
  apply (catalog_stored_sort (register_cover e)).
  by eapply catalog_stored_grows; [apply grows_register_cover|].
Qed.

Lemma catalog_stored_addVolume e title idx :
  catalog_stored e → catalog_stored (addVolume e title idx).2.
Proof.
  intros Hc. unfold addVolume, new_Volume. cbn [snd].
  set (e1 := _addResource e _ _).
  assert (Hg : grows e e1) by apply grows_addResource.
  unfold catalog_stored. cbn [volumes with_volumes]. rewrite Forall_app. split.
  - apply (catalog_stored_grows e e1 Hg) in Hc.
    eapply Forall_impl; [exact Hc|]. done.
  - constructor; [|done]. split_and!; [done | | by constructor].
    apply has_addResource_same.
Qed.

Lemma catalog_stored_push e ref c :
  catalog_stored e → stored e (chap_filename c) →
  catalog_stored (with_volumes e (push_chapter ref c (volumes e))).
Proof.
  unfold catalog_stored. intros Hc Hs. cbn [volumes with_volumes].
  unfold push_chapter. rewrite Forall_map.
  eapply Forall_impl; [exact Hc|]. intros v (Ht & Hcf & Hch).
  destruct (Nat.eqb (vol_ref v) ref); [|done].
  split_and!; [done..|]. simpl. rewrite Forall_app. split; [done|]. by constructor.
Qed.

Lemma catalog_stored_addChapter w e ref idx content title contentType insertTitle
    useGlobalCSS cssList e' :
  addChapter w e ref idx content title contentType insertTitle useGlobalCSS cssList
  = Some e' →
  catalog_stored e → catalog_stored e'.
Proof.
  unfold addChapter. destruct (find_volume e ref) as [this|]; [|done].
  cbn [mbind option_bind].
  pose proof (grows_chapter_xhtml w e content title contentType insertTitle
                useGlobalCSS cssList) as Hg.
  destruct (chapter_xhtml _ _ _ _ _ _ _ _) as [xhtml e2]. cbn [snd] in Hg.
  intros [= <-] Hc.
  apply (catalog_stored_push (_addResource e2 _ _)).
  - eapply catalog_stored_grows; [|exact Hc].
    eapply grows_trans; [exact Hg | apply grows_addResource].
  - apply has_addResource_same.
Qed.

Lemma catalog_stored_call w e c e' :
  call w e c = Some e' → catalog_stored e → catalog_stored e'.
Proof.
  destruct c; cbn [call].
  - unfold setInfo.
    destruct (String.eqb tag "cover"); [destruct value; [destruct (fetch w s)|]|];
      (try done); intros [= <-] Hc; by eapply catalog_stored_grows; [apply grows_same|].
  - intros [= <-]. apply catalog_stored_addVolume.
  - apply catalog_stored_addChapter.
  - intros H. apply catalog_stored_grows. by eapply grows_addCSS.
  - intros H. apply catalog_stored_grows. by eapply grows_createCSSMap_loop.
  - intros [= <-] Hc. exact (catalog_stored_generate now e Hc).
Qed.

Lemma reachable_catalog_stored w e : reachable w e → catalog_stored e.
Proof.
  induction 1 as [uuid | e c e' _ IH Hcall].
  - constructor.
  - by eapply catalog_stored_call.
Qed.

Lemma run_reachable w calls : ∀ e e',
  reachable w e → run w e calls = Some e' → reachable w e'.
Proof.
  induction calls as [|c calls IH]; intros e e' Hr; cbn [run].
  - by intros [= <-].
  - destruct (call w e c) as [e1|] eqn:Hc; [|done]. cbn [mbind option_bind].
    apply IH. by eapply reachable_call.
Qed.

(** ** References between the generated documents and the table *)

Lemma ncx_chapterPoints_no name chaps :
  name = "href" ∨ name = "idref" →
  ∀ playOrder, attr_values name (ncx_chapterPoints playOrder chaps).1 = [].
Proof.
  intros Hname.
  induction chaps as [|c chaps IH]; intros playOrder; cbn [ncx_chapterPoints]; [done|].
  specialize (IH (S playOrder)).
  destruct (ncx_chapterPoints (S playOrder) chaps) as [ps po]. cbn [fst] in *.
  unfold ncx_chapterPoint. destruct Hname as [-> | ->]; template_values; by rewrite IH.
Qed.

Lemma ncx_navPoints_no name vols :
  name = "href" ∨ name = "idref" →
  ∀ playOrder, attr_values name (ncx_navPoints playOrder vols).1 = [].
Proof.
  intros Hname.
  induction vols as [|v vols IH]; intros playOrder; [done|].
  cbn [ncx_navPoints].
  pose proof (ncx_chapterPoints_no name (sort_by chap_idx (vol_chapters v)) Hname
                (S playOrder)) as Hc.
  destruct (ncx_chapterPoints _ _) as [cps po1]. cbn [fst] in Hc.
  specialize (IH po1). destruct (ncx_navPoints po1 vols) as [ps po2]. cbn [fst] in *.
  unfold ncx_volumePoint.
  destruct Hname as [-> | ->]; template_values; by rewrite Hc, IH.
Qed.

Lemma generateNcx_no name e :
  name = "href" ∨ name = "idref" → attr_values name (generateNcx e).1 = [].
Proof.
  intros Hname. unfold generateNcx. cbn [fst].
  pose proof (ncx_navPoints_no name (sort_by vol_idx (volumes e)) Hname 1) as Hn.
  destruct Hname as [-> | ->]; template_values; by rewrite Hn.
Qed.

Lemma nav_chapters_no name chaps :
  name = "src" ∨ name = "idref" → attr_values name (flat_map nav_chapter chaps) = [].
Proof.
  intros Hname. induction chaps as [|c chaps IH]; [done|].
  cbn [flat_map]. rewrite attr_values_app, IH. unfold nav_chapter.
  destruct Hname as [-> | ->]; by template_values.
Qed.

Lemma nav_volumes_no name vols :
  name = "src" ∨ name = "idref" → attr_values name (flat_map nav_volume vols) = [].
Proof.
  intros Hname. induction vols as [|v vols IH]; [done|].
  cbn [flat_map]. rewrite attr_values_app, IH. unfold nav_volume.
  pose proof (nav_chapters_no name (sort_by chap_idx (vol_chapters v)) Hname) as Hc.
  destruct Hname as [-> | ->]; template_values; by rewrite Hc.
Qed.

Lemma generateNav_no name e :
  name = "src" ∨ name = "idref" → attr_values name (generateNav e).1 = [].
Proof.
  intros Hname. unfold generateNav. cbn [fst].
  pose proof (nav_volumes_no name (sort_by vol_idx (volumes e)) Hname) as Hn.
  destruct Hname as [-> | ->]; template_values; by rewrite Hn.
Qed.

Lemma generateOpf_src now e : attr_values "src" (generateOpf now e).1 = [].
Proof.
  unfold generateOpf. cbv zeta. cbn [fst]. template_values.
  assert (Hmeta : flat_map (attr_values "src") (opf_metadata now e) = []).
  { unfold opf_metadata. rewrite flat_map_app. cbn [flat_map].
    destruct (info_cover e); cbn [flat_map]; by template_values. }
  assert (Hman : ∀ rs : JsMap.t bytes,
            flat_map (attr_values "src")
              (map (λ r, manifest_item (sanitize_id r.1) r.1 (media_type r.1) None) rs)
            = []).
  { induction rs as [|r rs IH]; [done|]. cbn [map flat_map]. rewrite IH.
    unfold manifest_item. by template_values. }
  assert (Hspine : ∀ vs : list Volume,
            flat_map (attr_values "src")
              (flat_map (λ v, map (λ c, itemref (sanitize_id (chap_filename c)))
                                  (sort_by chap_idx (vol_chapters v))) vs)
            = []).
  { assert (Hcs : ∀ cs : list Chapter,
              flat_map (attr_values "src")
                (map (λ c, itemref (sanitize_id (chap_filename c))) cs) = []).
    { induction cs as [|c cs IHc]; [done|]. cbn [map flat_map]. rewrite IHc.
      unfold itemref. by template_values. }
    induction vs as [|v vs IH]; [done|]. cbn [flat_map].
    by rewrite flat_map_app, IH, Hcs. }
  rewrite Hmeta. unfold opf_manifest, opf_spine, opf_guide.
  rewrite !flat_map_app, Hman, Hspine.
  destruct (info_cover (register_cover e)); cbn [flat_map];
    unfold manifest_item, itemref; by template_values.
Qed.

Lemma resources_gen_state now e :
  resources (gen_state (generate now e)) = resources (register_cover e).
Proof. by rewrite generate_eq. Qed.

Lemma stored_cover_files e :
  is_Some (info_cover e) →
  JsMap.has (resources (register_cover e)) "images/cover.jpg" = true
  ∧ JsMap.has (resources (register_cover e)) "cover.xhtml" = true.
Proof.
  intros [cover Hc]. unfold register_cover. rewrite Hc. split.
  - apply has_addResource_mono, has_addResource_same.
  - apply has_addResource_same.
Qed.

Lemma nav_volume_href_first v c cs :
  vol_chapters v = c :: cs → nav_volume_href v = chap_filename c.
Proof.
  intros H. unfold nav_volume_href, first_chapter_filename. rewrite H. simpl.
  unfold or_else, truthy. by destruct (String.eqb_spec (chap_filename c) EmptyString) as [->|].
Qed.

(** C1, as the program has it. For a document built by calls of the
    interface and then saved: the navigation map refers by [src] only, and
    each [src] is a key of the resource table; the navigation document
    refers by [href] only, to each volume and then its chapters, each
    chapter [href] is a key of the table and so is the [href] of each
    volume that has a chapter; the package document has no [src], each of
    its [href] is a key of the table or one of [nav.xhtml] and [toc.ncx],
    the two documents [save] puts into the archive itself, and each
    [idref] is the identifier made from a key of the table, or [cover] for
    the key [cover.xhtml]. *)
Theorem C1_references_stored (w : World) (e : EpubSaver) (now : string) :
  reachable w e →
  let g := generate now e in
  let final := gen_state g in
  (doc_references (gen_ncx g) = attr_values "src" (gen_ncx g)
   ∧ Forall (stored final) (attr_values "src" (gen_ncx g)))
  ∧ (doc_references (gen_nav g) = attr_values "href" (gen_nav g)
     ∧ attr_values "href" (gen_nav g) = catalog_files nav_volume_href (volumes final)
     ∧ Forall (λ v, Forall (stored final) (map chap_filename (vol_chapters v))
                    ∧ (vol_chapters v ≠ [] → stored final (nav_volume_href v)))
              (volumes final))
  ∧ (attr_values "src" (gen_opf g) = []
     ∧ Forall (λ h, h = "nav.xhtml" ∨ h = "toc.ncx" ∨ stored final h)
              (attr_values "href" (gen_opf g))
     ∧ Forall (λ i, ∃ p, stored final p
                         ∧ (i = sanitize_id p ∨ (i = "cover" ∧ p = "cover.xhtml")))
              (attr_values "idref" (gen_opf g))).
Proof.
  intros Hreach g final.
  assert (Hinv : catalog_stored final).
  { apply catalog_stored_generate. by eapply reachable_catalog_stored. }
  destruct (generate_lists now e) as (Hv & Hidref & Hsrc & _ & Hhref & _).
  fold g in Hv, Hidref, Hsrc, Hhref. fold final in Hv.
  unfold catalog_stored in Hinv. rewrite Hv in Hinv.
  assert (Hres : ∀ p, stored final p ↔ JsMap.has (resources (register_cover e)) p = true).
  { intros p. unfold stored, final, g. by rewrite resources_gen_state. }
  assert (Hg : g = generate now e) by done.
  rewrite generate_eq in Hg. cbv zeta in Hg.
  split_and!.
  - unfold doc_references. rewrite Hg. cbn [gen_ncx].
    rewrite (generateNcx_no "href"), (generateNcx_no "idref") by auto.
    by rewrite app_nil_r.
  - rewrite Hsrc. unfold catalog_files. apply Forall_flat_map.
    eapply Forall_impl; [exact Hinv|]. intros v (Ht & Hc & Hch).
    constructor.
    + unfold ncx_volume_src. by rewrite Ht.
    + by rewrite Forall_map.
  - unfold doc_references. rewrite Hg. cbn [gen_nav].
    rewrite (generateNav_no "src"), (generateNav_no "idref") by auto.
    by rewrite app_nil_r.
  - by rewrite Hhref, Hv.
  - rewrite Hv. eapply Forall_impl; [exact Hinv|]. intros v (Ht & Hc & Hch). split.
    + by rewrite Forall_map.
    + intros Hne. destruct (vol_chapters v) as [|c cs] eqn:Hcs; [done|].
      rewrite (nav_volume_href_first v c cs Hcs). by inversion Hch.
  - rewrite Hg. cbn [gen_opf]. apply generateOpf_src.
  - rewrite Hg. cbn [gen_opf]. rewrite generateOpf_href.
    repeat (constructor; [by auto|]).
    rewrite !Forall_app. split_and!.
    + destruct (info_cover e) eqn:Hc; [|done].
      destruct (stored_cover_files e) as [H1 H2]; [by eauto|].
      do 2 (constructor; [right; right; by apply Hres|]). constructor.
    + apply Forall_forall. intros p Hp. right. right.
      apply Hres, JsMapFacts.has_keys. by apply list_elem_of_In.
    + destruct (info_cover e) eqn:Hc; [|done].
      destruct (stored_cover_files e) as [H1 H2]; [by eauto|].
      constructor; [right; right; by apply Hres|]. constructor.
  - rewrite Hidref. rewrite Forall_app. split.
    + unfold cover_idref. destruct (info_cover e) eqn:Hc; [|done].
      destruct (stored_cover_files e) as [H1 H2]; [by eauto|].
      constructor; [|done]. exists "cover.xhtml". split; [by apply Hres | by right].
    + unfold spine_ids. apply Forall_flat_map.
      eapply Forall_impl; [exact Hinv|]. intros v (Ht & Hc & Hch).
      rewrite Forall_map. eapply Forall_impl; [exact Hch|].
      intros c Hs. exists (chap_filename c). split; [done | by left].
Qed.

Lemma demo_book_reachable : reachable demo_world demo_book.
Proof.
  eapply run_reachable; [apply (reachable_new demo_world demo_uuid) | apply demo_book_run].
Qed.

Lemma C1_references_stored_witness :
  reachable demo_world demo_book
  ∧ Forall (stored (gen_state (generate demo_now demo_book)))
           (attr_values "src" (gen_ncx (generate demo_now demo_book))).
Proof.
  split; [exact demo_book_reachable|].
  exact (proj2 (proj1 (C1_references_stored demo_world demo_book demo_now
                         demo_book_reachable))).
Defined.

(** C1, as it is worded, fails: the package document of any saved document
    refers to [nav.xhtml], which [save] writes into the archive without
    putting it into the resource table. *)
Lemma C1_consistency_counterexample : ¬ consistency_claim.
Proof.
  intros H.
  specialize (H demo_world demo_book demo_now demo_book_reachable).
  cbv zeta in H. rewrite Forall_forall in H.
  specialize (H "nav.xhtml").
  assert (Hin : In "nav.xhtml"
                  (doc_references (gen_opf (generate demo_now demo_book))
                   ++ doc_references (gen_ncx (generate demo_now demo_book))
                   ++ doc_references (gen_nav (generate demo_now demo_book)))).
  { vm_compute. tauto. }
  apply list_elem_of_In, H in Hin. vm_compute in Hin. discriminate.
Qed.

(** The link of a volume without chapters in the navigation document is
    the empty string, where the navigation map refers to the container
    document of the volume. *)
Lemma empty_volume_link :
  let g := generate demo_now demo_book in
  attr_values "href" (gen_nav g)
  = [ EmptyString; "chapter_2_1.xhtml"; "chapter_2_1.xhtml"; "chapter_2_2.xhtml" ]
  ∧ attr_values "src" (gen_ncx g)
    = [ "volume_1.xhtml"; "volume_2.xhtml"; "chapter_2_1.xhtml"; "chapter_2_2.xhtml" ]
  ∧ JsMap.has (resources (gen_state g)) EmptyString = false
  ∧ JsMap.has (resources (gen_state g)) "volume_1.xhtml" = true.
Proof. vm_compute. repeat split; reflexivity. Qed.

(** * Further properties of the program *)

(** ** Strings *)

Lemma append_cons c s t : String c s +:+ t = String c (s +:+ t).
Proof. done. Qed.

Lemma append_nil_l s : EmptyString +:+ s = s.
Proof. done. Qed.

Lemma chars_app a b : chars (a +:+ b) = chars a ++ chars b.
Proof.
  induction a as [|c a IH]; [done|].
  rewrite append_cons. unfold chars in *. cbn [list_ascii_of_string app]. by f_equal.
Qed.

Lemma append_nil_r s : s +:+ EmptyString = s.
Proof. induction s as [|c s IH]; [done|]. rewrite append_cons. by f_equal. Qed.

Lemma append_assoc a b c : (a +:+ b) +:+ c = a +:+ b +:+ c.
Proof. induction a as [|x a IH]; [done|]. rewrite !append_cons. by f_equal. Qed.

Lemma length_append a b : String.length (a +:+ b) = (String.length a + String.length b)%nat.
Proof.
  induction a as [|x a IH]; [done|]. rewrite append_cons. cbn [String.length].
  by rewrite IH.
Qed.

Lemma take_drop n s : take n s +:+ drop n s = s.
Proof.
  revert s. induction n as [|n IH]; intros [|c s]; cbn [take drop]; try done.
  rewrite append_cons. by f_equal.
Qed.

Lemma startsWith_nil s : startsWith s EmptyString = true.
Proof. by destruct s. Qed.

Lemma is_reserved_cases c :
  is_reserved c = true →
  c = "<"%char ∨ c = ">"%char ∨ c = "&"%char ∨ c = "'"%char ∨ c = "034"%char.
Proof.
  unfold is_reserved. rewrite !orb_true_iff, !Ascii.eqb_eq. tauto.
Qed.

Lemma not_reserved_not_amp c : is_reserved c = false → Ascii.eqb "&" c = false.
Proof.
  unfold is_reserved. rewrite !orb_false_iff. intros [[[_ H] _] _].
  by rewrite Ascii.eqb_sym.
Qed.

Lemma escapeXml_cons c s :
  escapeXml (String c s)
  = (if is_reserved c then entity c else String c EmptyString) +:+ escapeXml s.
Proof. done. Qed.

Lemma unescapeXml_aux_escapeXml s : ∀ fuel,
  (String.length (escapeXml s) ≤ fuel)%nat → unescapeXml_aux fuel (escapeXml s) = s.
Proof.
  induction s as [|c s IH]; intros fuel Hfuel.
  - by destruct fuel.
  - rewrite escapeXml_cons in *.
    destruct (is_reserved c) eqn:Hr.
    + apply is_reserved_cases in Hr.
      destruct Hr as [-> | [-> | [-> | [-> | ->]]]];
        match goal with
        | |- context [entity ?c] =>
            let t := eval vm_compute in (entity c) in change (entity c) with t in *
        end;
        rewrite length_append in Hfuel; cbn [String.length] in Hfuel;
        (destruct fuel as [|fuel]; [lia|]);
        rewrite !append_cons, append_nil_l;
        cbn [unescapeXml_aux startsWith drop Ascii.eqb Bool.eqb andb];
        rewrite startsWith_nil; f_equal; apply IH; lia.
    + apply not_reserved_not_amp in Hr.
      rewrite length_append in Hfuel. cbn [String.length] in Hfuel.
      destruct fuel as [|fuel]; [lia|].
      rewrite append_cons, append_nil_l.
      cbn [unescapeXml_aux startsWith]. rewrite Hr. cbn [andb].
      f_equal. apply IH. lia.
Qed.

(** X1. [escapeXml] loses nothing: reading the five entities back gives the
    string that was escaped, so two different strings are never escaped to
    the same text. *)
Theorem escapeXml_lossless (s t : string) :
  unescapeXml (escapeXml s) = s ∧ (escapeXml s = escapeXml t → s = t).
Proof.
  assert (H : ∀ x, unescapeXml (escapeXml x) = x).
  { intros x. by apply unescapeXml_aux_escapeXml. }
  split; [apply H|]. intros Heq. by rewrite <- (H s), Heq, H.
Qed.

Lemma amp_after c t pre rest :
  pre +:+ String "&" rest = String c t → c ≠ "&"%char →
  ∃ pre', pre = String c pre' ∧ pre' +:+ String "&" rest = t.
Proof.
  destruct pre as [|p pre].
  - rewrite append_nil_l. intros [= <- _] Hc. by destruct Hc.
  - rewrite append_cons. intros [= -> <-] _. by eauto.
Qed.

Ltac entity_name n :=
  exists n; split;
  [ cbn; tauto
  | cbn [startsWith Ascii.eqb Bool.eqb andb]; apply startsWith_nil ].

Lemma escapeXml_amp s : ∀ pre rest,
  escapeXml s = pre +:+ String "&" rest →
  ∃ name, In name ["lt;"; "gt;"; "amp;"; "apos;"; "quot;"] ∧ startsWith rest name = true.
Proof.
  induction s as [|c s IH]; intros pre rest.
  - by destruct pre.
  - rewrite escapeXml_cons. destruct (is_reserved c) eqn:Hr.
    + apply is_reserved_cases in Hr.
      destruct Hr as [-> | [-> | [-> | [-> | ->]]]];
        match goal with
        | |- context [entity ?c] =>
            let t := eval vm_compute in (entity c) in change (entity c) with t
        end;
        rewrite !append_cons, append_nil_l; intros H;
        (destruct pre as [|p pre];
         [ rewrite append_nil_l in H; injection H as <-;
           first [ entity_name "lt;" | entity_name "gt;" | entity_name "amp;"
                 | entity_name "apos;" | entity_name "quot;" ]
         | rewrite append_cons in H; injection H as _ H;
           repeat (symmetry in H; apply amp_after in H as (? & -> & H);
                   [symmetry in H|discriminate]);
           by apply IH in H ]).
    + rewrite append_cons, append_nil_l. intros H. symmetry in H.
      apply amp_after in H as (pre' & -> & H).
      * symmetry in H. by apply IH in H.
      * apply not_reserved_not_amp in Hr. intros ->. discriminate.
Qed.

(** X2. The text [escapeXml] gives holds none of the characters [<], [>],
    ['] and the quotation mark, every [&] in it begins one of the five
    entities, and the text is the string itself when that holds no reserved
    character. *)
Theorem escapeXml_no_markup (s : string) :
  Forall (λ c, c ≠ "<"%char ∧ c ≠ ">"%char ∧ c ≠ "'"%char ∧ c ≠ "034"%char)
         (chars (escapeXml s))
  ∧ (∀ pre rest,
       escapeXml s = pre +:+ String "&" rest →
       ∃ name,
         In name ["lt;"; "gt;"; "amp;"; "apos;"; "quot;"]
         ∧ startsWith rest name = true)
  ∧ (Forall (λ c, is_reserved c = false) (chars s) → escapeXml s = s).
Proof.
  split; [|split; [apply escapeXml_amp|]].
  - induction s as [|c s IH]; [constructor|].
    rewrite escapeXml_cons, chars_app. apply Forall_app. split; [|done].
    destruct (is_reserved c) eqn:Hr.
    + apply is_reserved_cases in Hr.
      destruct Hr as [-> | [-> | [-> | [-> | ->]]]]; cbn;
        repeat constructor; discriminate.
    + constructor; [|constructor].
      unfold is_reserved in Hr. rewrite !orb_false_iff, !Ascii.eqb_neq in Hr. tauto.
  - induction s as [|c s IH]; [done|].
    intros Hs. apply Forall_cons in Hs as [Hc Hs].
    rewrite escapeXml_cons, Hc. simpl. by rewrite IH.
Qed.

(** ** The region [extractContent] takes *)

Lemma indexOf_by_Some eqc p s : ∀ i,
  indexOf_by eqc p s = Some i → startsWith_by eqc (drop i s) p = true.
Proof.
  induction s as [|c s IH]; intros i; cbn [indexOf_by].
  - destruct (startsWith_by eqc EmptyString p) eqn:Hs; [|done].
    intros [= <-]. exact Hs.
  - destruct (startsWith_by eqc (String c s) p) eqn:Hs.
    + intros [= <-]. exact Hs.
    + destruct (indexOf_by eqc p s) as [j|] eqn:Hj; [|done].
      intros [= <-]. cbn [drop]. by apply IH.
Qed.

Lemma startsWith_nocase_split p : ∀ s,
  startsWith_by eq_nocase s p = true →
  same_nocase (take (String.length p) s) p
  ∧ s = take (String.length p) s +:+ drop (String.length p) s.
Proof.
  unfold same_nocase.
  induction p as [|a p IH]; intros s Hs.
  - split; [by destruct s | by rewrite take_drop].
  - destruct s as [|b s]; [done|]. cbn [startsWith_by] in Hs.
    apply andb_true_iff in Hs as [Hab Hs]. apply IH in Hs as [Hl _].
    split; [|by rewrite take_drop].
    cbn [String.length take toLowerCase]. f_equal; [|done].
    unfold eq_nocase in Hab. apply Ascii.eqb_eq in Hab. done.
Qed.

Lemma match_region_Some opening closing html inner :
  match_region opening closing html = Some inner →
  ∃ pre o c post,
    html = pre +:+ o +:+ inner +:+ c +:+ post
    ∧ same_nocase o opening ∧ same_nocase c closing.
Proof.
  unfold match_region.
  destruct (indexOf_by eq_nocase opening html) as [i|] eqn:Hi; [|done].
  cbn [mbind option_bind].
  destruct (indexOf_by eq_nocase closing _) as [j|] eqn:Hj; [|done].
  cbn [mbind option_bind]. intros [= <-].
  apply indexOf_by_Some, startsWith_nocase_split in Hi as [Ho Hsplit].
  apply indexOf_by_Some, startsWith_nocase_split in Hj as [Hc Hsplit'].
  set (rest := drop (i + String.length opening) html) in *.
  assert (Hrest : drop (String.length opening) (drop i html) = rest).
  { unfold rest. clear. revert html.
    induction i as [|i IH]; intros html; [done|].
    destruct html as [|c html]; [by destruct (String.length opening)|].
    cbn [drop Nat.add]. apply IH. }
  exists (take i html), (take (String.length opening) (drop i html)),
         (take (String.length closing) (drop j rest)),
         (drop (String.length closing) (drop j rest)).
  split; [|split; symmetry; by symmetry].
  rewrite <- Hsplit', take_drop, <- Hrest, <- Hsplit. by rewrite take_drop.
Qed.

Lemma indexOf_by_no_first eqc a p s :
  Forall (λ c, eqc a c = false) (chars s) → indexOf_by eqc (String a p) s = None.
Proof.
  induction s as [|c s IH]; intros Hs; [done|].
  apply Forall_cons in Hs as [Hc Hs].
  cbn [indexOf_by startsWith_by]. rewrite Hc. cbn [andb]. by rewrite IH.
Qed.

(** X3. What [extractContent] gives is the input itself or a region of the
    input, enclosed there by an [article] or a [body] tag pair written in
    any case; the input is never added to.  An input without a [<] comes
    back unchanged. *)
Theorem extractContent_region (html : string) :
  (extractContent html = html
   ∨ ∃ pre o c post,
       html = pre +:+ o +:+ extractContent html +:+ c +:+ post
       ∧ ((same_nocase o "<article>" ∧ same_nocase c "</article>")
          ∨ (same_nocase o "<body>" ∧ same_nocase c "</body>")))
  ∧ (Forall (λ c, c ≠ "<"%char) (chars html) → extractContent html = html).
Proof.
  split.
  - unfold extractContent.
    destruct (match_region "<article>" "</article>" html) as [inner|] eqn:Ha.
    + right. apply match_region_Some in Ha as (pre & o & c & post & H & Ho & Hc).
      exists pre, o, c, post. by eauto.
    + destruct (match_region "<body>" "</body>" html) as [inner|] eqn:Hb; [|by left].
      right. apply match_region_Some in Hb as (pre & o & c & post & H & Ho & Hc).
      exists pre, o, c, post. by eauto.
  - intros Hno.
    assert (H : ∀ p, indexOf_by eq_nocase (String "<" p) html = None).
    { intros p. apply indexOf_by_no_first.
      eapply Forall_impl; [exact Hno|]. intros c Hc. unfold eq_nocase.
      apply Ascii.eqb_neq. intros Heq. apply Hc.
      destruct c as [[] [] [] [] [] [] [] []]; by vm_compute in Heq. }
    unfold extractContent, match_region. by rewrite !H.
Qed.

(** ** File extensions *)

Lemma toLowerCase_nil s : toLowerCase s = EmptyString → s = EmptyString.
Proof. by destruct s. Qed.

Lemma lower_char_not_upper c : is_upper (lower_char c) = false.
Proof. by destruct c as [[] [] [] [] [] [] [] []]. Qed.

Lemma toLowerCase_no_upper s : Forall (λ c, is_upper c = false) (chars (toLowerCase s)).
Proof.
  induction s as [|c s IH]; [constructor|].
  constructor; [apply lower_char_not_upper | exact IH].
Qed.

Lemma truthy_or_else a b : truthy b = true → truthy (or_else a b) = true.
Proof. intros Hb. unfold or_else. by destruct (truthy a) eqn:Ha. Qed.

(** X4. The extension [getExtension] gives is never empty and holds no
    upper-case letter, whatever the content type and the URL. *)
Theorem getExtension_nonempty_lower (mimeType url : string) :
  getExtension mimeType url ≠ EmptyString
  ∧ Forall (λ c, is_upper c = false) (chars (getExtension mimeType url)).
Proof.
  unfold getExtension. split; [|apply toLowerCase_no_upper].
  intros H%toLowerCase_nil.
  pose proof (truthy_or_else
                (or_else (or_else (default EmptyString (JsMap.get MIME_MAP mimeType))
                                  (mime_subtype mimeType))
                         (url_extension url)) "bin" eq_refl) as Ht.
  by rewrite H in Ht.
Qed.

Lemma split_no_sep sep s :
  Forall (λ c, sep c = false) (chars s) → split sep s = [s].
Proof.
  induction s as [|c s IH]; intros Hs; [done|].
  apply Forall_cons in Hs as [Hc Hs]. cbn [split]. by rewrite Hc, IH.
Qed.

(** X5. For a URL without a dot, a hash or a question mark in it, the
    extension taken from the URL is the whole URL: a resource of a style
    sheet fetched from such a URL is stored under
    [resources/res<n>.<url>], and recorded under it in the URL index. *)
Theorem dotless_url_extension (w : World) (e : EpubSaver) (url : string)
    (response : Response) :
  Forall (λ c, c ≠ "."%char ∧ c ≠ "#"%char ∧ c ≠ "?"%char) (chars url) →
  truthy url = true →
  resourceUrls e !! url = None →
  fetch w url = Some response →
  url_extension url = url
  ∧ css_resource_ext url = url
  ∧ resourceUrls (fetch_css_url w e url) !! url
    = Some ("resources/res" +:+ pretty (cnt_other (resourceCounters e)) +:+ "." +:+ url).
Proof.
  intros Hno Ht Hu Hf.
  assert (Hdot : split (is_char "."%char) url = [url]).
  { apply split_no_sep. eapply Forall_impl; [exact Hno|].
    intros c (Hc & _ & _). unfold is_char. by apply Ascii.eqb_neq. }
  assert (Hhq : split is_hash_or_query url = [url]).
  { apply split_no_sep. eapply Forall_impl; [exact Hno|].
    intros c (_ & Hh & Hq). unfold is_hash_or_query.
    apply orb_false_iff. split; by apply Ascii.eqb_neq. }
  assert (Hext : css_resource_ext url = url).
  { unfold css_resource_ext. rewrite Hdot. unfold pop. cbn [List.last].
    rewrite Hhq. unfold first. cbn [List.hd]. by apply or_else_truthy. }
  split_and!.
  - unfold url_extension. rewrite Hhq. unfold first. cbn [List.hd]. by rewrite Hdot.
  - exact Hext.
  - unfold fetch_css_url. rewrite Hu, Hf.
    rewrite bool_decide_eq_false_2 by (by intros [? ?]).
    rewrite Hext. cbv zeta.
    change (resourceUrls (with_resourceUrls ?e ?m)) with m.
    by rewrite lookup_insert_eq.
Qed.

(** ** Manifest identifiers *)

Lemma sanitize_id_cons c s :
  sanitize_id (String c s) = String (if is_alnum c then c else "-"%char) (sanitize_id s).
Proof. unfold sanitize_id, is_alnum. cbn [replaceChars]. by destruct (_ || _). Qed.

Lemma sanitize_id_app s t : sanitize_id (s +:+ t) = sanitize_id s +:+ sanitize_id t.
Proof.
  induction s as [|c s IH]; [done|].
  rewrite append_cons, !sanitize_id_cons, append_cons. by f_equal.
Qed.

(** X6. A manifest identifier has the length of the path it is made from
    and holds letters, digits and hyphens only; letters and digits stay as
    they are; and two paths that differ only in characters that are neither
    get the same identifier. *)
Theorem sanitize_id_shape (path : string) :
  String.length (sanitize_id path) = String.length path
  ∧ Forall (λ c, is_alnum c = true ∨ c = "-"%char) (chars (sanitize_id path))
  ∧ (Forall (λ c, is_alnum c = true) (chars path) → sanitize_id path = path)
  ∧ (∀ s t c1 c2, is_alnum c1 = false → is_alnum c2 = false →
       sanitize_id (s +:+ String c1 t) = sanitize_id (s +:+ String c2 t)).
Proof.
  split_and!.
  - induction path as [|c s IH]; [done|]. rewrite sanitize_id_cons.
    cbn [String.length]. by rewrite IH.
  - induction path as [|c s IH]; [constructor|]. rewrite sanitize_id_cons.
    constructor; [|exact IH]. destruct (is_alnum c) eqn:Hc; by auto.
  - induction path as [|c s IH]; [done|]. intros Hs.
    apply Forall_cons in Hs as [Hc Hs]. rewrite sanitize_id_cons, Hc. by rewrite IH.
  - intros s t c1 c2 H1 H2. rewrite !sanitize_id_app, !sanitize_id_cons. by rewrite H1, H2.
Qed.

(** ** Generated file names *)

Lemma pretty_N_char_digit y : is_digit (pretty_N_char y) = true.
Proof. unfold pretty_N_char. by repeat case_match. Qed.

Lemma pretty_N_go_digits x : ∀ s,
  ∃ d, pretty_N_go x s = d +:+ s ∧ Forall (λ c, is_digit c = true) (chars d).
Proof.
  induction (N.lt_wf_0 x) as [x _ IH]; intros s.
  destruct (decide (x = 0)%N) as [->|Hx].
  - exists EmptyString. by rewrite pretty_N_go_0.
  - rewrite pretty_N_go_step by lia.
    destruct (IH (x `div` 10)%N) with (s := String (pretty_N_char (x `mod` 10)) s)
      as (d & -> & Hd); [apply N.div_lt; lia|].
    exists (d +:+ String (pretty_N_char (x `mod` 10)) EmptyString). split.
    + by rewrite append_assoc.
    + rewrite chars_app. apply Forall_app. split; [done|].
      constructor; [apply pretty_N_char_digit | constructor].
Qed.

Lemma pretty_N_digits (x : N) : Forall (λ c, is_digit c = true) (chars (pretty x)).
Proof.
  unfold pretty, pretty_N. destruct (decide (x = 0)%N); [by repeat constructor|].
  destruct (pretty_N_go_digits x EmptyString) as (d & -> & Hd).
  by rewrite append_nil_r.
Qed.

Lemma pretty_nat_digits (n : nat) : Forall (λ c, is_digit c = true) (chars (pretty n)).
Proof. apply pretty_N_digits. Qed.

Lemma pretty_Z_chars (z : Z) :
  Forall (λ c, is_digit c = true ∨ c = "-"%char) (chars (pretty z)).
Proof.
  destruct z as [|p|p].
  - repeat constructor.
  - change (pretty (Zpos p)) with (pretty (Npos p)).
    eapply Forall_impl; [apply (pretty_N_digits (Npos p))|]. by auto.
  - change (pretty (Zneg p)) with ("-" +:+ pretty (Npos p)).
    rewrite chars_app. apply Forall_app. split; [repeat constructor; by right|].
    eapply Forall_impl; [apply (pretty_N_digits (Npos p))|]. by auto.
Qed.

(** Two strings that agree up to and after the first occurrence of a
    character agree part by part. *)
Lemma cut_at_char c d1 : ∀ d2 r1 r2,
  Forall (λ x, x ≠ c) (chars d1) → Forall (λ x, x ≠ c) (chars d2) →
  d1 +:+ String c r1 = d2 +:+ String c r2 → d1 = d2 ∧ r1 = r2.
Proof.
  induction d1 as [|x d1 IH]; intros [|y d2] r1 r2 H1 H2 Heq.
  - rewrite !append_nil_l in Heq. by injection Heq.
  - rewrite append_nil_l, append_cons in Heq. injection Heq as <- _.
    apply Forall_cons in H2 as [H2 _]. done.
  - rewrite append_nil_l, append_cons in Heq. injection Heq as -> _.
    apply Forall_cons in H1 as [H1 _]. done.
  - rewrite !append_cons in Heq. injection Heq as -> Heq.
    apply Forall_cons in H1 as [_ H1]. apply Forall_cons in H2 as [_ H2].
    destruct (IH d2 r1 r2 H1 H2 Heq) as [-> ->]. done.
Qed.

Lemma digits_not c (s : string) :
  is_digit c = false → c ≠ "-"%char →
  Forall (λ x, is_digit x = true ∨ x = "-"%char) (chars s) →
  Forall (λ x, x ≠ c) (chars s).
Proof.
  intros Hc Hm Hs. eapply Forall_impl; [exact Hs|].
  intros x [Hx | Hx] Hxc; subst; [congruence | done].
Qed.

Lemma pretty_nat_not c (n : nat) :
  is_digit c = false → Forall (λ x, x ≠ c) (chars (pretty n)).
Proof.
  intros Hc. eapply Forall_impl; [apply pretty_nat_digits|].
  intros x Hx ->. congruence.
Qed.

Ltac strip_prefix H :=
  repeat rewrite append_cons in H; rewrite !append_nil_l in H;
  injection H as H.

Lemma image_filename_inj n m ext1 ext2 :
  image_filename n ext1 = image_filename m ext2 → n = m ∧ ext1 = ext2.
Proof.
  unfold image_filename. intros H. strip_prefix H.
  apply (cut_at_char "."%char) in H as [Hn He]; try by apply pretty_nat_not.
  split; [by apply (inj pretty) | done].
Qed.

Lemma chapter_filename_inj a b a' b' :
  chapter_filename a b = chapter_filename a' b' → a = a' ∧ b = b'.
Proof.
  unfold chapter_filename. intros H. strip_prefix H.
  apply (cut_at_char "_"%char) in H as [Ha H];
    try (apply digits_not; [done | done | apply pretty_Z_chars]).
  apply (cut_at_char "."%char) in H as [Hb _];
    try (apply digits_not; [done | done | apply pretty_Z_chars]).
  split; by apply (inj pretty).
Qed.

Lemma containerFile_of_inj a a' : containerFile_of a = containerFile_of a' → a = a'.
Proof.
  unfold containerFile_of. intros H. strip_prefix H.
  apply (cut_at_char "."%char) in H as [Ha _];
    try (apply digits_not; [done | done | apply pretty_Z_chars]).
  by apply (inj pretty).
Qed.

(** X7. The file names the program makes up collide only when the indices
    do: two chapter files are the same only for the same volume index and
    chapter index, two container files only for the same volume index, two
    image files only for the same counter value and extension; and a
    chapter file, a container file, an image file and the two cover files
    are never the same file. *)
Theorem generated_names_distinct :
  (∀ a b a' b', chapter_filename a b = chapter_filename a' b' ↔ a = a' ∧ b = b')
  ∧ (∀ a a', containerFile_of a = containerFile_of a' ↔ a = a')
  ∧ (∀ n m ext1 ext2,
       image_filename n ext1 = image_filename m ext2 ↔ n = m ∧ ext1 = ext2)
  ∧ (∀ a b c n ext,
       chapter_filename a b ≠ containerFile_of c
       ∧ chapter_filename a b ≠ image_filename n ext
       ∧ containerFile_of c ≠ image_filename n ext
       ∧ chapter_filename a b ≠ "cover.xhtml"
       ∧ chapter_filename a b ≠ "images/cover.jpg"
       ∧ containerFile_of c ≠ "cover.xhtml"
       ∧ containerFile_of c ≠ "images/cover.jpg"
       ∧ image_filename n ext ≠ "cover.xhtml"
       ∧ image_filename n ext ≠ "images/cover.jpg").
Proof.
  split_and!.
  - intros a b a' b'. split; [apply chapter_filename_inj | by intros [-> ->]].
  - intros a a'. split; [apply containerFile_of_inj | by intros ->].
  - intros n m ext1 ext2. split; [apply image_filename_inj | by intros [-> ->]].
  - intros a b c n ext.
    unfold chapter_filename, containerFile_of, image_filename.
    split_and!; intros H; repeat rewrite append_cons in H; discriminate.
Qed.

(** ** What [processImages] does to the document object *)

Lemma advance_images_0 e : advance_images e 0 = e.
Proof.
  unfold advance_images. destruct e as [r v m i u [ci cc co] ru cl]. cbn.
  by rewrite Nat.add_0_r.
Qed.

Lemma advance_images_S e n : advance_images (bump_image e) n = advance_images e (S n).
Proof.
  unfold advance_images, bump_image, with_resourceCounters. cbn.
  do 2 f_equal. lia.
Qed.

Lemma processImages_dom_state w doc : ∀ e,
  (processImages_dom w e doc).2
  = advance_images e (length (processImages_dom w e doc).1.2).
Proof.
  induction doc as [|[s|src] doc IH]; intros e; cbn [processImages_dom].
  - by rewrite advance_images_0.
  - specialize (IH e). by destruct (processImages_dom w e doc) as [[d rs] e'].
  - destruct (process_image w e src) as [| |u f b].
    + specialize (IH e). by destruct (processImages_dom w e doc) as [[d rs] e'].
    + apply IH.
    + specialize (IH (bump_image e)).
      destruct (processImages_dom w (bump_image e) doc) as [[d rs] e'].
      cbn [fst snd length] in *. by rewrite IH, advance_images_S.
Qed.

Lemma process_image_Stored_filename w e src url filename data :
  process_image w e src = Stored url filename data →
  ∃ ext, filename = image_filename (cnt_image (resourceCounters e)) ext.
Proof.
  unfold process_image. destruct src as [src|]; [|done].
  destruct (negb (truthy src) || _); [done|].
  destruct (negb (startsWith src "http")); [done|].
  destruct (fetch w (upgrade_url w src)) as [response|]; [|done].
  destruct (negb (resp_ok response)); [done|].
  intros [= <- <- <-]. by eauto.
Qed.

Lemma processImages_dom_paths w doc : ∀ e,
  Forall2 (λ k r, ∃ ext, staged_path r
                         = image_filename (cnt_image (resourceCounters e) + k) ext)
          (seq 0 (length (processImages_dom w e doc).1.2))
          (processImages_dom w e doc).1.2.
Proof.
  induction doc as [|[s|src] doc IH]; intros e; cbn [processImages_dom].
  - constructor.
  - specialize (IH e). by destruct (processImages_dom w e doc) as [[d rs] e'].
  - destruct (process_image w e src) as [| |u f b] eqn:Hp.
    + specialize (IH e). by destruct (processImages_dom w e doc) as [[d rs] e'].
    + apply IH.
    + specialize (IH (bump_image e)).
      destruct (processImages_dom w (bump_image e) doc) as [[d rs] e'].
      cbn [fst snd length seq] in *. constructor.
      * apply process_image_Stored_filename in Hp as [ext ->].
        exists ext. unfold staged_path. cbn. by rewrite Nat.add_0_r.
      * rewrite <- seq_shift. apply Forall2_fmap_l.
        eapply Forall2_impl; [exact IH|]. intros k r [ext Hr]. exists ext.
        rewrite Hr. cbn. f_equal. lia.
Qed.

Lemma Forall2_seq_lookup {A} (P : nat → A → Prop) (l : list A) :
  Forall2 P (seq 0 (length l)) l → ∀ i x, l !! i = Some x → P i x.
Proof.
  intros H i x Hx. rewrite Forall2_lookup in H. specialize (H i).
  rewrite Hx in H. inversion H as [k y Hk Hseq Heq|]; subst.
  symmetry in Hseq. apply lookup_seq in Hseq as [-> _]. done.
Qed.

(** X8. [processImages] reads the document object and changes one thing in
    it: the image counter, which advances by the number of images staged.
    The [k]-th staged image is named after the counter value [k] steps on,
    so the staged paths are pairwise different; and no more elements come
    out than went in. *)
Theorem processImages_counter (w : World) (e : EpubSaver) (doc : list Node) :
  let r := processImages_dom w e doc in
  r.2 = advance_images e (length r.1.2)
  ∧ Forall2 (λ k s, ∃ ext, staged_path s
                           = image_filename (cnt_image (resourceCounters e) + k) ext)
            (seq 0 (length r.1.2)) r.1.2
  ∧ NoDup (map staged_path r.1.2)
  ∧ (length r.1.1 ≤ length doc)%nat.
Proof.
  intros r. split_and!.
  - apply processImages_dom_state.
  - apply processImages_dom_paths.
  - pose proof (processImages_dom_paths w doc e) as H. fold r in H.
    apply NoDup_alt. intros i j p Hi Hj.
    apply list_lookup_fmap_Some in Hi as (si & -> & Hsi).
    apply list_lookup_fmap_Some in Hj as (sj & Heq & Hsj).
    destruct (Forall2_seq_lookup _ _ H i si Hsi) as [exti Hpi].
    destruct (Forall2_seq_lookup _ _ H j sj Hsj) as [extj Hpj].
    rewrite Hpi, Hpj in Heq. apply image_filename_inj in Heq as [Heq _]. lia.
  - unfold r. clear r. revert e.
    induction doc as [|[s|src] doc IH]; intros e; cbn [processImages_dom]; [done| |].
    + specialize (IH e). destruct (processImages_dom w e doc) as [[d rs] e'].
      cbn in *. lia.
    + destruct (process_image w e src) as [| |u f b].
      * specialize (IH e). destruct (processImages_dom w e doc) as [[d rs] e'].
        cbn in *. lia.
      * specialize (IH e). cbn. lia.
      * specialize (IH (bump_image e)).
        destruct (processImages_dom w (bump_image e) doc) as [[d rs] e'].
        cbn in *. lia.
Qed.

Lemma processImages_dom_passed_over w e doc :
  Forall (passed_over e) doc → processImages_dom w e doc = (doc, [], e).
Proof.
  induction 1 as [|[s|[url|]] doc Hn Hdoc IH]; cbn [processImages_dom]; [done| | |].
  - by rewrite IH.
  - assert (Hp : process_image w e (Some url) = Untouched).
    { unfold process_image. destruct Hn as [Ht|Hu].
      - by rewrite Ht.
      - rewrite (bool_decide_eq_true_2 _ Hu). by rewrite orb_true_r. }
    by rewrite Hp, IH.
  - by rewrite IH.
Qed.

(** X9. When every image element of the parsed fragment has no [src], an
    empty [src] or a [src] that is in the URL index, the walk over the
    nodes leaves the node list as it is, stages nothing and leaves the
    document object unchanged, whatever the network would answer; so
    [processImages] returns the serialization of the fragment as it was
    parsed (which need not be the text that was given), with nothing
    staged and the document object unchanged. *)
Theorem processImages_known_images (w : World) (e : EpubSaver) (doc : list Node) :
  Forall (passed_over e) doc →
  processImages_dom w e doc = (doc, [], e)
  ∧ (∀ content,
       parseFromString w content = doc →
       processImages w e content = (serializeToString w doc, [], e)).
Proof.
  intros H. split; [by apply processImages_dom_passed_over|].
  intros content <-. unfold processImages.
  by rewrite processImages_dom_passed_over.
Qed.

(** X10. On a page loaded over HTTPS no image is fetched over plain HTTP:
    no staged URL starts with [http://], and registering the staged
    resources leaves the URL index as it was at every key that starts with
    [http://]: the index is written under the upgraded URL, never under the
    [http://] source of the element. *)
Theorem secure_context_no_http (w : World) (e : EpubSaver) (doc : list Node) :
  secureContext w = true →
  let r := processImages_dom w e doc in
  Forall (λ s, startsWith (staged_url s) "http://" = false) r.1.2
  ∧ (∀ url, startsWith url "http://" = true →
            resourceUrls (registerResources r.2 r.1.2) !! url = resourceUrls e !! url).
Proof.
  intros Hsec r.
  assert (H : Forall (λ s, startsWith (staged_url s) "http://" = false) r.1.2).
  { eapply Forall_impl; [apply processImages_dom_staged|].
    intros s (src & response & Hup & _). unfold staged_url. rewrite Hup.
    by apply upgrade_url_secure. }
  split; [exact H|]. intros url Hurl.
  rewrite registerResources_lookup_other.
  - unfold r. by rewrite processImages_dom_resourceUrls.
  - eapply Forall_impl; [exact H|]. intros s Hs Heq. unfold staged_url in Hs.
    rewrite Heq in Hs. congruence.
Qed.

(** ** The resource table over the calls of the interface *)

Lemma resources_addResource_ext e1 e2 p b :
  resources e1 = resources e2 →
  resources (_addResource e1 p b) = resources (_addResource e2 p b).
Proof.
  intros H. unfold _addResource. rewrite H.
  by destruct (negb (JsMap.has (resources e2) p)); cbn; rewrite ?H.
Qed.

Lemma resources_register_all_ext regs : ∀ e1 e2,
  resources e1 = resources e2 →
  resources (register_all e1 regs) = resources (register_all e2 regs).
Proof.
  induction regs as [|[p b] regs IH]; intros e1 e2 H; [done|].
  change (register_all ?e ((p, b) :: regs))
    with (register_all (_addResource e p b) regs).
  apply IH. by apply resources_addResource_ext.
Qed.

Lemma registers_refl e : registers e e.
Proof. by exists []. Qed.

Lemma registers_same e e' : resources e' = resources e → registers e e'.
Proof. intros H. by exists []. Qed.

Lemma registers_trans e1 e2 e3 : registers e1 e2 → registers e2 e3 → registers e1 e3.
Proof.
  intros [r1 H1] [r2 H2]. exists (r1 ++ r2).
  rewrite register_all_app, H2. by apply resources_register_all_ext.
Qed.

Lemma registers_addResource e p b : registers e (_addResource e p b).
Proof. by exists [(p, b)]. Qed.

Lemma registers_registerResources rs : ∀ e, registers e (registerResources e rs).
Proof.
  induction rs as [|[[u p] b] rs IH]; intros e; [apply registers_refl|].
  unfold registerResources in *. cbn [foldl].
  eapply registers_trans; [|apply IH].
  eapply registers_trans; [|apply registers_addResource]. by apply registers_same.
Qed.

Lemma resources_advance_images e n : resources (advance_images e n) = resources e.
Proof. done. Qed.

Lemma registers_chapter_xhtml w e content title contentType insertTitle useGlobalCSS
    cssList :
  registers e
    (chapter_xhtml w e content title contentType insertTitle useGlobalCSS cssList).2.
Proof.
  rewrite chapter_xhtml_eq. cbv zeta. cbn [snd].
  eapply registers_trans; [|apply registers_registerResources].
  apply registers_same. by rewrite processImages_dom_state.
Qed.

Lemma registers_fetch_css_url w e url : registers e (fetch_css_url w e url).
Proof.
  unfold fetch_css_url. destruct (bool_decide _); [apply registers_refl|].
  destruct (fetch w url) as [response|]; [|apply registers_refl].
  eapply registers_trans; [|by apply registers_same].
  eapply registers_trans; [|apply registers_addResource]. by apply registers_same.
Qed.

Lemma registers_css_replacements w urls : ∀ e, registers e (css_replacements w e urls).2.
Proof.
  induction urls as [|url urls IH]; intros e; cbn [css_replacements].
  - apply registers_refl.
  - specialize (IH (fetch_css_url w e url)).
    destruct (css_replacements w (fetch_css_url w e url) urls) as [rs e2].
    eapply registers_trans; [apply registers_fetch_css_url | exact IH].
Qed.

Lemma registers_processCSSUrls w e css : registers e (processCSSUrls w e css).2.
Proof.
  unfold processCSSUrls.
  pose proof (registers_css_replacements w (cssUrlCaptures w css) e) as H.
  by destruct (css_replacements w e (cssUrlCaptures w css)) as [rs e1].
Qed.

Lemma registers_addCSS w e idx content filename mapname e' :
  addCSS w e idx content filename mapname = Some e' → registers e e'.
Proof.
  unfold addCSS.
  destruct (if startsWith content "http://" || startsWith content "https://"
            then _ else _) as [cssContent|]; [|done].
  cbn [mbind option_bind].
  pose proof (registers_processCSSUrls w e cssContent) as H1.
  destruct (processCSSUrls w e cssContent) as [css1 e1]. cbn [snd] in H1.
  destruct (truthy filename).
  - intros [= <-]. eapply registers_trans; [exact H1|].
    eapply registers_trans; [apply registers_addResource | by apply registers_same].
  - intros [= <-]. eapply registers_trans; [exact H1|].
    eapply registers_trans; [|by apply registers_same].
    eapply registers_trans; [|apply registers_addResource]. by apply registers_same.
Qed.

Lemma registers_createCSSMap_loop w entries : ∀ e maxIdx e',
  createCSSMap_loop w e maxIdx entries = Some e' → registers e e'.
Proof.
  induction entries as [|[mapname content] entries IH]; intros e maxIdx e';
    cbn [createCSSMap_loop].
  - intros [= <-]. apply registers_refl.
  - destruct (addCSS w e (maxIdx + 1) content mapname mapname) as [e1|] eqn:H1; [|done].
    cbn [mbind option_bind]. intros H2.
    eapply registers_trans; [by eapply registers_addCSS | by eapply IH].
Qed.

Lemma registers_register_cover e : registers e (register_cover e).
Proof.
  unfold register_cover. destruct (info_cover e); [|apply registers_refl].
  eapply registers_trans; apply registers_addResource.
Qed.

Lemma registers_call w e c e' : call w e c = Some e' → registers e e'.
Proof.
  destruct c as [tag value|title idx|ref idx content title contentType insertTitle
                 useGlobalCSS links|idx content filename mapname|entries|now];
    cbn [call].
  - unfold setInfo.
    destruct (String.eqb tag "cover"); [destruct value as [s|b]; [destruct (fetch w s)|]|];
      (try done); intros [= <-]; by apply registers_same.
  - intros [= <-]. unfold addVolume, new_Volume. cbn [snd].
    eapply registers_trans; [apply registers_addResource | by apply registers_same].
  - unfold addChapter. destruct (find_volume e ref) as [this|]; [|done].
    cbn [mbind option_bind].
    pose proof (registers_chapter_xhtml w e content title contentType insertTitle
                  useGlobalCSS links) as Hg.
    destruct (chapter_xhtml _ _ _ _ _ _ _ _) as [xhtml e2]. cbn [snd] in Hg.
    intros [= <-].
    eapply registers_trans; [exact Hg|].
    eapply registers_trans; [apply registers_addResource | by apply registers_same].
  - apply registers_addCSS.
  - apply registers_createCSSMap_loop.
  - intros [= <-]. change (save now e).2 with (gen_state (generate now e)).
    eapply registers_trans; [apply registers_register_cover|].
    apply registers_same. apply (resources_gen_state now e).
Qed.

Lemma register_all_appends regs : ∀ e,
  ∃ added, resources (register_all e regs) = resources e ++ added.
Proof.
  induction regs as [|[p b] regs IH]; intros e.
  - exists []. by rewrite app_nil_r.
  - change (register_all e ((p, b) :: regs))
      with (register_all (_addResource e p b) regs).
    destruct (IH (_addResource e p b)) as [added Ha].
    rewrite Ha. unfold _addResource.
    destruct (JsMap.has (resources e) p) eqn:Hp; cbn.
    + by exists added.
    + exists ((p, b) :: added). rewrite JsMapFacts.set_fresh by done.
      by rewrite <- app_assoc.
Qed.

Lemma get_app_Some (m added : JsMap.t bytes) p b :
  JsMap.get m p = Some b → JsMap.get (m ++ added) p = Some b.
Proof.
  induction m as [|[k v] m IH]; [done|]. cbn [app JsMap.get].
  by destruct (String.eqb k p).
Qed.

(** X11. No call of the interface changes or removes what the resource
    table holds: the table after a call is the table before it, with the
    same entries in the same order, followed by the new ones; a path keeps
    its bytes through every call. *)
Theorem call_appends_to_table (w : World) (e : EpubSaver) (c : Call) (e' : EpubSaver) :
  call w e c = Some e' →
  (∃ added, resources e' = resources e ++ added)
  ∧ (∀ path b, JsMap.get (resources e) path = Some b →
               JsMap.get (resources e') path = Some b).
Proof.
  intros [regs Hregs]%registers_call.
  destruct (register_all_appends regs e) as [added Ha].
  rewrite Ha in Hregs. split; [by exists added|].
  intros path b Hb. rewrite Hregs. by apply get_app_Some.
Qed.

Lemma reachable_NoDup w e : reachable w e → NoDup (JsMap.keys (resources e)).
Proof.
  induction 1 as [uuid | e c e' _ IH Hcall].
  - constructor.
  - apply registers_call in Hcall as [regs ->]. by apply NoDup_keys_register_all.
Qed.

Lemma run_registers w calls : ∀ e e', run w e calls = Some e' → registers e e'.
Proof.
  induction calls as [|c calls IH]; intros e e'; cbn [run].
  - intros [= <-]. apply registers_refl.
  - destruct (call w e c) as [e1|] eqn:Hc; [|done]. cbn [mbind option_bind].
    intros H. eapply registers_trans; [by eapply registers_call | by apply IH].
Qed.

(** X12. In a document built by calls of the interface the resource table
    has each path once, and what a run of calls leaves under a path that
    was in the table before the run is what was there. *)
Theorem reachable_table_unique (w : World) (e : EpubSaver) (calls : list Call)
    (e' : EpubSaver) :
  reachable w e →
  run w e calls = Some e' →
  NoDup (JsMap.keys (resources e))
  ∧ NoDup (JsMap.keys (resources e'))
  ∧ (∀ path, JsMap.has (resources e) path = true →
             JsMap.get (resources e') path = JsMap.get (resources e) path).
Proof.
  intros Hr Hrun. split_and!.
  - by eapply reachable_NoDup.
  - eapply reachable_NoDup. by eapply run_reachable.
  - intros path Hp. apply run_registers in Hrun as [regs ->].
    rewrite get_register_all. unfold JsMap.has in Hp.
    by destruct (JsMap.get (resources e) path).
Qed.

(** ** The URL index and the table *)

Lemma index_backed_grows e e' :
  grows e e' → resourceUrls e' = resourceUrls e → index_backed e → index_backed e'.
Proof.
  intros [Hg _] Hu Hi url path. rewrite Hu. intros H. by apply Hg, (Hi url).
Qed.

Lemma index_backed_register e u p b :
  index_backed e →
  index_backed (_addResource (with_resourceUrls e (<[u := p]> (resourceUrls e))) p b).
Proof.
  intros Hi url path. rewrite resourceUrls_addResource.
  change (resourceUrls (with_resourceUrls e (<[u:=p]> (resourceUrls e))))
    with (<[u:=p]> (resourceUrls e)).
  destruct (decide (u = url)) as [->|Hne].
  - rewrite lookup_insert_eq. intros [= <-]. apply has_addResource_same.
  - rewrite lookup_insert_ne by done. intros H.
    apply has_addResource_mono. by apply (Hi url).
Qed.

Lemma index_backed_registerResources rs : ∀ e,
  index_backed e → index_backed (registerResources e rs).
Proof.
  induction rs as [|[[u p] b] rs IH]; intros e Hi; [done|].
  unfold registerResources in *. cbn [foldl]. by apply IH, index_backed_register.
Qed.

Lemma index_backed_chapter_xhtml w e content title contentType insertTitle useGlobalCSS
    cssList :
  index_backed e →
  index_backed
    (chapter_xhtml w e content title contentType insertTitle useGlobalCSS cssList).2.
Proof.
  intros Hi. rewrite chapter_xhtml_eq. cbv zeta. cbn [snd].
  apply index_backed_registerResources.
  eapply index_backed_grows; [apply grows_processImages_dom | | exact Hi].
  apply processImages_dom_resourceUrls.
Qed.

Lemma index_backed_fetch_css_url w e url :
  index_backed e → index_backed (fetch_css_url w e url).
Proof.
  intros Hi. unfold fetch_css_url. destruct (bool_decide _); [done|].
  destruct (fetch w url) as [response|]; [|done].
  set (filename := "resources/res" +:+ _).
  intros u path.
  change (resourceUrls (with_resourceUrls ?e ?m)) with m.
  rewrite resourceUrls_addResource.
  change (resourceUrls (bump_other e)) with (resourceUrls e).
  change (stored (with_resourceUrls ?e1 ?m) path) with (stored e1 path).
  destruct (decide (url = u)) as [->|Hne].
  - rewrite lookup_insert_eq. intros [= <-]. apply has_addResource_same.
  - rewrite lookup_insert_ne by done. intros H. apply has_addResource_mono.
    by apply (Hi u).
Qed.

Lemma index_backed_css_replacements w urls : ∀ e,
  index_backed e → index_backed (css_replacements w e urls).2.
Proof.
  induction urls as [|url urls IH]; intros e Hi; cbn [css_replacements]; [done|].
  specialize (IH (fetch_css_url w e url) (index_backed_fetch_css_url w e url Hi)).
  by destruct (css_replacements w (fetch_css_url w e url) urls) as [rs e2].
Qed.

Lemma index_backed_addCSS w e idx content filename mapname e' :
  addCSS w e idx content filename mapname = Some e' → index_backed e → index_backed e'.
Proof.
  unfold addCSS.
  destruct (if startsWith content "http://" || startsWith content "https://"
            then _ else _) as [cssContent|]; [|done].
  cbn [mbind option_bind]. unfold processCSSUrls.
  pose proof (index_backed_css_replacements w (cssUrlCaptures w cssContent) e) as H1.
  destruct (css_replacements w e (cssUrlCaptures w cssContent)) as [rs e1].
  cbn [snd] in H1.
  destruct (truthy filename); intros [= <-] Hi; specialize (H1 Hi).
  - eapply index_backed_grows; [| |exact H1].
    + eapply grows_trans; [apply grows_addResource | by apply grows_same].
    + apply resourceUrls_addResource.
  - eapply index_backed_grows; [| |exact H1].
    + eapply grows_trans; [|by apply grows_same].
      eapply grows_trans; [|apply grows_addResource]. by apply grows_same.
    + change (resourceUrls (with_css ?e ?l ?m)) with (resourceUrls e).
      by rewrite resourceUrls_addResource.
Qed.

Lemma index_backed_createCSSMap_loop w entries : ∀ e maxIdx e',
  createCSSMap_loop w e maxIdx entries = Some e' → index_backed e → index_backed e'.
Proof.
  induction entries as [|[mapname content] entries IH]; intros e maxIdx e';
    cbn [createCSSMap_loop].
  - by intros [= <-].
  - destruct (addCSS w e (maxIdx + 1) content mapname mapname) as [e1|] eqn:H1; [|done].
    cbn [mbind option_bind]. intros H2 Hi.
    eapply IH; [exact H2|]. by eapply index_backed_addCSS.
Qed.

Lemma index_backed_call w e c e' : call w e c = Some e' → index_backed e → index_backed e'.
Proof.
  destruct c as [tag value|title idx|ref idx content title contentType insertTitle
                 useGlobalCSS links|idx content filename mapname|entries|now];
    cbn [call].
  - unfold setInfo.
    destruct (String.eqb tag "cover"); [destruct value as [s|b]; [destruct (fetch w s)|]|];
      (try done); intros [= <-] Hi; exact Hi.
  - intros [= <-] Hi. unfold addVolume, new_Volume. cbn [snd].
    intros url path.
    change (resourceUrls (with_volumes ?e ?v)) with (resourceUrls e).
    change (stored (with_volumes ?e1 ?v) path) with (stored e1 path).
    rewrite resourceUrls_addResource. intros H.
    apply has_addResource_mono. by apply (Hi url).
  - unfold addChapter. destruct (find_volume e ref) as [this|]; [|done].
    cbn [mbind option_bind].
    pose proof (index_backed_chapter_xhtml w e content title contentType insertTitle
                  useGlobalCSS links) as Hg.
    destruct (chapter_xhtml _ _ _ _ _ _ _ _) as [xhtml e2]. cbn [snd] in Hg.
    intros [= <-] Hi. specialize (Hg Hi).
    intros url path.
    change (resourceUrls (with_volumes ?e ?v)) with (resourceUrls e).
    change (stored (with_volumes ?e1 ?v) path) with (stored e1 path).
    rewrite resourceUrls_addResource. intros H.
    apply has_addResource_mono. by apply (Hg url).
  - apply index_backed_addCSS.
  - apply index_backed_createCSSMap_loop.
  - intros [= <-] Hi url path.
    change (resourceUrls (register_cover e) !! url = Some path
            → stored (register_cover e) path).
    assert (Hu : resourceUrls (register_cover e) = resourceUrls e).
    { unfold register_cover. destruct (info_cover e); [|done].
      by rewrite !resourceUrls_addResource. }
    rewrite Hu. intros H. apply grows_register_cover. by apply (Hi url).
Qed.

(** X13. In a document built by calls of the interface, every local path
    the URL index gives for an external URL is a key of the resource
    table. *)
Theorem url_index_backed (w : World) (e : EpubSaver) (url path : string) :
  reachable w e →
  resourceUrls e !! url = Some path →
  JsMap.has (resources e) path = true.
Proof.
  intros Hr. revert url path. change (index_backed e).
  induction Hr as [uuid | e c e' _ IH Hcall].
  - intros url path.
    change (resourceUrls (new_EpubSaver uuid)) with (∅ : gmap string string).
    by rewrite lookup_empty.
  - by eapply index_backed_call.
Qed.

(** ** Volume handles *)

Lemma keeps_volumes_same e e' : volumes e' = volumes e → keeps_volumes e e'.
Proof. intros H v Hv. exists v. rewrite H. by repeat split. Qed.

Lemma keeps_volumes_trans e1 e2 e3 :
  keeps_volumes e1 e2 → keeps_volumes e2 e3 → keeps_volumes e1 e3.
Proof.
  intros H1 H2 v Hv. destruct (H1 v Hv) as (v' & Hv' & H12).
  destruct (H2 v' Hv') as (v'' & Hv'' & H23). exists v''. split; [done|].
  unfold same_volume in *. destruct H12 as (? & ? & ? & ?), H23 as (? & ? & ? & ?).
  split_and!; congruence.
Qed.

Lemma map_vol_ref_push ref c vs : map vol_ref (push_chapter ref c vs) = map vol_ref vs.
Proof.
  unfold push_chapter. rewrite map_map. apply map_ext.
  intros v. by destruct (Nat.eqb (vol_ref v) ref).
Qed.

Lemma map_vol_ref_sort_catalog vs : map vol_ref (sort_catalog vs) ≡ₚ map vol_ref vs.
Proof.
  unfold sort_catalog. rewrite map_map.
  change (map (λ x, vol_ref (sort_chapters x))) with (map vol_ref).
  apply Permutation_map, sort_by_Permutation.
Qed.

Lemma volumes_sorted_step e e' :
  volumes e' = sort_catalog (volumes e) →
  (keeps_volumes e e' ∧ (length (volumes e) ≤ length (volumes e'))%nat)
  ∧ (refs_ok e → refs_ok e').
Proof.
  intros Hv.
  assert (Hlen : length (sort_catalog (volumes e)) = length (volumes e)).
  { unfold sort_catalog. rewrite length_map.
    apply Permutation_length, sort_by_Permutation. }
  unfold keeps_volumes, refs_ok. rewrite Hv, Hlen. split; [split|].
  - intros v Hin. exists (sort_chapters v). split; [|done].
    unfold sort_catalog. apply in_map.
    apply (Permutation_in _ (Permutation_sym (sort_by_Permutation vol_idx (volumes e)))).
    exact Hin.
  - done.
  - intros Hok. by rewrite map_vol_ref_sort_catalog.
Qed.

Lemma volumes_call w e c e' :
  call w e c = Some e' →
  (keeps_volumes e e' ∧ (length (volumes e) ≤ length (volumes e'))%nat)
  ∧ (refs_ok e → refs_ok e').
Proof.
  assert (Hsame : ∀ e', volumes e' = volumes e →
            (keeps_volumes e e' ∧ (length (volumes e) ≤ length (volumes e'))%nat)
            ∧ (refs_ok e → refs_ok e')).
  { intros e1 H. split; [split; [by apply keeps_volumes_same | by rewrite H]|].
    unfold refs_ok. by rewrite H. }
  destruct c as [tag value|title idx|ref idx content title contentType insertTitle
                 useGlobalCSS links|idx content filename mapname|entries|now];
    cbn [call].
  - unfold setInfo.
    destruct (String.eqb tag "cover"); [destruct value as [s|b]; [destruct (fetch w s)|]|];
      (try done); intros [= <-]; by apply Hsame.
  - intros [= <-]. unfold addVolume, new_Volume. cbn [snd].
    cbn [volumes with_volumes]. rewrite volumes_addResource.
    split; [split|].
    + intros v Hv. exists v. split; [apply in_or_app; by left | by repeat split].
    + rewrite length_app. lia.
    + unfold refs_ok. intros Hok. cbn [volumes with_volumes].
      rewrite map_app, length_app. cbn [map length vol_ref].
      rewrite Nat.add_1_r, seq_S. cbn [Nat.add]. by rewrite Hok.
  - unfold addChapter. destruct (find_volume e ref) as [this|]; [|done].
    cbn [mbind option_bind].
    pose proof (grows_chapter_xhtml w e content title contentType insertTitle
                  useGlobalCSS links) as [_ Hv].
    destruct (chapter_xhtml _ _ _ _ _ _ _ _) as [xhtml e2]. cbn [snd] in Hv.
    intros [= <-]. cbn [volumes with_volumes]. rewrite volumes_addResource, Hv.
    split; [split|].
    + intros v Hin. eexists. split; [apply in_map, Hin|].
      by destruct (Nat.eqb (vol_ref v) ref).
    + unfold push_chapter. by rewrite length_map.
    + unfold refs_ok. cbn [volumes with_volumes].
      rewrite ?volumes_addResource, ?Hv, map_vol_ref_push.
      unfold push_chapter. by rewrite length_map.
  - intros H%grows_addCSS. apply Hsame, H.
  - intros H%grows_createCSSMap_loop. apply Hsame, H.
  - intros H. assert (e' = (save now e).2) as -> by congruence. clear H.
    apply volumes_sorted_step. apply (generate_lists now e).
Qed.

Lemma reachable_refs_ok w e : reachable w e → refs_ok e.
Proof.
  induction 1 as [uuid | e c e' _ IH Hcall]; [apply perm_nil|].
  by apply (volumes_call w e c e' Hcall).
Qed.

Lemma run_keeps_volumes w calls : ∀ e e',
  run w e calls = Some e' → keeps_volumes e e'.
Proof.
  induction calls as [|c calls IH]; intros e e'; cbn [run].
  - intros [= <-]. by apply keeps_volumes_same.
  - destruct (call w e c) as [e1|] eqn:Hc; [|done]. cbn [mbind option_bind].
    intros H. eapply keeps_volumes_trans; [|by apply IH].
    by apply (volumes_call w e c e1 Hc).
Qed.

Lemma find_volume_Some e ref v :
  find_volume e ref = Some v → In v (volumes e) ∧ vol_ref v = ref.
Proof.
  unfold find_volume. intros [Hin Heq]%find_some. split; [done|].
  by apply Nat.eqb_eq.
Qed.

Lemma find_volume_In e v : In v (volumes e) → is_Some (find_volume e (vol_ref v)).
Proof.
  intros Hin. unfold find_volume.
  destruct (find _ (volumes e)) as [v'|] eqn:Hf; [by eauto|].
  eapply find_none in Hf; [|exact Hin]. by rewrite Nat.eqb_refl in Hf.
Qed.

Lemma NoDup_map_inj_In {A B} (f : A → B) (l : list A) a b :
  NoDup (map f l) → In a l → In b l → f a = f b → a = b.
Proof.
  induction l as [|x l IH]; [done|]. cbn [map].
  intros [Hx Hl]%NoDup_cons [->|Ha] [->|Hb] Hf; try done.
  - destruct Hx. apply list_elem_of_In. rewrite Hf. by apply in_map.
  - destruct Hx. apply list_elem_of_In. rewrite <- Hf. by apply in_map.
  - by apply IH.
Qed.

(** X14. A handle that [addVolume] returned stays good: after any run of
    calls that return, among them [save], which sorts the volumes in place,
    the handle finds one volume, with the index, the title and the
    container file it was made with, and [addChapter] on it returns. *)
Theorem handle_stays_valid (w : World) (e : EpubSaver) (title : string) (idx : Z)
    (calls : list Call) (e' : EpubSaver) :
  reachable w e →
  run w (addVolume e title idx).2 calls = Some e' →
  let ref := vol_ref (addVolume e title idx).1 in
  (∃ v, find_volume e' ref = Some v
        ∧ vol_idx v = idx ∧ vol_title v = title
        ∧ vol_containerFile v = containerFile_of idx)
  ∧ (∀ i content t contentType insertTitle useGlobalCSS cssList,
       is_Some (addChapter w e' ref i content t contentType insertTitle
                  useGlobalCSS cssList)).
Proof.
  intros Hr Hrun ref.
  assert (Hr1 : reachable w (addVolume e title idx).2).
  { eapply reachable_call; [exact Hr|]. by instantiate (1 := CallAddVolume title idx). }
  assert (Hr' : reachable w e') by (by eapply run_reachable).
  assert (Hin : In (addVolume e title idx).1 (volumes (addVolume e title idx).2)).
  { unfold addVolume, new_Volume. cbn [fst snd volumes with_volumes].
    apply in_or_app. right. by left. }
  destruct (run_keeps_volumes w calls _ _ Hrun _ Hin) as (v' & Hv' & Href & Hidx & Ht & Hc).
  assert (Hfind : is_Some (find_volume e' ref)).
  { unfold ref. rewrite <- Href. by apply find_volume_In. }
  split.
  - destruct Hfind as [v Hv]. exists v. split; [done|].
    destruct (find_volume_Some _ _ _ Hv) as [Hvin Hvref].
    assert (v = v') as ->.
    { eapply (NoDup_map_inj_In vol_ref (volumes e')); try done.
      - pose proof (reachable_refs_ok w e' Hr') as Hok. unfold refs_ok in Hok.
        rewrite Hok. apply NoDup_seq.
      - by rewrite Hvref, Href. }
    by rewrite Hidx, Ht, Hc.
  - intros. by apply addChapter_is_Some.
Qed.

(** ** Chapters and volumes with an index that is in use *)

Lemma get_registerResources_other p rs : ∀ e,
  Forall (λ r, staged_path r ≠ p) rs →
  JsMap.get (resources (registerResources e rs)) p = JsMap.get (resources e) p.
Proof.
  induction rs as [|[[u q] b] rs IH]; intros e Hrs; [done|].
  apply Forall_cons in Hrs as [Hq Hrs]. unfold staged_path in Hq. cbn in Hq.
  unfold registerResources in *. cbn [foldl]. rewrite IH by done.
  rewrite get_addResource.
  change (resources (with_resourceUrls e _)) with (resources e).
  destruct (JsMap.get (resources e) p); [done|].
  by destruct (String.eqb_spec q p).
Qed.

Lemma processImages_dom_image_paths w doc : ∀ e,
  Forall (λ r, ∃ n ext, staged_path r = image_filename n ext)
         (processImages_dom w e doc).1.2.
Proof.
  induction doc as [|[s|src] doc IH]; intros e; cbn [processImages_dom]; [done| |].
  - specialize (IH e). by destruct (processImages_dom w e doc) as [[d rs] e'].
  - destruct (process_image w e src) as [| |u f b] eqn:Hp.
    + specialize (IH e). by destruct (processImages_dom w e doc) as [[d rs] e'].
    + apply IH.
    + specialize (IH (bump_image e)).
      destruct (processImages_dom w (bump_image e) doc) as [[d rs] e'].
      cbn [fst snd] in *. constructor; [|done].
      apply process_image_Stored_filename in Hp as [ext ->]. by eauto.
Qed.

Lemma chapter_not_image a b n ext : image_filename n ext ≠ chapter_filename a b.
Proof.
  unfold chapter_filename, image_filename. intros H.
  repeat rewrite append_cons in H. discriminate.
Qed.

Lemma find_push_chapter ref c vs :
  find (λ v, Nat.eqb (vol_ref v) ref) (push_chapter ref c vs)
  = (λ v, with_chapter v c) <$> find (λ v, Nat.eqb (vol_ref v) ref) vs.
Proof.
  induction vs as [|v vs IH]; [done|]. cbn [push_chapter map find].
  destruct (Nat.eqb (vol_ref v) ref) eqn:Hv; cbn [vol_ref]; rewrite Hv; [done|].
  exact IH.
Qed.

(** X15. [addChapter] always appends a chapter record to its volume, named
    after the index of the volume and of the chapter; the chapter document
    is stored under that name only when the name is free.  So a second
    chapter with the index of an earlier one in a volume, or in a volume
    with the same index, is listed with its own title but with the document
    of the first. *)
Theorem addChapter_same_index (w : World) (e : EpubSaver) (ref : nat) (idx : Z)
    (content title contentType : string) (insertTitle useGlobalCSS : bool)
    (cssList : list Z) (v : Volume) (e' : EpubSaver) :
  find_volume e ref = Some v →
  addChapter w e ref idx content title contentType insertTitle useGlobalCSS cssList
  = Some e' →
  let filename := chapter_filename (vol_idx v) idx in
  let xhtml :=
    (chapter_xhtml w e content title contentType insertTitle useGlobalCSS cssList).1 in
  JsMap.get (resources e') filename
  = Some (default (encode (render xhtml)) (JsMap.get (resources e) filename))
  ∧ find_volume e' ref
    = Some (with_chapter v {| chap_idx := idx; chap_title := title;
                              chap_filename := filename |}).
Proof.
  intros Hv. unfold addChapter. rewrite Hv. cbn [mbind option_bind].
  pose proof (grows_chapter_xhtml w e content title contentType insertTitle
                useGlobalCSS cssList) as [_ Hvol].
  assert (Hget : JsMap.get
                   (resources (chapter_xhtml w e content title contentType insertTitle
                                 useGlobalCSS cssList).2)
                   (chapter_filename (vol_idx v) idx)
                 = JsMap.get (resources e) (chapter_filename (vol_idx v) idx)).
  { rewrite chapter_xhtml_eq. cbv zeta. cbn [snd].
    rewrite get_registerResources_other.
    - by rewrite processImages_dom_state.
    - eapply Forall_impl; [apply processImages_dom_image_paths|].
      intros r (n & ext & ->). apply chapter_not_image. }
  destruct (chapter_xhtml _ _ _ _ _ _ _ _) as [xhtml e2]. cbn [fst snd] in *.
  intros H. assert (e' = with_volumes
                           (_addResource e2 (chapter_filename (vol_idx v) idx)
                              (encode (render xhtml)))
                           (push_chapter ref
                              {| chap_idx := idx; chap_title := title;
                                 chap_filename := chapter_filename (vol_idx v) idx |}
                              (volumes (_addResource e2 (chapter_filename (vol_idx v) idx)
                                          (encode (render xhtml))))))
    as -> by congruence.
  clear H. split.
  - change (resources (with_volumes ?e ?vs)) with (resources e).
    rewrite get_addResource, Hget, String.eqb_refl.
    by destruct (JsMap.get (resources e) (chapter_filename (vol_idx v) idx)).
  - unfold find_volume in *. cbn [volumes with_volumes].
    by rewrite volumes_addResource, Hvol, find_push_chapter, Hv.
Qed.

(** X16. [addVolume] appends a volume without chapters whose identity is
    the count of the volumes before it, and stores its container document
    only when no volume of that index was made before: a second volume with
    an index that is in use leaves the table as it is, and the two share
    the container document, which bears the title of the first. *)
Theorem addVolume_same_index (e : EpubSaver) (title title' : string) (idx : Z) :
  let r := addVolume e title idx in
  let r' := addVolume r.2 title' idx in
  volumes r.2 = volumes e ++ [r.1]
  ∧ r.1 = {| vol_ref := length (volumes e); vol_title := title; vol_idx := idx;
             vol_chapters := []; vol_containerFile := containerFile_of idx |}
  ∧ JsMap.get (resources r.2) (containerFile_of idx)
    = Some (default (encode (render (volume_container_doc title)))
              (JsMap.get (resources e) (containerFile_of idx)))
  ∧ resources r'.2 = resources r.2
  ∧ vol_containerFile r'.1 = vol_containerFile r.1
  ∧ vol_ref r'.1 ≠ vol_ref r.1.
Proof.
  intros r r'. unfold r', r, addVolume, new_Volume. cbn [fst snd vol_containerFile vol_ref].
  cbn [volumes with_volumes]. rewrite !volumes_addResource.
  change (resources (with_volumes ?e ?vs)) with (resources e).
  split_and!; try done.
  - rewrite get_addResource, String.eqb_refl.
    by destruct (JsMap.get (resources e) (containerFile_of idx)).
  - rewrite addResource_present; [done|].
    change (resources (with_volumes ?e ?vs)) with (resources e).
    apply has_addResource_same.
  - rewrite length_app. cbn [length]. lia.
Qed.

(** ** Style sheets *)

Lemma same_styles_addResource e p b : same_styles e (_addResource e p b).
Proof. unfold same_styles, _addResource. by destruct (negb _). Qed.

Lemma same_styles_trans e1 e2 e3 : same_styles e1 e2 → same_styles e2 e3 → same_styles e1 e3.
Proof. intros (? & ? & ?) (? & ? & ?). split_and!; congruence. Qed.

Lemma same_styles_fetch_css_url w e url : same_styles e (fetch_css_url w e url).
Proof.
  unfold fetch_css_url. destruct (bool_decide _); [done|].
  destruct (fetch w url) as [response|]; [|done].
  destruct (same_styles_addResource (bump_other e)
              ("resources/res" +:+ pretty (cnt_other (resourceCounters e)) +:+ "."
               +:+ css_resource_ext url) (resp_body response)) as (H1 & H2 & H3).
  split_and!; [exact H1 | exact H2 | exact H3].
Qed.

Lemma same_styles_css_replacements w urls : ∀ e,
  same_styles e (css_replacements w e urls).2.
Proof.
  induction urls as [|url urls IH]; intros e; cbn [css_replacements]; [done|].
  specialize (IH (fetch_css_url w e url)).
  destruct (css_replacements w (fetch_css_url w e url) urls) as [rs e2].
  eapply same_styles_trans; [apply same_styles_fetch_css_url | exact IH].
Qed.

Lemma addCSS_styles w e idx content filename mapname e' :
  addCSS w e idx content filename mapname = Some e' →
  cssList e' = cssList e ++ [{| css_idx := idx; css_filename := css_name e filename;
                                css_mapname := mapname |}]
  ∧ cssMap e' = (if truthy mapname then <[mapname := idx]> (cssMap e) else cssMap e)
  ∧ JsMap.has (resources e') (css_name e filename) = true.
Proof.
  unfold addCSS, css_name.
  destruct (if startsWith content "http://" || startsWith content "https://"
            then _ else _) as [cssContent|]; [|done].
  cbn [mbind option_bind]. unfold processCSSUrls.
  pose proof (same_styles_css_replacements w (cssUrlCaptures w cssContent) e)
    as (Hl & Hm & Hc).
  destruct (css_replacements w e (cssUrlCaptures w cssContent)) as [rs e1].
  cbn [snd] in *.
  destruct (truthy filename); intros [= <-].
  - destruct (same_styles_addResource e1 filename
                (encode (foldl (λ acc r, replaceAllLiteral w r.1 r.2 acc) cssContent rs)))
      as (Hl' & Hm' & _).
    cbn [cssList cssMap with_css]. rewrite Hl', Hm', Hl, Hm. split_and!; [done..|].
    apply has_addResource_same.
  - set (name := "Styles/style" +:+ pretty (cnt_css (resourceCounters e1)) +:+ ".css").
    destruct (same_styles_addResource (bump_css e1) name
                (encode (foldl (λ acc r, replaceAllLiteral w r.1 r.2 acc) cssContent rs)))
      as (Hl' & Hm' & _).
    cbn [cssList cssMap with_css]. rewrite Hl', Hm'.
    change (cssList (bump_css e1)) with (cssList e1).
    change (cssMap (bump_css e1)) with (cssMap e1).
    unfold name. rewrite Hl, Hm, Hc. split_and!; [done..|].
    rewrite <- Hc. apply has_addResource_same.
Qed.

Lemma find_app_first {A} (p : A → bool) (l1 l2 : list A) :
  find p (l1 ++ l2) = match find p l1 with Some x => Some x | None => find p l2 end.
Proof. induction l1 as [|x l1 IH]; cbn [app find]; [done|]. by destruct (p x). Qed.

Lemma find_none_all {A} (p : A → bool) (l : list A) :
  (∀ x, In x l → p x = false) → find p l = None.
Proof.
  induction l as [|x l IH]; intros H; cbn [find]; [done|].
  rewrite (H x) by (by left). apply IH. intros y Hy. apply H. by right.
Qed.

Lemma find_css_app_one (l : list StyleSheet) c idx :
  find (λ x, css_idx x =? idx) (l ++ [c])
  = match find (λ x, css_idx x =? idx) l with
    | Some old => Some old
    | None => if css_idx c =? idx then Some c else None
    end.
Proof.
  induction l as [|x l IH]; cbn [app find]; [done|].
  by destruct (css_idx x =? idx).
Qed.

(** X17. [addCSS] appends one style sheet, under the file name given or,
    without one, under [Styles/style<n>.css] for the style counter [n], and
    that file is then in the table.  A chapter asking for an index gets the
    first style sheet added with it: a style sheet added with an index that
    is in use is never linked, while the map of names sends its name to
    that index all the same. *)
Theorem addCSS_first_index_wins (w : World) (e : EpubSaver) (idx : Z)
    (content filename mapname : string) (e' : EpubSaver) :
  addCSS w e idx content filename mapname = Some e' →
  let sheet := {| css_idx := idx; css_filename := css_name e filename;
                  css_mapname := mapname |} in
  cssList e' = cssList e ++ [sheet]
  ∧ JsMap.has (resources e') (css_name e filename) = true
  ∧ find_css e' idx = Some (default sheet (find_css e idx))
  ∧ (∀ j, j ≠ idx → find_css e' j = find_css e j)
  ∧ (truthy mapname = true → cssMap e' !! mapname = Some idx).
Proof.
  intros (Hl & Hm & Hs)%addCSS_styles sheet.
  split_and!; [done | done | | |].
  - unfold find_css. rewrite Hl, find_css_app_one. cbn [css_idx]. rewrite Z.eqb_refl.
    by destruct (find _ (cssList e)).
  - intros j Hj. unfold find_css. rewrite Hl, find_css_app_one. cbn [css_idx].
    destruct (find _ (cssList e)); [done|].
    by destruct (Z.eqb_spec idx j).
  - intros Ht. rewrite Hm, Ht. by rewrite lookup_insert_eq.
Qed.

Lemma max_css_idx_ge e : Forall (λ c, css_idx c ≤ max_css_idx e) (cssList e) ∧ 0 ≤ max_css_idx e.
Proof.
  unfold max_css_idx. induction (cssList e) as [|c l [IH1 IH2]]; cbn [map foldr].
  - by split.
  - split; [|lia]. constructor; [lia|].
    eapply Forall_impl; [exact IH1|]. intros x Hx. cbn in Hx. lia.
Qed.

Lemma createCSSMap_loop_styles w entries : ∀ e maxIdx e',
  createCSSMap_loop w e maxIdx entries = Some e' →
  ∃ sheets,
    cssList e' = cssList e ++ sheets
    ∧ map css_idx sheets = map (λ k, maxIdx + 1 + Z.of_nat k) (seq 0 (length entries))
    ∧ map css_mapname sheets = map fst entries.
Proof.
  induction entries as [|[mapname content] entries IH]; intros e maxIdx e';
    cbn [createCSSMap_loop].
  - intros [= <-]. exists []. by rewrite app_nil_r.
  - destruct (addCSS w e (maxIdx + 1) content mapname mapname) as [e1|] eqn:H1; [|done].
    cbn [mbind option_bind]. intros H2.
    apply addCSS_styles in H1 as (Hl & _ & _).
    apply IH in H2 as (sheets & Hl' & Hidx & Hnames).
    eexists (_ :: sheets). split_and!.
    + rewrite Hl', Hl, <- app_assoc. done.
    + cbn [map length seq css_idx]. f_equal; [lia|].
      rewrite Hidx, <- seq_shift, map_map. apply map_ext. intros k. lia.
    + cbn [map css_mapname fst]. by rewrite Hnames.
Qed.

(** X18. [createCSSMap] appends one style sheet per entry, in the order of
    the entries and under their names, with the indices that follow the
    largest index in use (or 0): each new index is above every index that
    was in use and the new indices differ, so each new style sheet is the
    one a chapter gets for its index, and the style sheets that were there
    are found as before. *)
Theorem createCSSMap_fresh_indices (w : World) (e : EpubSaver)
    (entries : list (string * string)) (e' : EpubSaver) :
  createCSSMap w e entries = Some e' →
  ∃ sheets,
    cssList e' = cssList e ++ sheets
    ∧ map css_idx sheets
      = map (λ k, max_css_idx e + 1 + Z.of_nat k) (seq 0 (length entries))
    ∧ map css_mapname sheets = map fst entries
    ∧ Forall (λ c, find_css e' (css_idx c) = Some c) sheets
    ∧ (∀ j, j ≤ max_css_idx e → find_css e' j = find_css e j).
Proof.
  unfold createCSSMap. fold (max_css_idx e).
  intros (sheets & Hl & Hidx & Hnames)%createCSSMap_loop_styles.
  exists sheets. split_and!; [done..| |].
  - destruct (max_css_idx_ge e) as [Hmax _].
    apply Forall_forall. intros c Hc%list_elem_of_In.
    unfold find_css. rewrite Hl, find_app_first.
    assert (Hold : find (λ x, css_idx x =? css_idx c) (cssList e) = None).
    { apply find_none_all. intros x Hx.
      assert (Hxi : css_idx x ≤ max_css_idx e).
      { rewrite Forall_forall in Hmax. by apply Hmax, list_elem_of_In. }
      assert (Hci : In (css_idx c) (map css_idx sheets)) by (by apply in_map).
      rewrite Hidx in Hci. apply in_map_iff in Hci as (k & Hk & _).
      apply Z.eqb_neq. lia. }
    rewrite Hold. clear Hold Hl.
    assert (Hnd : NoDup (map css_idx sheets)).
    { rewrite Hidx. apply NoDup_fmap_2; [|apply NoDup_seq]. intros a b H. lia. }
    clear Hidx Hnames. induction sheets as [|s sheets IH]; [done|].
    cbn [map] in Hnd. apply NoDup_cons in Hnd as [Hs Hnd].
    destruct Hc as [->|Hc]; cbn [find].
    + by rewrite Z.eqb_refl.
    + destruct (Z.eqb_spec (css_idx s) (css_idx c)) as [Heq|Hne].
      * destruct Hs. rewrite Heq. apply list_elem_of_In. by apply in_map.
      * by apply IH.
  - intros j Hj. unfold find_css. rewrite Hl, find_app_first.
    destruct (find _ (cssList e)) as [c|] eqn:Hf; [done|].
    apply find_none_all. intros x Hx.
    assert (Hxi : In (css_idx x) (map css_idx sheets)) by (by apply in_map).
    rewrite Hidx in Hxi. apply in_map_iff in Hxi as (k & Hk & _).
    apply Z.eqb_neq. lia.
Qed.

(** ** The navigation map *)

Lemma ncx_chapterPoints_order chaps : ∀ playOrder,
  attr_values "playOrder" (ncx_chapterPoints playOrder chaps).1
  = map pretty (seq playOrder (length chaps))
  ∧ attr_values "id" (ncx_chapterPoints playOrder chaps).1
    = map (λ k, "navpoint-" +:+ pretty k) (seq playOrder (length chaps))
  ∧ (ncx_chapterPoints playOrder chaps).2 = (playOrder + length chaps)%nat.
Proof.
  induction chaps as [|c chaps IH]; intros playOrder; cbn [ncx_chapterPoints].
  - cbn. split_and!; [done..|lia].
  - specialize (IH (S playOrder)).
    destruct (ncx_chapterPoints (S playOrder) chaps) as [ps po].
    cbn [fst snd length seq map] in *. destruct IH as (IH1 & IH2 & ->).
    unfold ncx_chapterPoint. split_and!; [| |lia].
    + template_values. by rewrite IH1.
    + template_values. by rewrite IH2.
Qed.

Lemma ncx_navPoints_order vols : ∀ playOrder,
  let n := length (flat_map (λ v, ncx_volume_src v
                                  :: map chap_filename (sort_by chap_idx (vol_chapters v)))
                            vols) in
  attr_values "playOrder" (ncx_navPoints playOrder vols).1
  = map pretty (seq playOrder n)
  ∧ attr_values "id" (ncx_navPoints playOrder vols).1
    = map (λ k, "navpoint-" +:+ pretty k) (seq playOrder n)
  ∧ (ncx_navPoints playOrder vols).2 = (playOrder + n)%nat.
Proof.
  induction vols as [|v vols IH]; intros playOrder; cbn [ncx_navPoints flat_map].
  - cbn. split_and!; [done..|lia].
  - pose proof (ncx_chapterPoints_order (sort_by chap_idx (vol_chapters v)) (S playOrder))
      as (Hc1 & Hc2 & Hc3).
    destruct (ncx_chapterPoints _ _) as [cps po1]. cbn [fst snd] in *. subst po1.
    specialize (IH (S playOrder + length (sort_by chap_idx (vol_chapters v)))%nat).
    cbv zeta in IH.
    destruct (ncx_navPoints _ vols) as [ps po2]. cbn [fst snd] in *.
    destruct IH as (IH1 & IH2 & ->).
    cbv zeta. rewrite length_app. cbn [length]. rewrite length_map.
    set (m := length (sort_by chap_idx (vol_chapters v))) in *.
    set (n := length (flat_map _ vols)) in *.
    unfold ncx_volumePoint. split_and!; [| |lia].
    + template_values. rewrite Hc1, IH1.
      change (S m + n)%nat with (S (m + n)). cbn [seq map].
      by rewrite seq_app, map_app.
    + template_values. rewrite Hc2, IH2.
      change (S m + n)%nat with (S (m + n)). cbn [seq map].
      by rewrite seq_app, map_app.
Qed.

(** X19. In the navigation map the navigation points are numbered from 1,
    one by one, in the order they are written, volumes and chapters alike:
    the [playOrder] values are 1, 2, ..., and the identifier of a point is
    [navpoint-] followed by its play order. *)
Theorem ncx_playOrder_consecutive (e : EpubSaver) :
  let ncx := (generateNcx e).1 in
  let n := length (attr_values "src" ncx) in
  attr_values "playOrder" ncx = map pretty (seq 1 n)
  ∧ attr_values "id" ncx = map (λ k, "navpoint-" +:+ pretty k) (seq 1 n).
Proof.
  intros ncx n. unfold n, ncx. rewrite generateNcx_src.
  destruct (ncx_navPoints_order (sort_by vol_idx (volumes e)) 1) as (H1 & H2 & _).
  cbv zeta in H1, H2.
  unfold generateNcx. cbn [fst]. split.
  - template_values. by rewrite H1, app_nil_r.
  - template_values. by rewrite H2, app_nil_r.
Qed.

(** ** Saving twice *)

Lemma gen_state_eq now e :
  gen_state (generate now e)
  = with_volumes (register_cover e) (sort_catalog (volumes e)).
Proof.
  rewrite generate_eq. cbv zeta. cbn [gen_state].
  unfold generateNav, generateNcx, generateOpf. cbv zeta. cbn [snd].
  cbn [volumes with_volumes]. rewrite volumes_register_cover, !sort_catalog_idemp.
  done.
Qed.

Lemma info_register_cover e : info (register_cover e) = info e.
Proof.
  unfold register_cover. destruct (info_cover e); [|done].
  unfold _addResource. by repeat destruct (negb _).
Qed.

Lemma uuid_register_cover e : uuid (register_cover e) = uuid e.
Proof.
  unfold register_cover. destruct (info_cover e); [|done].
  unfold _addResource. by repeat destruct (negb _).
Qed.

Lemma register_cover_idemp e : register_cover (register_cover e) = register_cover e.
Proof.
  unfold register_cover at 1. rewrite info_cover_register_cover.
  destruct (info_cover e) as [cover|] eqn:Hc; [|done].
  destruct (stored_cover_files e) as [H1 H2]; [by eauto|].
  rewrite (addResource_present _ "images/cover.jpg") by done.
  by rewrite addResource_present.
Qed.

Lemma register_cover_sorted e vs :
  register_cover (with_volumes (register_cover e) vs) = with_volumes (register_cover e) vs.
Proof.
  pose proof (register_cover_idemp e) as H.
  unfold register_cover at 1. unfold register_cover at 1 in H.
  change (info_cover (with_volumes (register_cover e) vs))
    with (info_cover (register_cover e)).
  destruct (info_cover (register_cover e)) as [cover|] eqn:Hc; [|done].
  rewrite info_cover_register_cover in Hc.
  destruct (stored_cover_files e) as [H1 H2]; [by eauto|].
  rewrite (addResource_present _ "images/cover.jpg") by done.
  by rewrite addResource_present.
Qed.

Lemma opf_metadata_sorted now e vs :
  opf_metadata now (with_volumes (register_cover e) vs) = opf_metadata now e.
Proof.
  unfold opf_metadata, info_or, info_cover.
  change (info (with_volumes ?e ?vs)) with (info e).
  change (uuid (with_volumes ?e ?vs)) with (uuid e).
  by rewrite info_register_cover, uuid_register_cover.
Qed.

Lemma opf_spine_sorted e :
  opf_spine (with_volumes e (sort_catalog (volumes e))) = opf_spine e.
Proof.
  unfold opf_spine.
  change (info_cover (with_volumes ?e ?vs)) with (info_cover e).
  cbn [volumes with_volumes]. f_equal.
  rewrite (flat_map_sorted_catalog
             (λ v cs, map (λ c, itemref (sanitize_id (chap_filename c))) cs)).
  symmetry.
  apply (flat_map_sort_catalog (map (λ c, itemref (sanitize_id (chap_filename c))))).
Qed.

Lemma generateOpf_sorted now e :
  generateOpf now (with_volumes (register_cover e) (sort_catalog (volumes e)))
  = ((generateOpf now e).1,
     with_volumes (register_cover e) (sort_catalog (volumes e))).
Proof.
  unfold generateOpf. cbv zeta. rewrite register_cover_sorted.
  cbn [fst volumes with_volumes]. rewrite sort_catalog_idemp.
  rewrite opf_metadata_sorted.
  change (opf_manifest (with_volumes ?e ?vs)) with (opf_manifest e).
  change (opf_guide (with_volumes ?e ?vs)) with (opf_guide e).
  pose proof (opf_spine_sorted (register_cover e)) as H.
  rewrite volumes_register_cover in H. by rewrite H.
Qed.

Lemma generateNcx_sorted e vs :
  (generateNcx (with_volumes e (sort_catalog vs))).2 = with_volumes e (sort_catalog vs).
Proof.
  unfold generateNcx. cbn [snd volumes with_volumes]. by rewrite sort_catalog_idemp.
Qed.

Lemma generateNav_sorted e vs :
  (generateNav (with_volumes e (sort_catalog vs))).2 = with_volumes e (sort_catalog vs).
Proof.
  unfold generateNav. cbn [snd volumes with_volumes]. by rewrite sort_catalog_idemp.
Qed.

Lemma generate_again now e :
  generate now (gen_state (generate now e)) = generate now e.
Proof.
  rewrite gen_state_eq. rewrite !generate_eq. cbv zeta.
  rewrite generateOpf_sorted. cbn [fst snd].
  assert (H1 : (generateOpf now e).2
               = with_volumes (register_cover e) (sort_catalog (volumes e))).
  { unfold generateOpf. cbv zeta. cbn [snd]. by rewrite volumes_register_cover. }
  rewrite H1, !generateNcx_sorted, !generateNav_sorted. done.
Qed.

(** X20. Saving twice changes nothing: a second [save], at the same time
    stamp, gives the same archive as the first and leaves the document as
    the first left it. *)
Theorem save_twice (now : string) (e : EpubSaver) :
  save now (save now e).2 = save now e.
Proof.
  change (save now e).2 with (gen_state (generate now e)).
  unfold save. cbv zeta. by rewrite generate_again.
Qed.

(** ** What the archive holds *)

Lemma OEBPS_inj p q : "OEBPS/" +:+ p = "OEBPS/" +:+ q → p = q.
Proof. intros H. strip_prefix H. done. Qed.

Lemma get_zip_file_eq zip name data c :
  JsMap.get (zip_file zip name data c) name
  = Some {| zf_data := data; zf_compression := c |}.
Proof. unfold zip_file. by rewrite JsMapFacts.get_set_eq. Qed.

Lemma get_zip_file_ne zip name data c other :
  name ≠ other → JsMap.get (zip_file zip name data c) other = JsMap.get zip other.
Proof. intros H. unfold zip_file. by rewrite JsMapFacts.get_set_ne. Qed.

Lemma get_zip_resources_other (rs : JsMap.t bytes) name : ∀ zip,
  Forall (λ r, "OEBPS/" +:+ r.1 ≠ name) rs →
  JsMap.get (foldl (λ zip r, zip_file zip ("OEBPS/" +:+ r.1) r.2 None) zip rs) name
  = JsMap.get zip name.
Proof.
  induction rs as [|r rs IH]; intros zip Hrs; [done|].
  apply Forall_cons in Hrs as [Hr Hrs]. cbn [foldl]. rewrite IH by done.
  by rewrite get_zip_file_ne.
Qed.

Lemma get_zip_resources (rs : JsMap.t bytes) p b : ∀ zip,
  NoDup (JsMap.keys rs) → JsMap.get rs p = Some b →
  JsMap.get (foldl (λ zip r, zip_file zip ("OEBPS/" +:+ r.1) r.2 None) zip rs)
            ("OEBPS/" +:+ p)
  = Some {| zf_data := b; zf_compression := None |}.
Proof.
  induction rs as [|[k v] rs IH]; intros zip Hnd Hget; [done|].
  cbn [JsMap.keys map fst] in Hnd. apply NoDup_cons in Hnd as [Hk Hnd].
  cbn [JsMap.get] in Hget. cbn [foldl fst snd].
  destruct (String.eqb_spec k p) as [->|Hne].
  - injection Hget as ->. rewrite get_zip_resources_other.
    + by rewrite get_zip_file_eq.
    + apply Forall_forall. intros [k' v'] Hin%list_elem_of_In Heq%OEBPS_inj.
      cbn in Heq. subst k'. apply Hk, list_elem_of_In.
      change p with (fst (p, v')). by apply in_map.
  - by apply IH.
Qed.

Lemma has_false_Forall (rs : JsMap.t bytes) p :
  JsMap.has rs p = false → Forall (λ r, "OEBPS/" +:+ r.1 ≠ "OEBPS/" +:+ p) rs.
Proof.
  intros H%JsMapFacts.has_false_keys. apply Forall_forall.
  intros [k v] Hin%list_elem_of_In Heq%OEBPS_inj. cbn in Heq. subst k.
  apply H. change p with (fst (p, v)). by apply in_map.
Qed.

(** X21. In the archive of a document built by calls of the interface,
    every resource of the table is under [OEBPS/] with its bytes, except a
    resource called [nav.xhtml], whose place the navigation document takes;
    the package document and the navigation map are there unless a
    resource has their name, and then the resource is there in their
    place. *)
Theorem archive_contents (w : World) (e : EpubSaver) (now : string) :
  reachable w e →
  let a := (save now e).1 in
  let final := (save now e).2 in
  let g := generate now e in
  let file d := Some {| zf_data := encode (render d); zf_compression := None |} in
  JsMap.get (arc_files a) "OEBPS/nav.xhtml" = file (gen_nav g)
  ∧ JsMap.get (arc_files a) "META-INF/container.xml" = file container_xml
  ∧ (∀ path b, JsMap.get (resources final) path = Some b → path ≠ "nav.xhtml" →
       JsMap.get (arc_files a) ("OEBPS/" +:+ path)
       = Some {| zf_data := b; zf_compression := None |})
  ∧ (JsMap.has (resources final) "content.opf" = false →
       JsMap.get (arc_files a) "OEBPS/content.opf" = file (gen_opf g))
  ∧ (JsMap.has (resources final) "toc.ncx" = false →
       JsMap.get (arc_files a) "OEBPS/toc.ncx" = file (gen_ncx g)).
Proof.
  intros Hr a final g file.
  assert (Hnd : NoDup (JsMap.keys (resources final))).
  { eapply reachable_NoDup, reachable_call; [exact Hr|].
    by instantiate (1 := CallSave now). }
  unfold a, final, save. cbv zeta. cbn [fst snd arc_files]. fold g.
  fold g in Hnd. change (resources (save now e).2) with (resources (gen_state g)) in Hnd.
  split_and!.
  - by rewrite get_zip_file_eq.
  - rewrite get_zip_file_ne by done.
    rewrite get_zip_resources_other by (apply Forall_forall; by intros).
    by rewrite !get_zip_file_ne, get_zip_file_eq by done.
  - intros path b Hget Hne.
    rewrite get_zip_file_ne by (intros H%(OEBPS_inj "nav.xhtml"); congruence).
    by apply get_zip_resources.
  - intros Hno. rewrite get_zip_file_ne by done.
    rewrite get_zip_resources_other by (by apply has_false_Forall).
    by rewrite get_zip_file_ne, get_zip_file_eq by done.
  - intros Hno. rewrite get_zip_file_ne by done.
    rewrite get_zip_resources_other by (by apply has_false_Forall).
    by rewrite get_zip_file_eq.
Qed.

(** ** The cover in the manifest *)

Lemma has_In (rs : JsMap.t bytes) p : JsMap.has rs p = true → ∃ b, In (p, b) rs.
Proof.
  intros H%JsMapFacts.has_keys. apply in_map_iff in H as ([k b] & Hk & Hin).
  cbn in Hk. subst k. by eauto.
Qed.

(** X22. With a cover set, the manifest of the package document declares
    the cover image twice and the cover page twice: once by the fixed items
    [cover-image] and [cover], and once more by the items made for the
    entries of the resource table, under the identifiers
    [images-cover-jpg] and [cover-xhtml]. *)
Theorem cover_declared_twice (now : string) (e : EpubSaver) (cover : bytes) :
  info_cover e = Some cover →
  Forall (λ item, ∃ pre post, (generateOpf now e).1 = pre ++ item ++ post)
    [ manifest_item "cover-image" "images/cover.jpg" "image/jpeg" (Some "cover-image");
      manifest_item "images-cover-jpg" "images/cover.jpg" "image/jpeg" None;
      manifest_item "cover" "cover.xhtml" "application/xhtml+xml" None;
      manifest_item "cover-xhtml" "cover.xhtml" "application/xhtml+xml" None ].
Proof.
  intros Hc.
  assert (Hdoc : ∀ item, In item (opf_manifest (register_cover e)) →
                   ∃ pre post, (generateOpf now e).1 = pre ++ item ++ post).
  { intros item Hin.
    destruct (join_pieces_In (nl +:+ "    ") _ _ Hin) as (pre & post & Heq).
    unfold generateOpf. cbv zeta. cbn [fst]. rewrite Heq.
    match goal with
    | |- ∃ _ _, ?a ++ ?b ++ ?c ++ ?d ++ (pre ++ _ ++ post) ++ ?rest = _ =>
        exists (a ++ b ++ c ++ d ++ pre), (post ++ rest)
    end.
    by rewrite <- !app_assoc. }
  destruct (stored_cover_files e) as [H1 H2]; [by eauto|].
  apply has_In in H1 as [b1 H1]. apply has_In in H2 as [b2 H2].
  assert (Hres : ∀ p b, In (p, b) (resources (register_cover e)) →
            In (manifest_item (sanitize_id p) p (media_type p) None)
               (opf_manifest (register_cover e))).
  { intros p b Hin. unfold opf_manifest. rewrite !in_app_iff. right. right.
    apply in_map_iff. by exists (p, b). }
  repeat constructor; apply Hdoc.
  - unfold opf_manifest. rewrite info_cover_register_cover, Hc.
    rewrite !in_app_iff. right. left. by left.
  - apply (Hres _ _ H1).
  - unfold opf_manifest. rewrite info_cover_register_cover, Hc.
    rewrite !in_app_iff. right. left. right. by left.
  - apply (Hres _ _ H2).
Qed.

(** ** The identifier of a new document *)

Lemma to_int32_draw (x : Q) :
  (0 <= x)%Q → (x < 1)%Q → 0 ≤ to_int32 (x * 16) < 16.
Proof.
  intros H0 H1. unfold to_int32.
  assert (Hle : (0 <= x * 16)%Q).
  { destruct x as [a b]. unfold Qle in *. cbn [Qmult Qnum Qden] in *. lia. }
  assert (Hlt : (x * 16 < 16)%Q).
  { destruct x as [a b]. unfold Qlt in *. cbn [Qmult Qnum Qden] in *. lia. }
  apply Qle_bool_iff in Hle as Hb. rewrite Hb.
  assert (Hf0 : 0 ≤ Qfloor (x * 16)).
  { change 0 with (Qfloor 0). by apply Qfloor_resp_le. }
  assert (Hf1 : Qfloor (x * 16) < 16).
  { rewrite Zlt_Qlt. eapply Qle_lt_trans; [apply Qfloor_le|exact Hlt]. }
  rewrite Z.mod_small by lia. lia.
Qed.

Lemma small_cases (v : Z) (P : Z → Prop) :
  0 ≤ v < 16 →
  P 0 → P 1 → P 2 → P 3 → P 4 → P 5 → P 6 → P 7 →
  P 8 → P 9 → P 10 → P 11 → P 12 → P 13 → P 14 → P 15 → P v.
Proof.
  intros Hv.
  assert (v = 0 ∨ v = 1 ∨ v = 2 ∨ v = 3 ∨ v = 4 ∨ v = 5 ∨ v = 6 ∨ v = 7
          ∨ v = 8 ∨ v = 9 ∨ v = 10 ∨ v = 11 ∨ v = 12 ∨ v = 13 ∨ v = 14 ∨ v = 15)
    as H by lia.
  intros. repeat (destruct H as [->|H]; [assumption|]). by subst.
Qed.

Lemma toString16_digit (v : Z) :
  0 ≤ v < 16 → ∃ c, toString16 v = String c EmptyString ∧ is_hex c = true.
Proof.
  intros Hv. apply (small_cases v (λ v, ∃ c, toString16 v = String c EmptyString
                                             ∧ is_hex c = true) Hv);
    (eexists; split; [vm_compute; reflexivity|reflexivity]).
Qed.

Lemma toString16_variant (r : Z) :
  0 ≤ r < 16 →
  ∃ c, toString16 (Z.lor (Z.land r 3) 8) = String c EmptyString
       ∧ (Ascii.eqb c "8" || Ascii.eqb c "9" || Ascii.eqb c "a" || Ascii.eqb c "b") = true.
Proof.
  intros Hr.
  apply (small_cases r (λ r, ∃ c, toString16 (Z.lor (Z.land r 3) 8) = String c EmptyString
       ∧ (Ascii.eqb c "8" || Ascii.eqb c "9" || Ascii.eqb c "a" || Ascii.eqb c "b") = true)
       Hr);
    (eexists; split; [vm_compute; reflexivity|reflexivity]).
Qed.

Lemma replace_xy_x rest random i :
  replace_xy (String "x" rest) random i
  = toString16 (to_int32 (random i * 16)) +:+ replace_xy rest random (S i).
Proof. reflexivity. Qed.

Lemma replace_xy_y rest random i :
  replace_xy (String "y" rest) random i
  = toString16 (Z.lor (Z.land (to_int32 (random i * 16)) 3) 8)
    +:+ replace_xy rest random (S i).
Proof. reflexivity. Qed.

Lemma replace_xy_other c rest random i :
  Ascii.eqb c "x" || Ascii.eqb c "y" = false →
  replace_xy (String c rest) random i = String c (replace_xy rest random i).
Proof. intros H. cbn [replace_xy]. by rewrite H. Qed.

Lemma block_S n p rest c s : block (S n) p rest (String c s) = p c && block n p rest s.
Proof. reflexivity. Qed.

Lemma block_O p rest s : block 0 p rest s = rest s.
Proof. reflexivity. Qed.

(** X23. Whatever numbers [Math.random] gives, the identifier of a new
    document has the form of a random identifier of RFC 4122: 36 characters,
    lower-case hexadecimal digits in groups of 8, 4, 4, 4 and 12 with a
    hyphen between them, the third group beginning with [4] and the fourth
    with [8], [9], [a] or [b]. *)
Theorem createUuid_v4 (random : nat → Q) :
  (∀ i, (0 <= random i)%Q ∧ (random i < 1)%Q) →
  uuid_v4 (createUuid random) = true ∧ String.length (createUuid random) = 36%nat.
Proof.
  intros Hrandom.
  assert (Hx : ∀ i, ∃ c, toString16 (to_int32 (random i * 16)) = String c EmptyString
                         ∧ is_hex c = true).
  { intros i. apply toString16_digit, to_int32_draw; apply Hrandom. }
  assert (Hy : ∀ i, ∃ c,
             toString16 (Z.lor (Z.land (to_int32 (random i * 16)) 3) 8)
             = String c EmptyString
             ∧ (Ascii.eqb c "8" || Ascii.eqb c "9" || Ascii.eqb c "a" || Ascii.eqb c "b")
               = true).
  { intros i. apply toString16_variant, to_int32_draw; apply Hrandom. }
  unfold createUuid, UUID_TEMPLATE.
  repeat first
    [ rewrite replace_xy_x;
      match goal with
      | |- context [toString16 (to_int32 (random ?i * 16)) +:+ _] =>
          let c := fresh "c" in let Hc := fresh "Hc" in let Hh := fresh "Hh" in
          destruct (Hx i) as (c & Hc & Hh); rewrite Hc, append_cons, append_nil_l
      end
    | rewrite replace_xy_y;
      match goal with
      | |- context [toString16 (Z.lor (Z.land (to_int32 (random ?i * 16)) 3) 8) +:+ _] =>
          let c := fresh "c" in let Hc := fresh "Hc" in let Hh := fresh "Hh" in
          destruct (Hy i) as (c & Hc & Hh); rewrite Hc, append_cons, append_nil_l
      end
    | rewrite replace_xy_other by reflexivity ].
  change (replace_xy EmptyString random 31) with EmptyString.
  split; [|reflexivity].
  unfold uuid_v4. repeat first [rewrite block_S | rewrite block_O].
  repeat match goal with H : _ = true |- _ => rewrite H; clear H end.
  reflexivity.
Qed.

Lemma createUuid_v4_witness :
  (∀ i : nat, (0 <= (λ i, Z.of_nat (i mod 7) # 7) i)%Q
              ∧ ((λ i, Z.of_nat (i mod 7) # 7) i < 1)%Q)
  ∧ createUuid (λ i, Z.of_nat (i mod 7) # 7) = "02469bd0-2469-4bd0-a469-bd02469bd024"
  ∧ uuid_v4 (createUuid (λ i, Z.of_nat (i mod 7) # 7)) = true.
Proof.
  assert (H : ∀ i : nat, (0 <= (λ i, Z.of_nat (i mod 7) # 7) i)%Q
                         ∧ ((λ i, Z.of_nat (i mod 7) # 7) i < 1)%Q).
  { intros i. unfold Qle, Qlt. cbn [Qnum Qden].
    pose proof (Nat.mod_upper_bound i 7). lia. }
  split; [exact H|]. split; [vm_compute; reflexivity|].
  exact (proj1 (createUuid_v4 _ H)).
Defined.

(** ** The further properties, on the demonstration worlds *)

Lemma escapeXml_lossless_witness :
  escapeXml "a<b" = escapeXml "a<b" ∧ "a<b" = "a<b".
Proof.
  split; [reflexivity|].
  apply (proj2 (escapeXml_lossless "a<b" "a<b")). reflexivity.
Defined.

Lemma escapeXml_no_markup_witness :
  escapeXml "a&b" = "a" +:+ String "&" "amp;b"
  ∧ (∃ name, In name ["lt;"; "gt;"; "amp;"; "apos;"; "quot;"]
             ∧ startsWith "amp;b" name = true)
  ∧ Forall (λ c, is_reserved c = false) (chars "abc") ∧ escapeXml "abc" = "abc".
Proof.
  assert (H : Forall (λ c, is_reserved c = false) (chars "abc"))
    by (repeat constructor).
  split; [reflexivity|]. split.
  - exact (proj1 (proj2 (escapeXml_no_markup "a&b")) "a" "amp;b" eq_refl).
  - split; [exact H|].
    exact (proj2 (proj2 (escapeXml_no_markup "abc")) H).
Defined.

Lemma extractContent_region_witness :
  Forall (λ c, c ≠ "<"%char) (chars "plain") ∧ extractContent "plain" = "plain".
Proof.
  assert (H : Forall (λ c, c ≠ "<"%char) (chars "plain"))
    by (repeat constructor; discriminate).
  split; [exact H|].
  exact (proj2 (extractContent_region "plain") H).
Defined.

Lemma dotless_url_extension_witness :
  Forall (λ c, c ≠ "."%char ∧ c ≠ "#"%char ∧ c ≠ "?"%char) (chars "fonts/a")
  ∧ truthy "fonts/a" = true
  ∧ resourceUrls (new_EpubSaver demo_uuid) !! "fonts/a" = None
  ∧ (∃ response, fetch demo_image_world "fonts/a" = Some response)
  ∧ resourceUrls (fetch_css_url demo_image_world (new_EpubSaver demo_uuid) "fonts/a")
      !! "fonts/a"
    = Some ("resources/res" +:+ pretty 0 +:+ "." +:+ "fonts/a").
Proof.
  assert (H : Forall (λ c, c ≠ "."%char ∧ c ≠ "#"%char ∧ c ≠ "?"%char)
                     (chars "fonts/a"))
    by (repeat constructor; discriminate).
  split; [exact H|]. split; [reflexivity|]. split; [reflexivity|].
  split; [eexists; reflexivity|].
  exact (proj2 (proj2 (dotless_url_extension demo_image_world
                         (new_EpubSaver demo_uuid) "fonts/a" _ H eq_refl eq_refl eq_refl))).
Defined.

Lemma sanitize_id_shape_witness :
  Forall (λ c, is_alnum c = true) (chars "abc1") ∧ sanitize_id "abc1" = "abc1".
Proof.
  assert (H : Forall (λ c, is_alnum c = true) (chars "abc1"))
    by (repeat constructor).
  split; [exact H|].
  exact (proj1 (proj2 (proj2 (sanitize_id_shape "abc1"))) H).
Defined.

Lemma generated_names_distinct_witness :
  chapter_filename 1 12 = chapter_filename 1 12 ∧ (1 = 1 ∧ 12 = 12).
Proof.
  split; [reflexivity|].
  apply (proj1 (proj1 generated_names_distinct 1 12 1 12)). reflexivity.
Defined.

Lemma processImages_known_images_witness :
  Forall (passed_over (new_EpubSaver demo_uuid))
         [NImg None; NMarkup "<p>"; NImg (Some EmptyString)]
  ∧ processImages_dom demo_image_world (new_EpubSaver demo_uuid)
      [NImg None; NMarkup "<p>"; NImg (Some EmptyString)]
    = ([NImg None; NMarkup "<p>"; NImg (Some EmptyString)], [], new_EpubSaver demo_uuid).
Proof.
  assert (H : Forall (passed_over (new_EpubSaver demo_uuid))
                     [NImg None; NMarkup "<p>"; NImg (Some EmptyString)]).
  { constructor; [exact I|]. constructor; [exact I|].
    constructor; [left; reflexivity|]. constructor. }
  split; [exact H|].
  exact (proj1 (processImages_known_images demo_image_world (new_EpubSaver demo_uuid)
                  _ H)).
Defined.

Lemma secure_context_no_http_witness :
  secureContext demo_secure_world = true
  ∧ map staged_url
      (processImages_dom demo_secure_world (new_EpubSaver demo_uuid) same_image_twice).1.2
    = [ "https://host/a.png"; "https://host/a.png" ]
  ∧ Forall (λ s, startsWith (staged_url s) "http://" = false)
      (processImages_dom demo_secure_world (new_EpubSaver demo_uuid) same_image_twice).1.2.
Proof.
  split; [reflexivity|]. split; [vm_compute; reflexivity|].
  exact (proj1 (secure_context_no_http demo_secure_world (new_EpubSaver demo_uuid)
                  same_image_twice eq_refl)).
Defined.

Lemma call_appends_to_table_witness :
  call demo_world (new_EpubSaver demo_uuid) (CallAddVolume "V" 1)
  = Some (addVolume (new_EpubSaver demo_uuid) "V" 1).2
  ∧ ∃ added, resources (addVolume (new_EpubSaver demo_uuid) "V" 1).2
             = resources (new_EpubSaver demo_uuid) ++ added.
Proof.
  split; [reflexivity|].
  exact (proj1 (call_appends_to_table demo_world (new_EpubSaver demo_uuid)
                  (CallAddVolume "V" 1) _ eq_refl)).
Defined.

Lemma reachable_table_unique_witness :
  reachable demo_world (new_EpubSaver demo_uuid)
  ∧ run demo_world (new_EpubSaver demo_uuid) demo_calls = Some demo_book
  ∧ NoDup (JsMap.keys (resources demo_book)).
Proof.
  split; [apply reachable_new|]. split; [apply demo_book_run|].
  exact (proj1 (proj2 (reachable_table_unique demo_world (new_EpubSaver demo_uuid)
                         demo_calls demo_book (reachable_new demo_world demo_uuid)
                         demo_book_run))).
Defined.

Lemma demo_image_book_run :
  run demo_image_world (new_EpubSaver demo_uuid) demo_image_calls = Some demo_image_book.
Proof. vm_compute. reflexivity. Qed.

Lemma demo_image_book_reachable : reachable demo_image_world demo_image_book.
Proof.
  eapply run_reachable; [apply (reachable_new demo_image_world demo_uuid)|].
  apply demo_image_book_run.
Qed.

Lemma demo_image_book_index :
  resourceUrls demo_image_book !! "http://host/a.png" = Some "images/img0.png".
Proof. vm_compute. reflexivity. Qed.

Lemma url_index_backed_witness :
  reachable demo_image_world demo_image_book
  ∧ resourceUrls demo_image_book !! "http://host/a.png" = Some "images/img0.png"
  ∧ JsMap.has (resources demo_image_book) "images/img0.png" = true.
Proof.
  split; [exact demo_image_book_reachable|]. split; [exact demo_image_book_index|].
  exact (url_index_backed demo_image_world demo_image_book "http://host/a.png"
           "images/img0.png" demo_image_book_reachable demo_image_book_index).
Defined.

Lemma demo_sorted_book_run :
  run demo_world (addVolume (new_EpubSaver demo_uuid) "V" 1).2 demo_later_calls
  = Some demo_sorted_book.
Proof. vm_compute. reflexivity. Qed.

Lemma handle_stays_valid_witness :
  reachable demo_world (new_EpubSaver demo_uuid)
  ∧ run demo_world (addVolume (new_EpubSaver demo_uuid) "V" 1).2 demo_later_calls
    = Some demo_sorted_book
  ∧ map vol_title (volumes demo_sorted_book) = [ "W"; "V" ]
  ∧ ∃ v, find_volume demo_sorted_book
           (vol_ref (addVolume (new_EpubSaver demo_uuid) "V" 1).1) = Some v
         ∧ vol_idx v = 1 ∧ vol_title v = "V"
         ∧ vol_containerFile v = containerFile_of 1.
Proof.
  split; [apply reachable_new|]. split; [exact demo_sorted_book_run|].
  split; [vm_compute; reflexivity|].
  exact (proj1 (handle_stays_valid demo_world (new_EpubSaver demo_uuid) "V" 1
                  demo_later_calls demo_sorted_book
                  (reachable_new demo_world demo_uuid) demo_sorted_book_run)).
Defined.

Lemma addChapter_same_index_witness :
  ∃ v e',
    find_volume demo_book 0 = Some v
    ∧ addChapter demo_world demo_book 0 2 "<p>other</p>" "Again" "html" true true []
      = Some e'
    ∧ JsMap.get (resources e') (chapter_filename (vol_idx v) 2)
      = JsMap.get (resources demo_book) (chapter_filename (vol_idx v) 2)
    ∧ map chap_title (vol_chapters (default v (find_volume e' 0)))
      = [ "1 < 2"; "One"; "Again" ].
Proof.
  destruct (find_volume demo_book 0) as [v|] eqn:Hv;
    [|vm_compute in Hv; discriminate].
  destruct (addChapter demo_world demo_book 0 2 "<p>other</p>" "Again" "html"
              true true []) as [e'|] eqn:Ha; [|vm_compute in Ha; discriminate].
  exists v, e'. split; [reflexivity|]. split; [reflexivity|].
  destruct (addChapter_same_index demo_world demo_book 0 2 "<p>other</p>" "Again"
              "html" true true [] v e' Hv Ha) as [Hget Hfind].
  split.
  - rewrite Hget. vm_compute in Hv. injection Hv as <-. vm_compute. reflexivity.
  - rewrite Hfind. vm_compute in Hv. injection Hv as <-. vm_compute. reflexivity.
Defined.

Lemma addCSS_first_index_wins_witness :
  ∃ e',
    addCSS demo_world demo_styles 2 "b { }" "late.css" "late" = Some e'
    ∧ find_css e' 2 = find_css demo_styles 2
    ∧ cssMap e' !! "late" = Some 2.
Proof.
  destruct (addCSS demo_world demo_styles 2 "b { }" "late.css" "late")
    as [e'|] eqn:Ha; [|vm_compute in Ha; discriminate].
  exists e'. split; [reflexivity|].
  destruct (addCSS_first_index_wins demo_world demo_styles 2 "b { }" "late.css"
              "late" e' Ha) as (_ & _ & Hfind & _ & Hmap).
  split.
  - rewrite Hfind. vm_compute. reflexivity.
  - apply Hmap. reflexivity.
Defined.

Lemma createCSSMap_fresh_indices_witness :
  ∃ e' sheets,
    createCSSMap demo_world demo_styles [("a", "x { }"); ("b", "y { }")] = Some e'
    ∧ cssList e' = cssList demo_styles ++ sheets
    ∧ map css_idx sheets = [3; 4].
Proof.
  destruct (createCSSMap demo_world demo_styles [("a", "x { }"); ("b", "y { }")])
    as [e'|] eqn:Hc; [|vm_compute in Hc; discriminate].
  destruct (createCSSMap_fresh_indices demo_world demo_styles
              [("a", "x { }"); ("b", "y { }")] e' Hc)
    as (sheets & Hl & Hi & _).
  exists e', sheets. split; [reflexivity|]. split; [exact Hl|].
  rewrite Hi. vm_compute. reflexivity.
Defined.

Lemma archive_contents_witness :
  reachable demo_world demo_book
  ∧ JsMap.get (arc_files (save demo_now demo_book).1) "OEBPS/nav.xhtml"
    = Some {| zf_data := encode (render (gen_nav (generate demo_now demo_book)));
              zf_compression := None |}.
Proof.
  split; [exact demo_book_reachable|].
  exact (proj1 (archive_contents demo_world demo_book demo_now demo_book_reachable)).
Defined.

Lemma cover_declared_twice_witness :
  info_cover demo_cover_book = Some [xff; xd8; xff]
  ∧ ∃ pre post,
      (generateOpf demo_now demo_cover_book).1
      = pre ++ manifest_item "images-cover-jpg" "images/cover.jpg" "image/jpeg" None
            ++ post.
Proof.
  assert (Hc : info_cover demo_cover_book = Some [xff; xd8; xff])
    by (vm_compute; reflexivity).
  split; [exact Hc|].
  pose proof (cover_declared_twice demo_now demo_cover_book _ Hc) as H.
  apply Forall_cons in H as [_ H]. apply Forall_cons in H as [H _]. exact H.
Defined.

(** * The links of a chapter and the cover, on the interface *)

Lemma has_false_get (m : JsMap.t bytes) k : JsMap.has m k = false → JsMap.get m k = None.
Proof. unfold JsMap.has. by destruct (JsMap.get m k). Qed.










(** ** The cover, on [save] *)

Lemma save_state now e : (save now e).2 = gen_state (generate now e).
Proof. done. Qed.

Lemma save_reachable w now e : reachable w e → reachable w (save now e).2.
Proof.
  intros Hr. eapply reachable_call; [exact Hr|]. by instantiate (1 := CallSave now).
Qed.

Lemma save_archive_resource w now e path b :
  reachable w e →
  JsMap.get (resources (save now e).2) path = Some b →
  path ≠ "nav.xhtml" →
  JsMap.get (arc_files (save now e).1) ("OEBPS/" +:+ path)
  = Some {| zf_data := b; zf_compression := None |}.
Proof.
  intros Hr Hget Hne.
  pose proof (reachable_NoDup w _ (save_reachable w now e Hr)) as Hnd.
  rewrite save_state in Hnd, Hget.
  unfold save. cbv zeta. cbn [fst arc_files].
  rewrite get_zip_file_ne by (intros H%(OEBPS_inj "nav.xhtml"); congruence).
  by apply get_zip_resources.
Qed.

Lemma save_archive_opf now e :
  JsMap.has (resources (save now e).2) "content.opf" = false →
  JsMap.get (arc_files (save now e).1) "OEBPS/content.opf"
  = Some {| zf_data := encode (render (gen_opf (generate now e)));
            zf_compression := None |}.
Proof.
  rewrite save_state. intros Hno.
  unfold save. cbv zeta. cbn [fst arc_files].
  rewrite get_zip_file_ne by done.
  rewrite get_zip_resources_other by (by apply has_false_Forall).
  by rewrite get_zip_file_ne, get_zip_file_eq by done.
Qed.

(** C10. A cover given as bytes is kept as given, a cover given as a URL is
    replaced by the body of the response, whatever its status and content
    type.  Whenever a cover is set in a document built by calls of the
    interface, [save] leaves under [images/cover.jpg] what the table held
    there before, or else the cover bytes: the cover bytes whenever the
    path was free.  The archive holds these bytes at
    [OEBPS/images/cover.jpg]; the package document [save] generates has the
    item [cover-image] with that path and the media type [image/jpeg], it
    is the file [OEBPS/content.opf] of the archive unless a resource has
    that name, and every manifest item with that path has that media
    type. *)
Theorem C10_cover_is_jpeg (w : World) (now : string) :
  (∀ e value e1,
     setInfo w e "cover" value = Some e1 →
     ∃ cover,
       info_cover e1 = Some cover
       ∧ match value with
         | VBytes b => cover = b
         | VStr url => ∃ response, fetch w url = Some response ∧ cover = resp_body response
         end)
  ∧ (∀ e cover,
       reachable w e →
       info_cover e = Some cover →
       let a := (save now e).1 in
       let final := (save now e).2 in
       let opf := gen_opf (generate now e) in
       let kept := default cover (JsMap.get (resources e) "images/cover.jpg") in
       JsMap.get (resources final) "images/cover.jpg" = Some kept
       ∧ (JsMap.has (resources e) "images/cover.jpg" = false → kept = cover)
       ∧ JsMap.get (arc_files a) "OEBPS/images/cover.jpg"
         = Some {| zf_data := kept; zf_compression := None |}
       ∧ (∃ pre post,
            opf = pre ++ manifest_item "cover-image" "images/cover.jpg" "image/jpeg"
                           (Some "cover-image") ++ post)
       ∧ (JsMap.has (resources final) "content.opf" = false →
          JsMap.get (arc_files a) "OEBPS/content.opf"
          = Some {| zf_data := encode (render opf); zf_compression := None |})
       ∧ (∀ item, In item (opf_manifest (register_cover e)) →
                  attr_values "href" item = ["images/cover.jpg"] →
                  attr_values "media-type" item = ["image/jpeg"])).
Proof.
  destruct (cover_registered w now) as [Hset Hgen].
  split; [exact Hset|].
  intros e cover Hr Hc a final opf kept.
  destruct (Hgen e cover Hc) as (Hres & _ & Hget & Hitem & Htype).
  assert (Hkept : JsMap.get (resources final) "images/cover.jpg" = Some kept).
  { unfold final. rewrite save_state, resources_gen_state.
    change (resources (register_cover e)) with (resources (generateOpf now e).2).
    exact Hget. }
  split_and!.
  - exact Hkept.
  - intros Hfree. unfold kept. by rewrite (has_false_get _ _ Hfree).
  - by apply (save_archive_resource w).
  - exact Hitem.
  - apply save_archive_opf.
  - exact Htype.
Qed.

Lemma demo_cover_book_reachable : reachable demo_world demo_cover_book.
Proof.
  eapply reachable_call; [apply (reachable_new demo_world demo_uuid)|].
  by instantiate (1 := CallSetInfo "cover" (VBytes [xff; xd8; xff])).
Qed.

Lemma C10_cover_is_jpeg_witness :
  reachable demo_world demo_cover_book
  ∧ info_cover demo_cover_book = Some [xff; xd8; xff]
  ∧ JsMap.has (resources demo_cover_book) "images/cover.jpg" = false
  ∧ JsMap.get (resources (save demo_now demo_cover_book).2) "images/cover.jpg"
    = Some [xff; xd8; xff]
  ∧ JsMap.get (arc_files (save demo_now demo_cover_book).1) "OEBPS/images/cover.jpg"
    = Some {| zf_data := [xff; xd8; xff]; zf_compression := None |}.
Proof.
  assert (Hc : info_cover demo_cover_book = Some [xff; xd8; xff])
    by (vm_compute; reflexivity).
  assert (Hfree : JsMap.has (resources demo_cover_book) "images/cover.jpg" = false)
    by (vm_compute; reflexivity).
  destruct (proj2 (C10_cover_is_jpeg demo_world demo_now) demo_cover_book
              [xff; xd8; xff] demo_cover_book_reachable Hc)
    as (Hget & Hkept & Harc & _).
  split; [exact demo_cover_book_reachable|]. split; [exact Hc|].
  split; [exact Hfree|]. rewrite (Hkept Hfree) in Hget, Harc.
  split; [exact Hget | exact Harc].
Defined.

Lemma demo_recovered_book_run :
  run demo_world (new_EpubSaver demo_uuid) demo_recover_calls = Some demo_recovered_book.
Proof. vm_compute. reflexivity. Qed.

(** C10, as it is worded, fails: a cover set after a [save] with another
    cover is not registered, since the path is taken; the table and the
    archive keep the first cover. *)
Lemma C10_cover_counterexample : ¬ cover_claim.
Proof.
  intros H.
  assert (Hr : reachable demo_world demo_recovered_book).
  { eapply run_reachable; [apply (reachable_new demo_world demo_uuid)|].
    apply demo_recovered_book_run. }
  assert (Hc : info_cover demo_recovered_book = Some [x02])
    by (vm_compute; reflexivity).
  destruct (H demo_world demo_recovered_book demo_now [x02] Hr Hc) as [Hget _].
  vm_compute in Hget. discriminate.
Qed.
